(** * Bennett-lab core engine: ECS World, Stage machine and frame clock

    A shallow embedding of the TypeScript sources

      - [core/ecs/Entity.ts], [core/ecs/Component.ts], [core/ecs/System.ts]
      - [core/ecs/World.ts]
      - [core/SceneManager.ts]
      - [core/Time.ts]

    followed by the properties of the engine specification that concern them.

    Conventions of the embedding.

    - JavaScript objects that are shared and mutated through a reference
      (entities with their [active] flag, systems with their [enabled] flag
      and [priority]) live in an object store inside [State]; the World only
      holds references to them, as in the source.
    - A JavaScript [Map] iterates in insertion order, so the World's
      [entities] and [components] maps are insertion-ordered association
      lists ([JsMap]); the query cache is only read by key and is a [gmap].
    - Calls into collaborator code (component and system hooks, stage hooks,
      the frame callback, the console, the host's animation-frame primitive)
      are recorded as events, in call order.  The body of a system's
      [update] is a parameter: the calls it makes on the World and on the
      objects of the store.
    - The numbers of the frame clock (time stamps, intervals, the frame
      rate) are JavaScript numbers, that is IEEE 754 binary64 values with
      their rounding: Rocq's primitive floats, whose operations are
      specified by the Standard Library ([FloatAxioms]).  Frame counters
      and priorities are integers; the [delta] and [elapsed] that the World
      and the stages hand on unchanged are rationals. *)

From Stdlib Require Import ZArith QArith Qpower String Ascii List Permutation Lia Lqa.
From Stdlib Require Import Floats.
From stdpp Require Import base option list gmap strings pretty sorting.

(* ================================================================== *)
(** * JavaScript containers *)
(* ================================================================== *)

(** [Map<K, V>]: an association list in insertion order, keys unique. *)
Module JsMap.
Section ops.
Context {K V : Type} `{EqDecision K}.

Fixpoint get (m : list (K * V)) (k : K) : option V :=
  match m with
  | [] => None
  | (k', v) :: m' => if decide (k = k') then Some v else get m' k
  end.

Definition has (m : list (K * V)) (k : K) : bool :=
  match get m k with Some _ => true | None => false end.

(** [m.set(k, v)]: an existing key keeps its position, a new key goes
    last. *)
Fixpoint set (m : list (K * V)) (k : K) (v : V) : list (K * V) :=
  match m with
  | [] => [(k, v)]
  | (k', v') :: m' =>
      if decide (k = k') then (k, v) :: m' else (k', v') :: set m' k v
  end.

Fixpoint delete (m : list (K * V)) (k : K) : list (K * V) :=
  match m with
  | [] => []
  | (k', v') :: m' =>
      if decide (k = k') then m' else (k', v') :: delete m' k
  end.

Definition size (m : list (K * V)) : nat := length m.

Definition keys (m : list (K * V)) : list K := m.*1.
End ops.
End JsMap.

(** [Set<number>]: the elements in insertion order. *)
Module JsSet.
Definition add (s : list nat) (x : nat) : list nat :=
  if decide (x ∈ s) then s else s ++ [x].
End JsSet.

(** [Array.prototype.sort] is stable; with a consistent comparator its
      result is the stable sort of the array.  [le a b] stands for
      "the comparator does not put [b] before [a]" ([cmp a b <= 0]). *)
Module JsArray.
Section sort.
Context {A : Type} (le : A → A → bool).

Fixpoint insert (x : A) (l : list A) : list A :=
  match l with
  | [] => [x]
  | y :: l' => if le x y then x :: y :: l' else y :: insert x l'
  end.

Fixpoint sort (l : list A) : list A :=
  match l with
  | [] => []
  | x :: l' => insert x (sort l')
  end.
End sort.

Section index.
Context {A : Type} `{EqDecision A}.

(** [a.indexOf(x)], with [None] for [-1]. *)
Fixpoint indexOf (l : list A) (x : A) : option nat :=
  match l with
  | [] => None
  | y :: l' => if decide (x = y) then Some 0 else S <$> indexOf l' x
  end.

(** [a.splice(i, 1)]. *)
Definition splice1 (l : list A) (i : nat) : list A :=
  take i l ++ drop (S i) l.
End index.
End JsArray.

(* ================================================================== *)
(** * ECS data model *)
(* ================================================================== *)

(** Object references. *)
Definition ref := nat.

Module Entity.
Record t := mk { id : nat; name : string; active : bool }.

Global Instance inhabited : Inhabited t := populate (mk 0 "" false).

Definition set_active (b : bool) (e : t) : t := mk (id e) (name e) b.
End Entity.

Module Component.
(** [className] is [component.constructor.name]; [onAttach] and
    [onDetach] tell whether the optional hook is defined; [tag]
    distinguishes instances. *)
Record t := mk {
  entityId : nat;
  className : string;
  onAttach : bool;
  onDetach : bool;
  tag : nat }.
End Component.

Module ComponentClass.
Record t := mk { name : string }.
End ComponentClass.

Module System.
Record t := mk {
  enabled : bool;
  priority : Z;
  onInit : bool;
  onDestroy : bool }.

Global Instance inhabited : Inhabited t := populate (mk false 0 false false).

Definition set_enabled (b : bool) (s : t) : t :=
  mk b (priority s) (onInit s) (onDestroy s).
End System.

(** Calls from the World into collaborator code. *)
Inductive Event :=
  | OnAttach (c : Component.t)
  | OnDetach (c : Component.t)
  | OnInit (s : ref)
  | OnDestroy (s : ref)
  | Update (s : ref) (delta elapsed : Q).

Inductive Error :=
  | EntityNotFound (entityId : nat)
  | StageNotFound (name : string).

(** The object store ([nextId], [entityObj], [systemObj]) and the private
    fields of the World. *)
Record State := mkState {
  nextId : nat;
  entityObj : gmap ref Entity.t;
  systemObj : gmap ref System.t;
  entities : list (nat * ref);
  components : list (nat * list (string * Component.t));
  systems : list ref;
  queryCache : gmap string (list nat) }.

Definition with_entityObj (st : State) (h : gmap ref Entity.t) : State :=
  mkState (nextId st) h (systemObj st) (entities st) (components st)
          (systems st) (queryCache st).
Definition with_systemObj (st : State) (h : gmap ref System.t) : State :=
  mkState (nextId st) (entityObj st) h (entities st) (components st)
          (systems st) (queryCache st).
Definition with_entities (st : State) (m : list (nat * ref)) : State :=
  mkState (nextId st) (entityObj st) (systemObj st) m (components st)
          (systems st) (queryCache st).
Definition with_components (st : State)
    (m : list (nat * list (string * Component.t))) : State :=
  mkState (nextId st) (entityObj st) (systemObj st) (entities st) m
          (systems st) (queryCache st).
Definition with_systems (st : State) (l : list ref) : State :=
  mkState (nextId st) (entityObj st) (systemObj st) (entities st)
          (components st) l (queryCache st).
Definition with_queryCache (st : State) (c : gmap string (list nat)) : State :=
  mkState (nextId st) (entityObj st) (systemObj st) (entities st)
          (components st) (systems st) c.

(** ** Entity.ts *)

(** [new Entity(name)]: the object is stored under its own id. *)
Definition Entity_new (st : State) (name : option string) : ref * State :=
  let i := nextId st in
  let e := Entity.mk i (default ("Entity_" +:+ pretty i) name) true in
  (i, mkState (S i) (<[i := e]> (entityObj st)) (systemObj st) (entities st)
              (components st) (systems st) (queryCache st)).

Definition Entity_deactivate (st : State) (e : ref) : State :=
  with_entityObj st (<[e := Entity.set_active false (entityObj st !!! e)]> (entityObj st)).

Definition Entity_activate (st : State) (e : ref) : State :=
  with_entityObj st (<[e := Entity.set_active true (entityObj st !!! e)]> (entityObj st)).

(** ** System.ts *)

Definition System_enable (st : State) (s : ref) : State :=
  with_systemObj st (<[s := System.set_enabled true (systemObj st !!! s)]> (systemObj st)).

Definition System_disable (st : State) (s : ref) : State :=
  with_systemObj st (<[s := System.set_enabled false (systemObj st !!! s)]> (systemObj st)).

(* ================================================================== *)
(** * World.ts *)
(* ================================================================== *)

Module World.

(** [new World()], in a fresh object store. *)
Definition new : State := mkState 0 ∅ ∅ [] [] [] ∅.

Definition clearQueryCache (st : State) : State :=
  with_queryCache st ∅.

Definition addEntity (st : State) (entity : ref) : State :=
  let i := Entity.id (entityObj st !!! entity) in
  let st := with_entities st (JsMap.set (entities st) i entity) in
  with_components st (JsMap.set (components st) i []).

(** [componentMap.forEach(c => c.onDetach?.())] *)
Definition detachAll (componentMap : list (string * Component.t)) : list Event :=
  flat_map (λ kc, if Component.onDetach kc.2 then [OnDetach kc.2] else [])
           componentMap.

Definition removeEntity (st : State) (entityId : nat) : State * list Event :=
  let evs :=
    match JsMap.get (components st) entityId with
    | Some componentMap => detachAll componentMap
    | None => []
    end in
  let st := with_entities st (JsMap.delete (entities st) entityId) in
  let st := with_components st (JsMap.delete (components st) entityId) in
  (clearQueryCache st, evs).

(** The result tells whether the call threw, the state it left and the
    hooks it called. *)
Definition addComponent (st : State) (entityId : nat) (component : Component.t)
    : option Error * State * list Event :=
  match JsMap.get (components st) entityId with
  | None => (Some (EntityNotFound entityId), st, [])
  | Some componentMap =>
      let componentName := Component.className component in
      let componentMap := JsMap.set componentMap componentName component in
      let st := with_components st (JsMap.set (components st) entityId componentMap) in
      (None, clearQueryCache st,
       if Component.onAttach component then [OnAttach component] else [])
  end.

Definition removeComponent (st : State) (entityId : nat)
    (componentClass : ComponentClass.t) : State * list Event :=
  match JsMap.get (components st) entityId with
  | None => (st, [])
  | Some componentMap =>
      let componentName := ComponentClass.name componentClass in
      match JsMap.get componentMap componentName with
      | Some component =>
          let componentMap := JsMap.delete componentMap componentName in
          let st := with_components st (JsMap.set (components st) entityId componentMap) in
          (clearQueryCache st,
           if Component.onDetach component then [OnDetach component] else [])
      | None => (st, [])
      end
  end.

Definition getComponent (st : State) (entityId : nat)
    (componentClass : ComponentClass.t) : option Component.t :=
  match JsMap.get (components st) entityId with
  | None => None
  | Some componentMap => JsMap.get componentMap (ComponentClass.name componentClass)
  end.

Definition hasComponent (st : State) (entityId : nat)
    (componentClass : ComponentClass.t) : bool :=
  match JsMap.get (components st) entityId with
  | Some componentMap => JsMap.has componentMap (ComponentClass.name componentClass)
  | None => false
  end.

(** [componentClasses.map(c => c.name).sort().join(',')] *)
Definition cacheKey (componentClasses : list ComponentClass.t) : string :=
  String.concat "," (JsArray.sort String.leb (ComponentClass.name <$> componentClasses)).

(** The [entities.forEach] loop of [query]: the membership computed from
    the current stores. *)
Definition matching (st : State) (componentClasses : list ComponentClass.t)
    : list nat :=
  foldl (λ result kv,
           let entity := entityObj st !!! kv.2 in
           if negb (Entity.active entity) then result
           else if forallb (hasComponent st (Entity.id entity)) componentClasses
                then JsSet.add result (Entity.id entity)
                else result)
        [] (entities st).

Definition query (st : State) (componentClasses : list ComponentClass.t)
    : list nat * State :=
  let key := cacheKey componentClasses in
  match queryCache st !! key with
  | Some result => (result, st)
  | None =>
      let result := matching st componentClasses in
      (result, with_queryCache st (<[key := result]> (queryCache st)))
  end.

Definition getEntity (st : State) (entityId : nat) : option ref :=
  JsMap.get (entities st) entityId.

(** The comparator [(a, b) => a.priority - b.priority] is read as
    "[a] may stay before [b]" when it is not positive. *)
Definition byPriority (st : State) (a b : ref) : bool :=
  (System.priority (systemObj st !!! a) - System.priority (systemObj st !!! b) <=? 0)%Z.

Definition addSystem (st : State) (system : ref) : State * list Event :=
  let l := JsArray.sort (byPriority st) (systems st ++ [system]) in
  (with_systems st l,
   if System.onInit (systemObj st !!! system) then [OnInit system] else []).

Definition removeSystem (st : State) (system : ref) : State * list Event :=
  match JsArray.indexOf (systems st) system with
  | Some index =>
      (with_systems st (JsArray.splice1 (systems st) index),
       if System.onDestroy (systemObj st !!! system) then [OnDestroy system] else [])
  | None => (st, [])
  end.

Definition getEntityCount (st : State) : nat := JsMap.size (entities st).

Definition getSystems (st : State) : list ref := systems st.

(** *** clear

    The six statements of [clear], one after the other. *)
Definition clear_destroySystems (st : State) : State * list Event :=
  (st, flat_map (λ s, if System.onDestroy (systemObj st !!! s)
                      then [OnDestroy s] else []) (systems st)).
Definition clear_resetSystems (st : State) : State * list Event :=
  (with_systems st [], []).
Definition clear_detachComponents (st : State) : State * list Event :=
  (st, flat_map (λ kv, detachAll kv.2) (components st)).
Definition clear_entities (st : State) : State * list Event :=
  (with_entities st [], []).
Definition clear_components (st : State) : State * list Event :=
  (with_components st [], []).
Definition clear_queryCache (st : State) : State * list Event :=
  (clearQueryCache st, []).

Definition clear_body : list (State → State * list Event) :=
  [ clear_destroySystems; clear_resetSystems; clear_detachComponents;
    clear_entities; clear_components; clear_queryCache ].

(** Run statements in sequence, concatenating what they emit. *)
Definition run (stmts : list (State → State * list Event)) (st : State)
    : State * list Event :=
  foldl (λ acc stmt, let '(st', evs) := stmt acc.1 in (st', acc.2 ++ evs))
        (st, []) stmts.

Definition clear (st : State) : State * list Event := run clear_body st.

(** *** update

    [for (const system of this.systems)] takes the array that
    [this.systems] holds when the loop starts and walks that array by
    position: each round reads the element at the current index of the
    array as it is then, and the loop ends when the index reaches the
    array's current length.  [addSystem] and [removeSystem] change the
    array in place, so the loop sees what they do.  [clear] binds
    [this.systems] to a new array and leaves the old one as it is: the
    loop then walks on through the old array, which no method of the
    World reaches any more.

    The code of a system's [update] is collaborator code.  It is given by
    the calls it makes on the World and on the objects of the store, as a
    function of the state it finds; a throw of [addComponent] is taken to
    be caught by the body.  The loop need not end when bodies keep adding
    systems, hence the fuel; [None] means the fuel ran out. *)
Inductive Action :=
  (* on the objects of the store: [new Entity(name)], the flag methods
     of entities and systems, and the construction of a system object or
     an assignment to its public fields *)
  | NewEntity (name : option string)
  | Activate (e : ref)
  | Deactivate (e : ref)
  | Enable (s : ref)
  | Disable (s : ref)
  | StoreSystem (s : ref) (object : System.t)
  (* the public methods of the World *)
  | AddEntity (e : ref)
  | RemoveEntity (entityId : nat)
  | AddComponent (entityId : nat) (component : Component.t)
  | RemoveComponent (entityId : nat) (componentClass : ComponentClass.t)
  | Query (componentClasses : list ComponentClass.t)
  | AddSystem (s : ref)
  | RemoveSystem (s : ref)
  | Clear.

(** The World during a frame, and the array the loop walks once
    [this.systems] no longer is that array. *)
Record Frame := mkFrame {
  world : State;
  oldSystems : option (list ref) }.

(** The array the loop walks. *)
Definition walked (f : Frame) : list ref :=
  match oldSystems f with
  | Some l => l
  | None => systems (world f)
  end.

Definition perform (f : Frame) (a : Action) : Frame * list Event :=
  let st := world f in
  let on_world (r : State * list Event) := (mkFrame r.1 (oldSystems f), r.2) in
  match a with
  | NewEntity name => on_world ((Entity_new st name).2, [])
  | Activate e => on_world (Entity_activate st e, [])
  | Deactivate e => on_world (Entity_deactivate st e, [])
  | Enable s => on_world (System_enable st s, [])
  | Disable s => on_world (System_disable st s, [])
  | StoreSystem s object => on_world (with_systemObj st (<[s := object]> (systemObj st)), [])
  | AddEntity e => on_world (addEntity st e, [])
  | RemoveEntity i => on_world (removeEntity st i)
  | AddComponent i c =>
      let '(_, st', evs) := addComponent st i c in on_world (st', evs)
  | RemoveComponent i cls => on_world (removeComponent st i cls)
  | Query cls => on_world ((query st cls).2, [])
  | AddSystem s => on_world (addSystem st s)
  | RemoveSystem s => on_world (removeSystem st s)
  | Clear =>
      let '(st', evs) := clear st in (mkFrame st' (Some (walked f)), evs)
  end.

Fixpoint performs (f : Frame) (actions : list Action) : Frame * list Event :=
  match actions with
  | [] => (f, [])
  | a :: actions =>
      let '(f1, evs1) := perform f a in
      let '(f2, evs2) := performs f1 actions in
      (f2, evs1 ++ evs2)
  end.

Section update.
Variable body : ref → Q → Q → State → list Action.

Fixpoint update_from (fuel index : nat) (delta elapsed : Q) (f : Frame)
    : option (Frame * list Event) :=
  match fuel with
  | 0 => None
  | S fuel =>
      match walked f !! index with
      | None => Some (f, [])
      | Some system =>
          if System.enabled (systemObj (world f) !!! system) then
            let '(f', evs) := performs f (body system delta elapsed (world f)) in
            match update_from fuel (S index) delta elapsed f' with
            | Some (f'', evs') =>
                Some (f'', Update system delta elapsed :: evs ++ evs')
            | None => None
            end
          else update_from fuel (S index) delta elapsed f
      end
  end.

(** [update(delta, elapsed)]: the frame it leaves (the World, and the
    array walked if it is no longer the World's) and the calls made. *)
Definition update (fuel : nat) (delta elapsed : Q) (st : State)
    : option (Frame * list Event) :=
  update_from fuel 0 delta elapsed (mkFrame st None).
End update.

End World.

(* ================================================================== *)
(** * SceneManager.ts *)
(* ================================================================== *)

Module Stage.
(** A stage object: its [name] field and its identity. *)
Record t := mk { name : string; tag : nat }.
End Stage.

Module SceneManager.

(** Calls into the stages and the console. *)
Inductive Event :=
  | Log (msg : string)
  | StageInit (stage : Stage.t) (engine : ref)
  | StageUpdate (stage : Stage.t) (delta elapsed : Q) (engine : ref)
  | StageDestroy (stage : Stage.t) (engine : ref).

Record t := mk {
  engine : ref;
  currentStage : option Stage.t;
  stages : gmap string Stage.t }.

Definition new (engine : ref) : t := mk engine None ∅.

Definition registerStage (sm : t) (name : string) (stage : Stage.t) : t :=
  mk (engine sm) (currentStage sm) (<[name := stage]> (stages sm)).

Definition switchTo (sm : t) (name : string)
    : option Error * t * list Event :=
  match stages sm !! name with
  | None => (Some (StageNotFound name), sm, [])
  | Some nextStage =>
      let exiting :=
        match currentStage sm with
        | Some cur =>
            [Log ("Exiting stage: " +:+ Stage.name cur);
             StageDestroy cur (engine sm)]
        | None => []
        end in
      (None, mk (engine sm) (Some nextStage) (stages sm),
       exiting ++ [Log ("Entering stage: " +:+ Stage.name nextStage);
                   StageInit nextStage (engine sm)])
  end.

Definition update (sm : t) (delta elapsed : Q) : list Event :=
  match currentStage sm with
  | Some cur => [StageUpdate cur delta elapsed (engine sm)]
  | None => []
  end.

Definition getCurrentStage (sm : t) : option Stage.t := currentStage sm.

Definition getStage (sm : t) (name : string) : option Stage.t :=
  stages sm !! name.

Definition hasStage (sm : t) (name : string) : bool :=
  bool_decide (is_Some (stages sm !! name)).

Definition dispose (sm : t) : t * list Event :=
  match currentStage sm with
  | Some cur => (mk (engine sm) None ∅, [StageDestroy cur (engine sm)])
  | None => (mk (engine sm) None ∅, [])
  end.

End SceneManager.

(* ================================================================== *)
(** * Time.ts *)
(* ================================================================== *)

Module Time.

(** Calls to the console, to the host's frame primitives and to the
    update callback. *)
Inductive Event :=
  | Warn (msg : string)
  | RequestAnimationFrame (handle : nat)
  | CancelAnimationFrame (handle : nat)
  | Callback (callback : ref) (delta elapsed : float).

(** The host hands out a fresh handle at each [requestAnimationFrame]. *)
Record Host := mkHost { nextHandle : nat }.

Definition requestAnimationFrame (h : Host) : nat * Host :=
  (nextHandle h, mkHost (S (nextHandle h))).

Record t := mk {
  startTime : float;
  lastFrameTime : float;
  _delta : float;
  _elapsed : float;
  _frameCount : Z;
  _targetFPS : float;
  minFrameTime : float;
  _fps : float;
  fpsAccumulator : float;
  fpsFrameCount : Z;
  rafId : option nat;
  updateCallback : option ref;
  _isRunning : bool }.

(** A counter as a number: the binary64 value nearest to it, which is
    the counter itself below [2^53]. *)
Definition of_count (n : Z) : float :=
  SF2Prim (binary_normalize prec emax n 0 false).

(** [Math.round]: the nearest integer, halves upwards; a number without
    fractional part, an infinity or [NaN] is returned as it is, and the
    sign of a zero result is that of the argument. *)
Definition Math_round (x : float) : float :=
  match Prim2SF x with
  | S754_finite s m e =>
      if (0 <=? e)%Z then x
      else
        let n := Z.shiftr (2 * cond_Zopp s (Zpos m) + 2 ^ (- e)) (1 - e) in
        SF2Prim (binary_normalize prec emax n 0 s)
  | _ => x
  end.

(** [fps > 0 ? 1000 / fps : 0] *)
Definition frameInterval (fps : float) : float :=
  if PrimFloat.ltb 0 fps then (1000 / fps)%float else 0%float.

(** [new Time(targetFPS)], [now] being what [performance.now()] returns. *)
Definition new (now : float) (targetFPS : float) : t :=
  mk now now 0 0 0 targetFPS (frameInterval targetFPS) 0 0 0 None None false.

Definition with_rafId (t0 : t) (r : option nat) : t :=
  mk (startTime t0) (lastFrameTime t0) (_delta t0) (_elapsed t0)
     (_frameCount t0) (_targetFPS t0) (minFrameTime t0) (_fps t0)
     (fpsAccumulator t0) (fpsFrameCount t0) r (updateCallback t0)
     (_isRunning t0).

Definition tick (t0 : t) (h : Host) (currentTime : float)
    : t * Host * list Event :=
  if negb (_isRunning t0) then (t0, h, [])
  else
    let deltaMs := (currentTime - lastFrameTime t0)%float in
    if PrimFloat.ltb 0 (_targetFPS t0) && PrimFloat.ltb deltaMs (minFrameTime t0) then
      let '(handle, h') := requestAnimationFrame h in
      (with_rafId t0 (Some handle), h', [RequestAnimationFrame handle])
    else
      let delta := (deltaMs / 1000)%float in
      let elapsed := ((currentTime - startTime t0) / 1000)%float in
      let frameCount := (_frameCount t0 + 1)%Z in
      let acc := (fpsAccumulator t0 + deltaMs)%float in
      let frames := (fpsFrameCount t0 + 1)%Z in
      let '(fps, acc, frames) :=
        if PrimFloat.leb 1000 acc
        then (Math_round (of_count frames * 1000 / acc)%float, 0%float, 0%Z)
        else (_fps t0, acc, frames) in
      let called :=
        match updateCallback t0 with
        | Some cb => [Callback cb delta elapsed]
        | None => []
        end in
      let '(handle, h') := requestAnimationFrame h in
      (mk (startTime t0) currentTime delta elapsed frameCount
          (_targetFPS t0) (minFrameTime t0) fps acc frames
          (Some handle) (updateCallback t0) (_isRunning t0),
       h', called ++ [RequestAnimationFrame handle]).

(** [start(callback)], [now] being what [performance.now()] returns. *)
Definition start (t0 : t) (h : Host) (now : float) (callback : ref)
    : t * Host * list Event :=
  if _isRunning t0 then (t0, h, [Warn "Time loop is already running"])
  else
    let t1 :=
      mk (startTime t0) now (_delta t0) (_elapsed t0) (_frameCount t0)
         (_targetFPS t0) (minFrameTime t0) (_fps t0) (fpsAccumulator t0)
         (fpsFrameCount t0) (rafId t0) (Some callback) true in
    tick t1 h (lastFrameTime t1).

Definition stop (t0 : t) : t * list Event :=
  let '(r, evs) :=
    match rafId t0 with
    | Some handle => (None, [CancelAnimationFrame handle])
    | None => (rafId t0, [])
    end in
  (mk (startTime t0) (lastFrameTime t0) (_delta t0) (_elapsed t0)
      (_frameCount t0) (_targetFPS t0) (minFrameTime t0) (_fps t0)
      (fpsAccumulator t0) (fpsFrameCount t0) r (updateCallback t0) false,
   evs).

Definition delta (t0 : t) : float := _delta t0.
Definition elapsed (t0 : t) : float := _elapsed t0.
Definition frameCount (t0 : t) : Z := _frameCount t0.
Definition fps (t0 : t) : float := _fps t0.
Definition targetFPS (t0 : t) : float := _targetFPS t0.
Definition isRunning (t0 : t) : bool := _isRunning t0.

(** The [targetFPS] setter. *)
Definition set_targetFPS (t0 : t) (fps : float) : t :=
  mk (startTime t0) (lastFrameTime t0) (_delta t0) (_elapsed t0)
     (_frameCount t0) fps (frameInterval fps) (_fps t0)
     (fpsAccumulator t0) (fpsFrameCount t0) (rafId t0) (updateCallback t0)
     (_isRunning t0).

Definition reset (t0 : t) (now : float) : t :=
  mk now now 0 0 0 (_targetFPS t0) (minFrameTime t0) 0 0 0
     (rafId t0) (updateCallback t0) (_isRunning t0).

End Time.

(* ================================================================== *)
(** * Scenarios and auxiliary notions used in the statements *)
(* ================================================================== *)

(** ** A scenario: re-registering an entity

<<
    const e = new Entity();  world.addEntity(e);
    world.addComponent(e.id, new PositionComponent(e.id));
    world.query(PositionComponent);      // {0}, now cached
    world.addEntity(e);                  // component map re-initialised
    world.query(PositionComponent);      // ?
>> *)
Definition PositionComponent : ComponentClass.t :=
  ComponentClass.mk "PositionComponent".

Definition position_of (entityId tag : nat) : Component.t :=
  Component.mk entityId "PositionComponent" false false tag.

Definition reRegister_before : State :=
  let '(e, st) := Entity_new World.new None in
  let st := World.addEntity st e in
  let st := (World.addComponent st e (position_of e 1)).1.2 in
  let st := (World.query st [PositionComponent]).2 in
  World.addEntity st e.

(** Calls that neither add nor remove an entity or a component: flag
    changes on entities and systems, queries, and changes of the system
    list. *)
Inductive Call :=
  | Activate (e : ref)
  | Deactivate (e : ref)
  | Query (componentClasses : list ComponentClass.t)
  | AddSystem (s : ref)
  | RemoveSystem (s : ref)
  | Enable (s : ref)
  | Disable (s : ref).

Definition call (st : State) (c : Call) : State :=
  match c with
  | Activate e => Entity_activate st e
  | Deactivate e => Entity_deactivate st e
  | Query cls => (World.query st cls).2
  | AddSystem s => (World.addSystem st s).1
  | RemoveSystem s => (World.removeSystem st s).1
  | Enable s => System_enable st s
  | Disable s => System_disable st s
  end.

(** An entity is registered when the World's entity map has its id. *)
Definition registered (st : State) (i : nat) : bool :=
  JsMap.has (entities st) i.

(** The entity map and the component store have the same keys, each once. *)
Definition store_consistent (st : State) : Prop :=
  NoDup (JsMap.keys (entities st))
  ∧ NoDup (JsMap.keys (components st))
  ∧ ∀ i, JsMap.has (components st) i = JsMap.has (entities st) i.

(** The class of a component instance. *)
Definition class_of (c : Component.t) : ComponentClass.t :=
  ComponentClass.mk (Component.className c).

(** The states reached after each statement of a sequence. *)
Fixpoint states_through (stmts : list (State → State * list Event))
    (st : State) : list State :=
  match stmts with
  | [] => []
  | stmt :: stmts => (stmt st).1 :: states_through stmts (stmt st).1
  end.

(** The [onDestroy] calls of [clear], and its [onDetach] calls. *)
Definition destroy_calls (st : State) : list Event :=
  flat_map (λ s, if System.onDestroy (systemObj st !!! s)
                 then [OnDestroy s] else []) (systems st).
Definition detach_calls (st : State) : list Event :=
  flat_map (λ kv, World.detachAll kv.2) (components st).

(** A world with one entity carrying one component and one system. *)
Definition populated : State :=
  let '(e, st) := Entity_new World.new None in
  let st := World.addEntity st e in
  let st := (World.addComponent st e (Component.mk e "PositionComponent" true true 1)).1.2 in
  let st := with_systemObj st (<[7 := System.mk true 0 true true]> (systemObj st)) in
  (World.addSystem st 7).1.

(** The stage hooks among the events of the stage machine. *)
Definition stage_hooks (evs : list SceneManager.Event) : list SceneManager.Event :=
  List.filter (λ ev, match ev with SceneManager.Log _ => false | _ => true end) evs.

(** The order of [Array.prototype.sort()] without a comparator, on names. *)
Definition name_le (a b : string) : Prop := String.leb a b = true.

Definition K1 : ComponentClass.t := ComponentClass.mk "MeshComponent".
Definition K2 : ComponentClass.t := ComponentClass.mk "PositionComponent".

(** ** Notions for the scheduler *)

(** Where push-then-sort puts a new element of a sorted array: behind
    every element that the comparator does not put after it. *)
Fixpoint insert_last {A} (le : A → A → bool) (x : A) (l : list A) : list A :=
  match l with
  | [] => [x]
  | y :: l' => if negb (le y x) then x :: y :: l' else y :: insert_last le x l'
  end.

(** The comparator of [addSystem], from a priority function. *)
Definition le_key {A} (key : A → Z) (a b : A) : bool :=
  (key a - key b <=? 0)%Z.

(** A sequence of [addSystem] calls. *)
Definition addSystems (st : State) (ss : list ref) : State :=
  foldl (λ st s, (World.addSystem st s).1) st ss.

(** The systems whose [update] was called, read off the calls made, in
    call order. *)
Definition update_calls (evs : list Event) : list ref :=
  flat_map (λ ev, match ev with Update s _ _ => [s] | _ => [] end) evs.

(** The calls that are hooks of components and systems: all but
    [update]. *)
Definition is_hook (ev : Event) : Prop :=
  match ev with Update _ _ _ => False | _ => True end.

(** Updating the systems of a fixed list one after the other, each on
    the World as the one before left it. *)
Fixpoint update_each (body : ref → Q → Q → State → list World.Action)
    (delta elapsed : Q) (ss : list ref) (f : World.Frame)
    : World.Frame * list Event :=
  match ss with
  | [] => (f, [])
  | s :: ss =>
      let '(f1, evs1) := World.performs f (body s delta elapsed (World.world f)) in
      let '(f2, evs2) := update_each body delta elapsed ss f1 in
      (f2, Update s delta elapsed :: evs1 ++ evs2)
  end.

(** The [enabled] flag of a system, as the loop reads it. *)
Definition enabled (f : World.Frame) (s : ref) : bool :=
  System.enabled (systemObj (World.world f) !!! s).

(** A body leaves the system list and the system objects as they are:
    the array walked holds what it held, [this.systems] is bound as it
    was, and no system object is changed. *)
Definition quiet (body : ref → Q → Q → State → list World.Action) : Prop :=
  ∀ s d e f,
    let f' := (World.performs f (body s d e (World.world f))).1 in
    World.walked f' = World.walked f
    ∧ World.oldSystems f' = World.oldSystems f
    ∧ systemObj (World.world f') = systemObj (World.world f).


(** A system body that does nothing to the World. *)
Definition idle : ref → Q → Q → State → list World.Action :=
  λ _ _ _ _, [].

(** Systems 0, 1, 2, 3 with priorities 5, -100, 0, 5, added in that order. *)
Definition four_systems_store : State :=
  with_systemObj World.new
    (list_to_map [ (0, System.mk true 5 false false);
                   (1, System.mk true (-100) false false);
                   (2, System.mk true 0 false false);
                   (3, System.mk true 5 false false) ]).

(** Systems 10, 11, 12 of priority 0 and 13 of priority 9, all enabled;
    14 has priority -1. *)
Definition frame_store : State :=
  with_systemObj World.new
    (list_to_map [ (10, System.mk true 0 false false);
                   (11, System.mk true 0 false false);
                   (12, System.mk true 0 false false);
                   (13, System.mk true 9 false false);
                   (14, System.mk true (-1) false false) ]).

Definition three_systems : State := addSystems frame_store [10; 11; 12].





(** ** Notions for the frame clock *)

(** [minFrameTime] is what the constructor and the [targetFPS] setter
    derive from the target frame rate. *)
Definition interval_consistent (t : Time.t) : Prop :=
  Time.minFrameTime t = Time.frameInterval (Time._targetFPS t).

(** [Number.isFinite]: neither an infinity nor [NaN]. *)
Definition isFinite (x : float) : bool :=
  match Prim2SF x with
  | S754_zero _ | S754_finite _ _ _ => true
  | _ => false
  end.

(** The real number that a finite binary64 value stands for, from its
    sign, mantissa and exponent. *)
Definition SFval (s : bool) (m : positive) (e : Z) : Q :=
  inject_Z (cond_Zopp s (Zpos m)) * 2 ^ e.

Definition value (x : float) : Q :=
  match Prim2SF x with
  | S754_finite s m e => SFval s m e
  | _ => 0
  end.

(** The timing epsilon of the frame cap, relative to [1 / targetFPS]: the
    rounding of the two divisions, [1000 / targetFPS] and
    [deltaMs / 1000]. *)
Definition tolerance : Q := 1 # 2 ^ 50.

(** A clock built at time 0 with the default 60 frames per second, and
    one built at time 0 without a cap. *)
Definition clock60 : Time.t := Time.new 0 60.
Definition clock0 : Time.t := Time.new 0 0.
Definition host0 : Time.Host := Time.mkHost 0.

(** The capped clock started at 5000 ms with callback 1. *)
Definition clock60_started : Time.t * Time.Host :=
  (Time.start clock60 host0 5000 1).1.

(** A clock with a cap of 3 frames per second, its last frame at 0 ms. *)
Definition clock3 : Time.t * Time.Host :=
  (Time.start (Time.new 0 3) host0 0 1).1.


(* ================================================================== *)
(** * Further notions: the stores of the World *)
(* ================================================================== *)

(** Every component map holds each class name once, and each component
    under the name of its own class. *)
Definition components_keyed (st : State) : Prop :=
  Forall (λ im : nat * list (string * Component.t),
            NoDup (JsMap.keys im.2)
            ∧ Forall (λ kc, Component.className kc.2 = kc.1) im.2)
         (components st).

(** Entity objects carry the id under which they are stored, ids below
    [Entity.nextId]; the entity map holds existing objects under their
    own id. *)
Definition entities_keyed (st : State) : Prop :=
  (∀ r e, entityObj st !! r = Some e → Entity.id e = r ∧ r < nextId st)
  ∧ Forall (λ kr : nat * ref, kr.1 = kr.2 ∧ is_Some (entityObj st !! kr.2))
           (entities st).

(** The states a program reaches from a new World through the
    constructors and methods of [Entity] and [World]; methods are called
    on objects that exist.  System objects are made and changed outside
    the World. *)
Inductive reachable : State → Prop :=
  | reach_new : reachable World.new
  | reach_Entity_new st name :
      reachable st → reachable (Entity_new st name).2
  | reach_activate st e :
      reachable st → is_Some (entityObj st !! e) →
      reachable (Entity_activate st e)
  | reach_deactivate st e :
      reachable st → is_Some (entityObj st !! e) →
      reachable (Entity_deactivate st e)
  | reach_systemObj st h :
      reachable st → reachable (with_systemObj st h)
  | reach_addEntity st e :
      reachable st → is_Some (entityObj st !! e) →
      reachable (World.addEntity st e)
  | reach_removeEntity st i :
      reachable st → reachable (World.removeEntity st i).1
  | reach_addComponent st i c :
      reachable st → reachable (World.addComponent st i c).1.2
  | reach_removeComponent st i cls :
      reachable st → reachable (World.removeComponent st i cls).1
  | reach_query st cls :
      reachable st → reachable (World.query st cls).2
  | reach_addSystem st s :
      reachable st → reachable (World.addSystem st s).1
  | reach_removeSystem st s :
      reachable st → reachable (World.removeSystem st s).1
  | reach_clear st :
      reachable st → reachable (World.clear st).1.

(** The ids of the entities that are registered, active and have every
    listed kind. *)
Definition satisfies (st : State) (cls : list ComponentClass.t) (i : nat) : Prop :=
  registered st i = true
  ∧ Entity.active (entityObj st !!! i) = true
  ∧ ∀ c, c ∈ cls → World.hasComponent st i c = true.

(** A world built step by step: entity 0 with a mesh and a position,
    entity 1, named, with a position only. *)
Definition demo0 : State := (Entity_new World.new None).2.
Definition demo1 : State := (Entity_new demo0 (Some "player")).2.
Definition demo2 : State := World.addEntity demo1 0.
Definition demo3 : State := World.addEntity demo2 1.
Definition demo4 : State :=
  (World.addComponent demo3 0 (Component.mk 0 "MeshComponent" false true 1)).1.2.
Definition demo5 : State :=
  (World.addComponent demo4 0 (Component.mk 0 "PositionComponent" false false 2)).1.2.
Definition two_entities : State :=
  (World.addComponent demo5 1 (Component.mk 1 "PositionComponent" true true 3)).1.2.

(* ================================================================== *)
(** * Further notions: entities and the frame clock *)
(* ================================================================== *)

(** [names.map(name => new Entity(name))]: entities made one after the
    other; [None] stands for the omitted name. *)
Fixpoint Entity_new_many (st : State) (names : list (option string))
    : list ref * State :=
  match names with
  | [] => ([], st)
  | name :: names =>
      let '(r, st1) := Entity_new st name in
      let '(rs, st2) := Entity_new_many st1 names in
      (r :: rs, st2)
  end.

(** The host calls [tick] at the given times, one after the other. *)
Fixpoint ticks (t : Time.t) (h : Time.Host) (nows : list float)
    : Time.t * Time.Host * list Time.Event :=
  match nows with
  | [] => (t, h, [])
  | now :: nows =>
      let '(t1, h1, evs1) := Time.tick t h now in
      let '(t2, h2, evs2) := ticks t1 h1 nows in
      (t2, h2, evs1 ++ evs2)
  end.

Definition is_callback (ev : Time.Event) : bool :=
  match ev with Time.Callback _ _ _ => true | _ => false end.
Definition is_request (ev : Time.Event) : bool :=
  match ev with Time.RequestAnimationFrame _ => true | _ => false end.

(** Four ticks, 10 ms apart, after the start at 5000 ms. *)
Definition tick_times : list float :=
  [5010%float; 5020%float; 5030%float; 5040%float].

(* ================================================================== *)
(** * Further notions: the stage machine *)
(* ================================================================== *)

Global Instance Stage_eq_dec : EqDecision Stage.t.
Proof. solve_decision. Defined.

(** What a program does with a scene manager. *)
Inductive SceneOp :=
  | RegisterStage (name : string) (stage : Stage.t)
  | SwitchTo (name : string)
  | SceneUpdate (delta elapsed : Q)
  | Dispose.

Definition scene_step (sm : SceneManager.t) (op : SceneOp)
    : SceneManager.t * list SceneManager.Event :=
  match op with
  | RegisterStage name stage => (SceneManager.registerStage sm name stage, [])
  | SwitchTo name =>
      let '(_, sm', evs) := SceneManager.switchTo sm name in (sm', evs)
  | SceneUpdate delta elapsed => (sm, SceneManager.update sm delta elapsed)
  | Dispose => SceneManager.dispose sm
  end.

Fixpoint scene_run (sm : SceneManager.t) (ops : list SceneOp)
    : SceneManager.t * list SceneManager.Event :=
  match ops with
  | [] => (sm, [])
  | op :: ops =>
      let '(sm1, evs1) := scene_step sm op in
      let '(sm2, evs2) := scene_run sm1 ops in
      (sm2, evs1 ++ evs2)
  end.

(** The life cycle of stages, read along a trace of calls: [onInit] only
    when no stage is live, [onUpdate] and [onDestroy] only on the live
    stage, always with the same engine.  The result is the stage left
    live, or [None] if the trace breaks the rule. *)
Fixpoint lifecycle (engine : ref) (live : option Stage.t)
    (evs : list SceneManager.Event) : option (option Stage.t) :=
  match evs with
  | [] => Some live
  | SceneManager.Log _ :: evs => lifecycle engine live evs
  | SceneManager.StageInit s e :: evs =>
      match live with
      | None => if decide (e = engine) then lifecycle engine (Some s) evs else None
      | Some _ => None
      end
  | SceneManager.StageUpdate s _ _ e :: evs =>
      if decide (live = Some s ∧ e = engine) then lifecycle engine live evs else None
  | SceneManager.StageDestroy s e :: evs =>
      if decide (live = Some s ∧ e = engine) then lifecycle engine None evs else None
  end.

(* ================================================================== *)
(** * RenderSystem.ts *)
(* ================================================================== *)

Module RenderSystem.

(** [meshComp.mesh.position.copy(posComp.position)] *)
Inductive Event :=
  | CopyPosition (meshComp posComp : Component.t).

Definition MeshComponent : ComponentClass.t := ComponentClass.mk "MeshComponent".

(** [new RenderSystem(engine)] is [super(engine.world, -100)]; the class
    has no [onInit] and no [onDestroy]. *)
Definition new : System.t := System.mk true (-100) false false.

Definition update (st : State) : State * list Event :=
  let '(entities, st) := World.query st [MeshComponent; PositionComponent] in
  (st,
   flat_map (λ entityId,
               match World.getComponent st entityId MeshComponent,
                     World.getComponent st entityId PositionComponent with
               | Some meshComp, Some posComp => [CopyPosition meshComp posComp]
               | _, _ => []
               end)
            entities).

End RenderSystem.

(* ================================================================== *)
(** * Observer.ts *)
(* ================================================================== *)

Module Observer.

(** A callback is a function of the program, known by its identity, or
    one of the two closures the class makes: the [onceCallback] of
    [once], and the unsubscribe function that [on] returns.  Closures
    carry the identity they got when they were made. *)
Inductive Callback :=
  | Fn (f : ref)
  | OnceCallback (closure : ref) (eventName : string) (callback : Callback)
  | Unsubscribe (closure : ref) (eventName : string) (callback : Callback).

Global Instance Callback_eq_dec : EqDecision Callback.
Proof. solve_decision. Defined.

(** Calls of program functions, and the console. *)
Inductive Event :=
  | Call (f : ref) (data : ref)
  | ConsoleError (eventName : string).

(** [events], and the count of closures made so far. *)
Record t := mk {
  events : list (string * list Callback);
  nextClosure : ref }.

Definition new : t := mk [] 0.

Definition off (o : t) (eventName : string) (callback : Callback) : t :=
  match JsMap.get (events o) eventName with
  | None => o
  | Some callbacks =>
      let callbacks :=
        match JsArray.indexOf callbacks callback with
        | Some index => JsArray.splice1 callbacks index
        | None => callbacks
        end in
      let events1 := JsMap.set (events o) eventName callbacks in
      if decide (length callbacks = 0)
      then mk (JsMap.delete events1 eventName) (nextClosure o)
      else mk events1 (nextClosure o)
  end.

(** [on] returns the unsubscribe closure. *)
Definition on (o : t) (eventName : string) (callback : Callback)
    : Callback * t :=
  let events1 :=
    if JsMap.has (events o) eventName then events o
    else JsMap.set (events o) eventName [] in
  let callbacks := default [] (JsMap.get events1 eventName) in
  (Unsubscribe (nextClosure o) eventName callback,
   mk (JsMap.set events1 eventName (callbacks ++ [callback]))
      (S (nextClosure o))).

Definition once (o : t) (eventName : string) (callback : Callback) : t :=
  let onceCallback := OnceCallback (nextClosure o) eventName callback in
  (on (mk (events o) (S (nextClosure o))) eventName onceCallback).2.

(** [clear(eventName?)]: the test [if (eventName)] fails for a missing
    name and for the empty string alike. *)
Definition clear (o : t) (eventName : option string) : t :=
  match eventName with
  | Some name =>
      if decide (name = "") then mk [] (nextClosure o)
      else mk (JsMap.delete (events o) name) (nextClosure o)
  | None => mk [] (nextClosure o)
  end.

Definition listenerCount (o : t) (eventName : string) : nat :=
  match JsMap.get (events o) eventName with
  | Some callbacks => length callbacks
  | None => 0
  end.

Definition eventNames (o : t) : list string := JsMap.keys (events o).

Section emit.
(** Whether a function of the program throws when it is called. *)
Variable throws : ref → bool.

(** Calling a callback: whether it threw, the observer it leaves, the
    calls made.  A function of the program is taken not to use the
    observer itself: it is called, it throws or not, and the observer is
    as before.  The two closures do what their bodies say. *)
Fixpoint invoke (callback : Callback) (o : t) (data : ref)
    : bool * t * list Event :=
  match callback with
  | Fn f => (throws f, o, [Call f data])
  | OnceCallback c eventName inner =>
      let '(threw, o1, evs) := invoke inner o data in
      if threw then (true, o1, evs)
      else (false, off o1 eventName (OnceCallback c eventName inner), evs)
  | Unsubscribe _ eventName inner => (false, off o eventName inner, [])
  end.

(** [callbacks.forEach(...)]: the indices below the length the array had
    at the start, each taken from the array as it is when its turn
    comes and skipped if the array has become too short.  The array is
    the one stored under [eventName]; once [off] has deleted that entry
    the array is empty. *)
Fixpoint emit_from (n index : nat) (o : t) (eventName : string) (data : ref)
    : t * list Event :=
  match n with
  | 0 => (o, [])
  | S n =>
      match default [] (JsMap.get (events o) eventName) !! index with
      | None => emit_from n (S index) o eventName data
      | Some callback =>
          let '(threw, o1, evs1) := invoke callback o data in
          let '(o2, evs2) := emit_from n (S index) o1 eventName data in
          (o2, evs1 ++ (if threw then [ConsoleError eventName] else []) ++ evs2)
      end
  end.

Definition emit (o : t) (eventName : string) (data : ref) : t * list Event :=
  match JsMap.get (events o) eventName with
  | None => (o, [])
  | Some callbacks => emit_from (length callbacks) 0 o eventName data
  end.
End emit.

End Observer.

(** ** Notions for the observer *)

(** Event names are stored once, and none with an empty listener array. *)
Definition observer_ok (o : Observer.t) : Prop :=
  NoDup (JsMap.keys (Observer.events o))
  ∧ Forall (λ kv : string * list Observer.Callback, kv.2 ≠ []) (Observer.events o).

(** The listeners stored under a name. *)
Definition listeners (o : Observer.t) (eventName : string)
    : list Observer.Callback :=
  default [] (JsMap.get (Observer.events o) eventName).

(** What a program does with an observer. *)
Inductive ObserverOp :=
  | On (eventName : string) (callback : Observer.Callback)
  | Once (eventName : string) (callback : Observer.Callback)
  | Off (eventName : string) (callback : Observer.Callback)
  | Emit (eventName : string) (data : ref)
  | Clear (eventName : option string).

Definition observer_step (throws : ref → bool) (o : Observer.t)
    (op : ObserverOp) : Observer.t :=
  match op with
  | On n cb => (Observer.on o n cb).2
  | Once n cb => Observer.once o n cb
  | Off n cb => Observer.off o n cb
  | Emit n data => (Observer.emit throws o n data).1
  | Clear n => Observer.clear o n
  end.

(** The calls that [emit] makes for listeners that are functions of the
    program: each is called, and an error is logged after each one that
    throws. *)
Definition plain_calls (throws : ref → bool) (eventName : string) (data : ref)
    (fs : list ref) : list Observer.Event :=
  flat_map (λ f, Observer.Call f data
                 :: (if throws f then [Observer.ConsoleError eventName] else []))
           fs.

(** An observer with listeners 1, 2 (which throws) and 3 on ["tap"]. *)
Definition throws2 : ref → bool := λ f, bool_decide (f = 2).
Definition tap_observer : Observer.t :=
  let o := (Observer.on Observer.new "tap" (Observer.Fn 1)).2 in
  let o := (Observer.on o "tap" (Observer.Fn 2)).2 in
  (Observer.on o "tap" (Observer.Fn 3)).2.

(** Listener 5 added with [once] to a new observer, alone, then with
    listeners 1 and 3 added behind it. *)
Definition once_alone : Observer.t :=
  Observer.once Observer.new "load" (Observer.Fn 5).
Definition once_first : Observer.t :=
  let o := (Observer.on once_alone "load" (Observer.Fn 1)).2 in
  (Observer.on o "load" (Observer.Fn 3)).2.
(* ================================================================== *)
(** * Facts about the containers *)
(* ================================================================== *)

Section JsMap_facts.
Context {K V : Type} `{EqDecision K}.
Implicit Types (m : list (K * V)) (k : K) (v : V).

Lemma JsMap_get_set_eq m k v : JsMap.get (JsMap.set m k v) k = Some v.
Proof.
  induction m as [|[k' v'] m IH]; simpl.
  - by rewrite decide_True.
  - destruct (decide (k = k')) as [->|Hne]; simpl.
    + by rewrite decide_True.
    + by rewrite decide_False.
Qed.

Lemma JsMap_get_set_ne m k k' v :
  k ≠ k' → JsMap.get (JsMap.set m k v) k' = JsMap.get m k'.
Proof.
  intros Hne. induction m as [|[k0 v0] m IH]; simpl.
  - by rewrite decide_False.
  - destruct (decide (k = k0)) as [->|Hk]; simpl.
    + by rewrite !decide_False.
    + destruct (decide (k' = k0)); auto.
Qed.

Lemma JsMap_get_None m k : JsMap.get m k = None ↔ k ∉ JsMap.keys m.
Proof.
  unfold JsMap.keys. induction m as [|[k' v'] m IH]; simpl.
  - split; [intros _; apply not_elem_of_nil | done].
  - rewrite not_elem_of_cons. destruct (decide (k = k')) as [->|Hne].
    + split; [done | intros [? _]; done].
    + rewrite IH. tauto.
Qed.

Lemma JsMap_has_set m k k' v :
  JsMap.has (JsMap.set m k v) k' = bool_decide (k = k') || JsMap.has m k'.
Proof.
  unfold JsMap.has. destruct (decide (k = k')) as [->|Hne].
  - by rewrite JsMap_get_set_eq, bool_decide_true.
  - by rewrite JsMap_get_set_ne, bool_decide_false.
Qed.

Lemma JsMap_keys_set m k v :
  JsMap.keys (JsMap.set m k v) =
  if JsMap.has m k then JsMap.keys m else JsMap.keys m ++ [k].
Proof.
  unfold JsMap.keys, JsMap.has. induction m as [|[k' v'] m IH]; [done|].
  cbn [JsMap.set JsMap.get].
  destruct (decide (k = k')) as [->|Hne]; [done|].
  rewrite fmap_cons, IH. by destruct (JsMap.get m k).
Qed.

Lemma JsMap_keys_delete_notin m k :
  NoDup (JsMap.keys m) → k ∉ JsMap.keys (JsMap.delete m k).
Proof.
  unfold JsMap.keys. induction m as [|[k' v'] m IH]; simpl.
  - intros _. apply not_elem_of_nil.
  - rewrite NoDup_cons. intros [Hk' Hm].
    destruct (decide (k = k')) as [->|Hne]; simpl; [done|].
    rewrite not_elem_of_cons. auto.
Qed.

Lemma JsMap_get_delete_ne m k k' :
  k ≠ k' → JsMap.get (JsMap.delete m k) k' = JsMap.get m k'.
Proof.
  intros Hne. induction m as [|[k0 v0] m IH]; simpl; [done|].
  destruct (decide (k = k0)) as [->|Hk]; simpl.
  - by rewrite decide_False.
  - by rewrite IH.
Qed.

Lemma JsMap_keys_delete_sub m k x :
  x ∈ JsMap.keys (JsMap.delete m k) → x ∈ JsMap.keys m.
Proof.
  unfold JsMap.keys. induction m as [|[k' v'] m IH]; simpl; [done|].
  destruct (decide (k = k')) as [->|Hne]; simpl.
  - apply list_elem_of_further.
  - rewrite !elem_of_cons. intros [->|Hx]; [by left | right; auto].
Qed.

Lemma JsMap_NoDup_delete m k :
  NoDup (JsMap.keys m) → NoDup (JsMap.keys (JsMap.delete m k)).
Proof.
  unfold JsMap.keys. induction m as [|[k' v'] m IH]; simpl; [done|].
  rewrite NoDup_cons. intros [Hk' Hm].
  destruct (decide (k = k')) as [->|Hne]; simpl; [done|].
  apply NoDup_cons. split; [|auto].
  intros Hin. by apply Hk', (JsMap_keys_delete_sub m k).
Qed.

Lemma JsMap_NoDup_set m k v :
  NoDup (JsMap.keys m) → NoDup (JsMap.keys (JsMap.set m k v)).
Proof.
  intros Hm. rewrite JsMap_keys_set. unfold JsMap.has.
  destruct (JsMap.get m k) eqn:Hg; [done|].
  apply NoDup_app. split_and!; [done| |apply NoDup_singleton].
  intros x Hx ->%list_elem_of_singleton. by apply JsMap_get_None in Hg.
Qed.
End JsMap_facts.

(* ================================================================== *)
(** * The query cache *)
(* ================================================================== *)

(** A query on an empty cache computes the membership from the stores. *)
Lemma query_fresh st cls :
  queryCache st = ∅ → (World.query st cls).1 = World.matching st cls.
Proof.
  intros Hc. unfold World.query. by rewrite Hc, lookup_empty.
Qed.

(** A query answers from the cache whenever the key is there. *)
Lemma query_cached st cls r :
  queryCache st !! World.cacheKey cls = Some r → World.query st cls = (r, st).
Proof. intros Hc. unfold World.query. by rewrite Hc. Qed.

(** After a query its key is cached with the value just returned. *)
Lemma query_caches st cls :
  queryCache (World.query st cls).2 !! World.cacheKey cls
  = Some (World.query st cls).1.
Proof.
  unfold World.query.
  destruct (queryCache st !! World.cacheKey cls) eqn:Hc; simpl; [done|].
  apply lookup_insert_eq.
Qed.

Lemma removeEntity_invalidates st i : queryCache (World.removeEntity st i).1 = ∅.
Proof. done. Qed.

Lemma addComponent_invalidates st i c :
  (World.addComponent st i c).1.1 = None →
  queryCache (World.addComponent st i c).1.2 = ∅.
Proof.
  unfold World.addComponent. by destruct (JsMap.get (components st) i).
Qed.

Lemma removeComponent_invalidates st i cls c :
  World.getComponent st i cls = Some c →
  queryCache (World.removeComponent st i cls).1 = ∅.
Proof.
  unfold World.getComponent, World.removeComponent.
  destruct (JsMap.get (components st) i) as [m|]; [|done].
  by intros ->.
Qed.

(** [addEntity] leaves the cache as it is. *)
Lemma addEntity_keeps_cache st e :
  queryCache (World.addEntity st e) = queryCache st.
Proof. done. Qed.

(** C1 (failing input).  After [addEntity] re-registers entity 0, whose
    component map is thereby emptied, [query(PositionComponent)] still
    answers [{0}] from the cache although entity 0 no longer has the
    component and the membership computed from the stores is empty.  The
    same happens for a first registration with the empty kind list: the
    cached empty answer hides the new entity. *)
Theorem addEntity_stale_query :
  (World.query reRegister_before [PositionComponent]).1 = [0]
  ∧ World.hasComponent reRegister_before 0 PositionComponent = false
  ∧ World.matching reRegister_before [PositionComponent] = []
  ∧ (let st := (World.query World.new []).2 in
     let '(e, st) := Entity_new st None in
     let st := World.addEntity st e in
     (World.query st []).1 = [] ∧ World.matching st [] = [0]).
Proof. vm_compute. done. Qed.

(** [addEntity] therefore never changes the answer of a cached query. *)
Lemma addEntity_query_cached st e cls r :
  queryCache st !! World.cacheKey cls = Some r →
  (World.query (World.addEntity st e) cls).1 = r.
Proof. intros Hc. by rewrite (query_cached _ cls r). Qed.

(** ** Activation flags *)

Lemma call_keeps_cached st c k r :
  queryCache st !! k = Some r → queryCache (call st c) !! k = Some r.
Proof.
  intros Hk. destruct c as [e|e|cls|s|s|s|s]; cbn [call]; try done.
  - unfold World.query.
    destruct (queryCache st !! World.cacheKey cls) eqn:Hc; [done|].
    cbn [snd queryCache with_queryCache].
    rewrite lookup_insert_ne; [done|]. intros Heq. rewrite Heq in Hc. congruence.
  - unfold World.removeSystem. by destruct (JsArray.indexOf _ _).
Qed.

Lemma calls_keep_cached cs st k r :
  queryCache st !! k = Some r → queryCache (foldl call st cs) !! k = Some r.
Proof.
  revert st. induction cs as [|c cs IH]; intros st Hk; [done|].
  simpl. by apply IH, call_keeps_cached.
Qed.

(** C10.  [activate] and [deactivate] leave the query cache alone, and so
    does every call that neither adds nor removes an entity or a
    component: a query repeated after any number of such calls returns
    the membership cached by the first one and changes nothing. *)
Theorem toggle_keeps_cached_membership st cls cs :
  let '(r1, st1) := World.query st cls in
  let st2 := foldl call st1 cs in
  (∀ e, queryCache (Entity_deactivate st1 e) = queryCache st1
        ∧ queryCache (Entity_activate st1 e) = queryCache st1)
  ∧ World.query st2 cls = (r1, st2).
Proof.
  destruct (World.query st cls) as [r1 st1] eqn:Hq. simpl.
  split; [done|].
  apply query_cached, calls_keep_cached.
  pose proof (query_caches st cls) as Hc. by rewrite Hq in Hc.
Qed.

(** The flag is read only when the membership is computed: entity 0 is
    still in the cached answer after [deactivate], and out of the
    recomputed one. *)
Example deactivate_seen_on_recompute :
  let '(e, st) := Entity_new World.new None in
  let st := World.addEntity st e in
  let st := (World.addComponent st e (position_of e 1)).1.2 in
  let st := (World.query st [PositionComponent]).2 in
  let st := Entity_deactivate st e in
  (World.query st [PositionComponent]).1 = [0]
  ∧ World.matching st [PositionComponent] = [].
Proof. vm_compute. done. Qed.

(* ================================================================== *)
(** * The component store *)
(* ================================================================== *)

Lemma new_consistent : store_consistent World.new.
Proof. split_and!; [apply NoDup_nil_2 .. | done]. Qed.

Lemma addEntity_consistent st e :
  store_consistent st → store_consistent (World.addEntity st e).
Proof.
  intros (He & Hc & Hk). unfold World.addEntity. split_and!; simpl.
  - by apply JsMap_NoDup_set.
  - by apply JsMap_NoDup_set.
  - intros i. by rewrite !JsMap_has_set, Hk.
Qed.

Lemma JsMap_has_delete {K V} `{EqDecision K} (m : list (K * V)) k k' :
  NoDup (JsMap.keys m) →
  JsMap.has (JsMap.delete m k) k' = negb (bool_decide (k = k')) && JsMap.has m k'.
Proof.
  intros Hm. unfold JsMap.has. destruct (decide (k = k')) as [<-|Hne].
  - rewrite bool_decide_true by done.
    by rewrite (proj2 (JsMap_get_None _ _) (JsMap_keys_delete_notin m k Hm)).
  - by rewrite JsMap_get_delete_ne, bool_decide_false.
Qed.

Lemma removeEntity_consistent st i :
  store_consistent st → store_consistent (World.removeEntity st i).1.
Proof.
  intros (He & Hc & Hk). unfold World.removeEntity. split_and!; simpl.
  - by apply JsMap_NoDup_delete.
  - by apply JsMap_NoDup_delete.
  - intros j. by rewrite !JsMap_has_delete, Hk.
Qed.

Lemma JsMap_has_set_present {K V} `{EqDecision K} (m : list (K * V)) k v v' k' :
  JsMap.get m k = Some v' → JsMap.has (JsMap.set m k v) k' = JsMap.has m k'.
Proof.
  intros Hg. rewrite JsMap_has_set. destruct (decide (k = k')) as [<-|Hne].
  - unfold JsMap.has. rewrite Hg. apply orb_true_r.
  - by rewrite bool_decide_false.
Qed.

Lemma addComponent_consistent st i c :
  store_consistent st → store_consistent (World.addComponent st i c).1.2.
Proof.
  intros (He & Hc & Hk). unfold World.addComponent.
  destruct (JsMap.get (components st) i) as [m|] eqn:Hg; [|done].
  split_and!; simpl; [done | by apply JsMap_NoDup_set |].
  intros j. by rewrite (JsMap_has_set_present _ _ _ m), Hk.
Qed.

Lemma removeComponent_consistent st i cls :
  store_consistent st → store_consistent (World.removeComponent st i cls).1.
Proof.
  intros (He & Hc & Hk). unfold World.removeComponent.
  destruct (JsMap.get (components st) i) as [m|] eqn:Hg; [|done].
  destruct (JsMap.get m (ComponentClass.name cls)); [|done].
  split_and!; simpl; [done | by apply JsMap_NoDup_set |].
  intros j. by rewrite (JsMap_has_set_present _ _ _ m), Hk.
Qed.

(** A registered id is one that [addEntity] put there ... *)
Lemma addEntity_registers st e :
  registered (World.addEntity st e) (Entity.id (entityObj st !!! e)) = true.
Proof.
  unfold registered, World.addEntity. simpl.
  by rewrite JsMap_has_set, bool_decide_true.
Qed.

(** ... and that [removeEntity] has not taken out since. *)
Lemma removeEntity_unregisters st i :
  store_consistent st → registered (World.removeEntity st i).1 i = false.
Proof.
  intros (He & _). unfold registered, World.removeEntity. simpl.
  by rewrite JsMap_has_delete, bool_decide_true.
Qed.

Lemma new_registers_nothing i : registered World.new i = false.
Proof. done. Qed.

(** C5.  [addComponent] throws [EntityNotFound] exactly when the id is not
    registered, and then changes nothing.  Otherwise it stores the
    component under its class name, in place of any component already
    there, leaves every other component alone, calls the new component's
    [onAttach] if it has one and no [onDetach] at all, and empties the
    query cache. *)
Theorem addComponent_spec st i c :
  store_consistent st →
  let '(err, st', evs) := World.addComponent st i c in
  if registered st i then
    err = None
    ∧ World.getComponent st' i (class_of c) = Some c
    ∧ (∀ j k, (j, ComponentClass.name k) ≠ (i, Component.className c) →
         World.getComponent st' j k = World.getComponent st j k)
    ∧ evs = (if Component.onAttach c then [OnAttach c] else [])
    ∧ queryCache st' = ∅
    ∧ entities st' = entities st
  else
    err = Some (EntityNotFound i) ∧ st' = st ∧ evs = [].
Proof.
  intros (He & Hc & Hk). unfold registered. rewrite <- Hk.
  unfold World.addComponent, JsMap.has.
  destruct (JsMap.get (components st) i) as [m|] eqn:Hg; [|done].
  split_and!; try done.
  - unfold World.getComponent. simpl.
    by rewrite !JsMap_get_set_eq.
  - intros j k Hne. unfold World.getComponent. simpl.
    destruct (decide (i = j)) as [<-|Hij].
    + rewrite JsMap_get_set_eq, Hg. apply JsMap_get_set_ne. congruence.
    + by rewrite JsMap_get_set_ne.
Qed.

Lemma addComponent_spec_witness :
  store_consistent populated
  ∧ let '(err, st', evs) :=
      World.addComponent populated 0 (Component.mk 0 "PositionComponent" true true 2) in
    err = None
    ∧ World.getComponent st' 0 PositionComponent
      = Some (Component.mk 0 "PositionComponent" true true 2)
    ∧ evs = [OnAttach (Component.mk 0 "PositionComponent" true true 2)].
Proof.
  assert (Hp : store_consistent populated).
  { split_and!; [apply (NoDup_singleton 0) .. | intros [|i]; reflexivity]. }
  split; [exact Hp|].
  pose proof (addComponent_spec populated 0
                (Component.mk 0 "PositionComponent" true true 2) Hp) as H.
  destruct (World.addComponent populated 0 _) as [[err st'] evs].
  change (registered populated 0) with true in H. cbv iota in H.
  destruct H as (H1 & H2 & _ & H4 & _). auto.
Defined.

(* ================================================================== *)
(** * clear *)
(* ================================================================== *)

(** C9 (as the code has it).  [clear] calls every system's [onDestroy] and
    empties the system list, then calls every component's [onDetach], then
    empties the entity registry, then the component store, then the query
    cache: the registry goes before the store.  The hooks are called in
    that order, destroy hooks first; afterwards the four containers are
    empty, every query answers the empty set and the entity count is 0. *)
Theorem clear_spec st :
  let '(st', evs) := World.clear st in
  evs = destroy_calls st ++ detach_calls st
  ∧ states_through World.clear_body st =
      [ st;
        with_systems st [];
        with_systems st [];
        with_entities (with_systems st []) [];
        with_components (with_entities (with_systems st []) []) [];
        st' ]
  ∧ systems st' = [] ∧ components st' = [] ∧ entities st' = []
  ∧ queryCache st' = ∅
  ∧ (∀ cls, (World.query st' cls).1 = [])
  ∧ World.getEntityCount st' = 0.
Proof.
  unfold World.clear, World.clear_body, World.run. simpl.
  split_and!; try done.
  by rewrite !app_nil_r.
Qed.

(** C9 (counterexample).  In a world with one entity carrying a component,
    the fourth statement of [clear] leaves the entity registry empty while
    the component store still holds the entity's map, and at no point is
    the component store empty while the registry is not. *)
Lemma clear_empties_registry_before_store :
  (∃ s, states_through World.clear_body populated !! 3 = Some s
        ∧ entities s = [] ∧ components s ≠ [])
  ∧ ¬ (∃ s, s ∈ states_through World.clear_body populated
            ∧ components s = [] ∧ entities s ≠ []).
Proof.
  split.
  - eexists. split; [reflexivity|]. split; [reflexivity|]. discriminate.
  - intros (s & Hs & Hc & He). apply He. clear He.
    repeat (apply elem_of_cons in Hs as [->|Hs]; [try done; by vm_compute in Hc|]).
    by apply elem_of_nil in Hs.
Qed.

(* ================================================================== *)
(** * The stage machine *)
(* ================================================================== *)

(** C6.  [switchTo] with an unregistered name throws [StageNotFound],
    leaves the scene manager as it was and calls nothing.  With a
    registered name it calls the current stage's [onDestroy] once if there
    is a current stage, then makes the requested stage current and calls
    its [onInit]. *)
Theorem switchTo_spec sm name :
  let '(err, sm', evs) := SceneManager.switchTo sm name in
  match SceneManager.stages sm !! name with
  | None => err = Some (StageNotFound name) ∧ sm' = sm ∧ evs = []
  | Some next =>
      err = None
      ∧ SceneManager.currentStage sm' = Some next
      ∧ SceneManager.stages sm' = SceneManager.stages sm
      ∧ stage_hooks evs =
          match SceneManager.currentStage sm with
          | Some cur => [SceneManager.StageDestroy cur (SceneManager.engine sm);
                         SceneManager.StageInit next (SceneManager.engine sm)]
          | None => [SceneManager.StageInit next (SceneManager.engine sm)]
          end
  end.
Proof.
  unfold SceneManager.switchTo.
  destruct (SceneManager.stages sm !! name) as [next|]; [|done].
  split_and!; try done.
  by destruct (SceneManager.currentStage sm).
Qed.

(* ================================================================== *)
(** * Sorting *)
(* ================================================================== *)

Section sort_facts.
Context {A : Type} (le : A → A → bool).
Implicit Types (x : A) (l : list A).

Lemma insert_Permutation x l : JsArray.insert le x l ≡ₚ x :: l.
Proof.
  induction l as [|y l IH]; simpl; [done|].
  destruct (le x y); [done|]. rewrite IH. apply Permutation_swap.
Qed.

Lemma sort_Permutation l : JsArray.sort le l ≡ₚ l.
Proof.
  induction l as [|x l IH]; simpl; [done|].
  by rewrite insert_Permutation, IH.
Qed.

Hypothesis le_total : ∀ a b, le a b = true ∨ le b a = true.

Lemma insert_Sorted x l :
  Sorted (λ a b, le a b = true) l →
  Sorted (λ a b, le a b = true) (JsArray.insert le x l).
Proof.
  induction 1 as [|y l Hl IH Hhd]; simpl.
  - by repeat constructor.
  - destruct (le x y) eqn:Hxy.
    + constructor; [by constructor | by constructor].
    + constructor; [done|].
      destruct Hhd as [|z l Hyz]; simpl.
      * constructor. by destruct (le_total x y) as [?|?]; [congruence|].
      * destruct (le x z); constructor; [|done].
        by destruct (le_total x y) as [?|?]; [congruence|].
Qed.

Lemma sort_Sorted l : Sorted (λ a b, le a b = true) (JsArray.sort le l).
Proof.
  induction l as [|x l IH]; simpl; [constructor | by apply insert_Sorted].
Qed.
End sort_facts.

(** The order on names is a total order. *)
Lemma ascii_compare_N (a b : ascii) :
  Ascii.compare a b = N.compare (N_of_ascii a) (N_of_ascii b).
Proof. done. Qed.

Lemma string_compare_Lt_trans (a b c : string) :
  String.compare a b = Lt → String.compare b c = Lt → String.compare a c = Lt.
Proof.
  revert b c. induction a as [|x a IH]; intros [|y b] [|z c]; simpl; try done.
  rewrite !ascii_compare_N.
  destruct (N.compare_spec (N_of_ascii x) (N_of_ascii y)) as [Hxy|Hxy|Hxy];
    destruct (N.compare_spec (N_of_ascii y) (N_of_ascii z)) as [Hyz|Hyz|Hyz];
    try done; intros Hab Hbc.
  - rewrite Hxy, Hyz, N.compare_refl. eauto.
  - rewrite Hxy. by rewrite (proj2 (N.compare_lt_iff _ _) Hyz).
  - rewrite <- Hyz. by rewrite (proj2 (N.compare_lt_iff _ _) Hxy).
  - by rewrite (proj2 (N.compare_lt_iff _ _) (N.lt_trans _ _ _ Hxy Hyz)).
Qed.

Global Instance name_le_trans : Transitive name_le.
Proof.
  intros a b c. unfold name_le, String.leb.
  destruct (String.compare a b) eqn:Hab; [|intros _|done].
  - apply String.compare_eq_iff in Hab as ->. done.
  - destruct (String.compare b c) eqn:Hbc; [|intros _|done].
    + apply String.compare_eq_iff in Hbc as <-. by rewrite Hab.
    + by rewrite (string_compare_Lt_trans a b c).
Qed.

Global Instance name_le_antisymm : AntiSymm (=) name_le.
Proof. intros a b. apply String.leb_antisym. Qed.

Lemma sort_names_Permutation (l1 l2 : list string) :
  l1 ≡ₚ l2 → JsArray.sort String.leb l1 = JsArray.sort String.leb l2.
Proof.
  intros Hp. apply (Sorted_unique name_le).
  - apply (sort_Sorted String.leb), String.leb_total.
  - apply (sort_Sorted String.leb), String.leb_total.
  - by rewrite !sort_Permutation.
Qed.

Lemma forallb_Permutation {A} (f : A → bool) (l1 l2 : list A) :
  l1 ≡ₚ l2 → forallb f l1 = forallb f l2.
Proof.
  induction 1 as [|x l1 l2 _ IH|x y l|l1 l2 l3 _ IH1 _ IH2]; simpl.
  - done.
  - by rewrite IH.
  - by rewrite !andb_assoc, (andb_comm (f y)).
  - by rewrite IH1.
Qed.

(* ================================================================== *)
(** * Cache keys *)
(* ================================================================== *)

Lemma cacheKey_Permutation cls cls' :
  cls ≡ₚ cls' → World.cacheKey cls = World.cacheKey cls'.
Proof.
  intros Hp. unfold World.cacheKey. f_equal.
  apply sort_names_Permutation. by apply fmap_Permutation.
Qed.

Lemma matching_ext st cls cls' :
  (∀ i, forallb (World.hasComponent st i) cls
        = forallb (World.hasComponent st i) cls') →
  World.matching st cls = World.matching st cls'.
Proof.
  intros Hf. unfold World.matching.
  generalize (@nil nat). induction (entities st) as [|kv m IH]; intros acc; [done|].
  simpl. by rewrite Hf, IH.
Qed.

Lemma matching_Permutation st cls cls' :
  cls ≡ₚ cls' → World.matching st cls = World.matching st cls'.
Proof.
  intros Hp. apply matching_ext. intros i. by apply forallb_Permutation.
Qed.

(** C4 (as the code has it).  The cache key is the sorted list of kind
    names, joined, with repeated names kept.  Two argument lists that are
    permutations of each other give the same key, the same answer and the
    same state afterwards; repeating a kind does not change the
    membership that is computed. *)
Theorem query_order_irrelevant st cls cls' :
  cls ≡ₚ cls' →
  World.cacheKey cls = World.cacheKey cls'
  ∧ World.query st cls = World.query st cls'
  ∧ ∀ c, World.matching st (c :: c :: cls) = World.matching st (c :: cls).
Proof.
  intros Hp. split; [by apply cacheKey_Permutation|]. split.
  - unfold World.query. rewrite (cacheKey_Permutation cls cls' Hp).
    destruct (queryCache st !! World.cacheKey cls'); [done|].
    by rewrite (matching_Permutation st cls cls' Hp).
  - intros c. apply matching_ext. intros i. simpl.
    by destruct (World.hasComponent st i c).
Qed.

Lemma query_order_irrelevant_witness :
  [K1; K2] ≡ₚ [K2; K1]
  ∧ World.cacheKey [K1; K2] = World.cacheKey [K2; K1]
  ∧ World.query populated [K1; K2] = World.query populated [K2; K1].
Proof.
  assert (Hp : [K1; K2] ≡ₚ [K2; K1]) by apply Permutation_swap.
  split; [exact Hp|].
  destruct (query_order_irrelevant populated [K1; K2] [K2; K1] Hp) as (H1 & H2 & _).
  by split.
Defined.

(** C4 (counterexample).  A repeated kind changes the cache key:
    [query(K1, K1, K2)] is cached under ["MeshComponent,MeshComponent,PositionComponent"],
    not under the key of [query(K1, K2)]. *)
Lemma cacheKey_keeps_duplicates :
  World.cacheKey [K1; K1; K2] = "MeshComponent,MeshComponent,PositionComponent"
  ∧ World.cacheKey [K1; K2] = "MeshComponent,PositionComponent"
  ∧ World.cacheKey [K1; K1; K2] ≠ World.cacheKey [K1; K2].
Proof. split_and!; [reflexivity | reflexivity | discriminate]. Qed.

(* ================================================================== *)
(** * The scheduler: order of the system list *)
(* ================================================================== *)

Lemma Sorted_weaken {A} (R R' : A → A → Prop) (l : list A) :
  (∀ a b, R a b → R' a b) → Sorted R l → Sorted R' l.
Proof.
  intros HR. induction 1 as [|a l Hl IH Hhd]; constructor; [done|].
  destruct Hhd; constructor; auto.
Qed.

Section by_key.
Context {A : Type} (key : A → Z).
Implicit Types (x a : A) (l m : list A).

Lemma le_key_total a b : le_key key a b = true ∨ le_key key b a = true.
Proof. unfold le_key. lia. Qed.

Lemma insert_insert_last a x m :
  JsArray.insert (le_key key) a (insert_last (le_key key) x m)
  = insert_last (le_key key) x (JsArray.insert (le_key key) a m).
Proof.
  induction m as [|y m IH]; simpl.
  - unfold le_key. repeat case_match; simpl; try done; lia.
  - unfold le_key in *.
    destruct (key y - key x <=? 0)%Z eqn:Hyx;
      destruct (key a - key y <=? 0)%Z eqn:Hay; simpl;
      rewrite ?Hyx, ?Hay; simpl.
    + destruct (key a - key x <=? 0)%Z eqn:Hax; [done | lia].
    + by rewrite IH.
    + destruct (key a - key x <=? 0)%Z eqn:Hax;
        destruct (key x - key a <=? 0)%Z eqn:Hxa; simpl;
        rewrite ?Hyx, ?Hay; simpl; try done; lia.
    + by destruct (key a - key x <=? 0)%Z eqn:Hax; [lia|].
Qed.

Lemma sort_snoc l x :
  JsArray.sort (le_key key) (l ++ [x])
  = insert_last (le_key key) x (JsArray.sort (le_key key) l).
Proof.
  induction l as [|a l IH]; simpl; [done|].
  by rewrite IH, insert_insert_last.
Qed.

Lemma sort_sorted_id l :
  Sorted (λ a b, le_key key a b = true) l → JsArray.sort (le_key key) l = l.
Proof.
  induction 1 as [|a l Hl IH Hhd]; simpl; [done|].
  rewrite IH. destruct Hhd as [|b l Hab]; simpl; [done|]. by rewrite Hab.
Qed.

Lemma sort_idem l :
  JsArray.sort (le_key key) (JsArray.sort (le_key key) l)
  = JsArray.sort (le_key key) l.
Proof. apply sort_sorted_id, sort_Sorted, le_key_total. Qed.

(** Sorting a sorted array with one element pushed behind it gives the
    sort of everything pushed so far. *)
Lemma sort_push l x :
  JsArray.sort (le_key key) (JsArray.sort (le_key key) l ++ [x])
  = JsArray.sort (le_key key) (l ++ [x]).
Proof. by rewrite !sort_snoc, sort_idem. Qed.

Lemma sort_StronglySorted l :
  StronglySorted (λ a b, (key a ≤ key b)%Z) (JsArray.sort (le_key key) l).
Proof.
  apply Sorted_StronglySorted.
  - intros a b c ??. lia.
  - eapply Sorted_weaken; [|apply (sort_Sorted (le_key key)), le_key_total].
    intros a b. unfold le_key. simpl. lia.
Qed.

(** Stability: elements of equal key keep their order. *)
Lemma filter_insert p x l :
  filter (λ a, key a = p) (JsArray.insert (le_key key) x l)
  = filter (λ a, key a = p) (x :: l).
Proof.
  induction l as [|y l IH]; simpl; [done|].
  destruct (le_key key x y) eqn:Hxy; [done|].
  rewrite filter_cons, IH, !filter_cons.
  unfold le_key in Hxy.
  destruct (decide (key y = p)), (decide (key x = p)); try done; lia.
Qed.

Lemma sort_stable p l :
  filter (λ a, key a = p) (JsArray.sort (le_key key) l)
  = filter (λ a, key a = p) l.
Proof.
  induction l as [|x l IH]; simpl; [done|].
  by rewrite filter_insert, !filter_cons, IH.
Qed.
End by_key.

Lemma addSystems_systemObj ss st : systemObj (addSystems st ss) = systemObj st.
Proof.
  revert st. induction ss as [|s ss IH]; intros st; [done|].
  unfold addSystems in *. simpl. by rewrite IH.
Qed.

Lemma byPriority_le_key st :
  World.byPriority st = le_key (λ s, System.priority (systemObj st !!! s)).
Proof. done. Qed.

Lemma addSystems_snoc st ss s :
  addSystems st (ss ++ [s]) = (World.addSystem (addSystems st ss) s).1.
Proof. unfold addSystems. by rewrite foldl_app. Qed.

Lemma addSystem_systems st s :
  systems (World.addSystem st s).1
  = JsArray.sort (World.byPriority st) (systems st ++ [s]).
Proof. done. Qed.

Lemma byPriority_systemObj st st' :
  systemObj st' = systemObj st → World.byPriority st' = World.byPriority st.
Proof. unfold World.byPriority. by intros ->. Qed.

Lemma addSystems_sort ss st :
  systems st = [] →
  systems (addSystems st ss) = JsArray.sort (World.byPriority st) ss.
Proof.
  intros Hnil. induction ss as [|s ss IH] using rev_ind; [done|].
  rewrite addSystems_snoc, addSystem_systems, IH.
  rewrite (byPriority_systemObj st _ (addSystems_systemObj ss st)).
  rewrite byPriority_le_key. apply sort_push.
Qed.

(* ================================================================== *)
(** * The scheduler: one frame *)
(* ================================================================== *)

Lemma update_calls_app evs evs' :
  update_calls (evs ++ evs') = update_calls evs ++ update_calls evs'.
Proof. apply flat_map_app. Qed.

Lemma update_calls_hooks evs : Forall is_hook evs → update_calls evs = [].
Proof.
  induction 1 as [|ev evs Hev _ IH]; [done|].
  destruct ev; simpl in *; done.
Qed.

Lemma detachAll_hooks m : Forall is_hook (World.detachAll m).
Proof.
  unfold World.detachAll. induction m as [|kc m IH]; [constructor|].
  simpl. destruct (Component.onDetach kc.2); [by constructor|done].
Qed.

Lemma flat_map_hooks {A} (g : A → list Event) l :
  (∀ x, Forall is_hook (g x)) → Forall is_hook (flat_map g l).
Proof.
  intros Hg. induction l as [|x l IH]; [constructor|].
  simpl. apply Forall_app. by split.
Qed.

Lemma clear_hooks st : Forall is_hook (World.clear st).2.
Proof.
  unfold World.clear, World.run. simpl. rewrite !app_nil_r.
  apply Forall_app. split; apply flat_map_hooks.
  - intros x. destruct (System.onDestroy _); by repeat constructor.
  - intros x. apply detachAll_hooks.
Qed.

Lemma perform_hooks f a : Forall is_hook (World.perform f a).2.
Proof.
  destruct a; cbn [World.perform]; cbv zeta beta; cbn [fst snd];
    try by constructor.
  - unfold World.removeEntity. cbn [snd].
    destruct (JsMap.get _ _); [apply detachAll_hooks | constructor].
  - unfold World.addComponent. destruct (JsMap.get _ _); cbn [snd]; [|constructor].
    destruct (Component.onAttach _); by repeat constructor.
  - unfold World.removeComponent. destruct (JsMap.get _ _); cbn [snd]; [|constructor].
    destruct (JsMap.get _ _); cbn [snd]; [|constructor].
    destruct (Component.onDetach _); by repeat constructor.
  - unfold World.addSystem. cbn [snd].
    destruct (System.onInit _); by repeat constructor.
  - unfold World.removeSystem. destruct (JsArray.indexOf _ _); cbn [snd]; [|constructor].
    destruct (System.onDestroy _); by repeat constructor.
  - pose proof (clear_hooks (World.world f)) as H.
    by destruct (World.clear (World.world f)).
Qed.

Lemma performs_hooks actions f : Forall is_hook (World.performs f actions).2.
Proof.
  revert f. induction actions as [|a actions IH]; intros f; [constructor|].
  simpl. pose proof (perform_hooks f a) as Ha.
  destruct (World.perform f a) as [f1 evs1].
  specialize (IH f1). destruct (World.performs f1 actions) as [f2 evs2].
  apply Forall_app. by split.
Qed.

Section frame.
Variable body : ref → Q → Q → State → list World.Action.

Lemma update_from_S fuel i d e f :
  World.update_from body (S fuel) i d e f =
  match World.walked f !! i with
  | None => Some (f, [])
  | Some s =>
      if enabled f s then
        match World.update_from body fuel (S i) d e
                (World.performs f (body s d e (World.world f))).1 with
        | Some (f'', evs') =>
            Some (f'', Update s d e
                       :: (World.performs f (body s d e (World.world f))).2 ++ evs')
        | None => None
        end
      else World.update_from body fuel (S i) d e f
  end.
Proof.
  simpl. destruct (World.walked f !! i) as [s|]; [|done].
  unfold enabled. destruct (System.enabled _); [|done].
  by destruct (World.performs f _).
Qed.

Lemma update_calls_round s d e evs evs' :
  Forall is_hook evs →
  update_calls (Update s d e :: evs ++ evs') = s :: update_calls evs'.
Proof.
  intros H. change (Update s d e :: evs ++ evs') with ([Update s d e] ++ evs ++ evs').
  by rewrite !update_calls_app, (update_calls_hooks evs H).
Qed.

(** The systems updated by [update_each] are those of its list. *)
Lemma update_each_calls d e ss f :
  update_calls (update_each body d e ss f).2 = ss.
Proof.
  revert f. induction ss as [|s ss IH]; intros f; [done|].
  cbn [update_each]. pose proof (performs_hooks (body s d e (World.world f)) f) as Hh.
  destruct (World.performs f _) as [f1 evs1].
  specialize (IH f1). destruct (update_each body d e ss f1) as [f2 evs2].
  cbn [snd] in *. by rewrite update_calls_round, IH.
Qed.


Lemma enabled_systemObj f f' :
  systemObj (World.world f') = systemObj (World.world f) → enabled f' = enabled f.
Proof. unfold enabled. by intros ->. Qed.

(** With bodies that leave the array walked and the system objects
    alone, the frame ends and is the run of the enabled systems of the
    array, in the order of the array. *)
Lemma update_from_quiet d e :
  quiet body →
  ∀ n i f,
    length (World.walked f) ≤ i + n →
    World.update_from body (S n) i d e f
    = Some (update_each body d e (List.filter (enabled f)
                                         (drop i (World.walked f))) f).
Proof.
  intros Hq. induction n as [|n IH]; intros i f Hlen.
  - rewrite update_from_S.
    rewrite (proj2 (lookup_ge_None _ _)) by lia. by rewrite drop_ge by lia.
  - rewrite update_from_S.
    destruct (World.walked f !! i) as [s|] eqn:Hs; cycle 1.
    { apply lookup_ge_None in Hs. by rewrite drop_ge by lia. }
    rewrite (drop_S _ _ _ Hs). cbn [List.filter].
    destruct (enabled f s) eqn:Hen.
    + cbn [update_each].
      destruct (Hq s d e f) as (Hw & _ & Ho).
      destruct (World.performs f _) as [f1 evs1]. cbn [fst snd] in *.
      rewrite IH by (rewrite Hw; lia).
      rewrite Hw, (enabled_systemObj _ _ Ho).
      by destruct (update_each body d e _ f1).
    + apply IH. lia.
Qed.

Lemma update_each_quiet d e :
  quiet body →
  ∀ ss f,
    let f' := (update_each body d e ss f).1 in
    World.walked f' = World.walked f
    ∧ World.oldSystems f' = World.oldSystems f
    ∧ systemObj (World.world f') = systemObj (World.world f).
Proof.
  intros Hq. induction ss as [|s ss IH]; intros f; [done|].
  cbn [update_each]. destruct (Hq s d e f) as (Hw & Hb & Ho).
  destruct (World.performs f _) as [f1 evs1]. cbn [fst] in *.
  specialize (IH f1). destruct (update_each body d e ss f1) as [f2 evs2].
  cbn [fst] in *. destruct IH as (Hw' & Hb' & Ho').
  split_and!; congruence.
Qed.

(** The frame ends when no body makes the array walked longer. *)
Lemma update_from_ends d e :
  (∀ s f, length (World.walked (World.performs f (body s d e (World.world f))).1)
          ≤ length (World.walked f)) →
  ∀ n i f,
    length (World.walked f) ≤ i + n →
    is_Some (World.update_from body (S n) i d e f).
Proof.
  intros Hb. induction n as [|n IH]; intros i f Hlen.
  - rewrite update_from_S. by rewrite (proj2 (lookup_ge_None _ _)) by lia.
  - rewrite update_from_S.
    destruct (World.walked f !! i) as [s|] eqn:Hs; [|done].
    destruct (enabled f s).
    + specialize (Hb s f).
      destruct (IH (S i) (World.performs f (body s d e (World.world f))).1)
        as [[f2 evs2] ->]; [lia | done].
    + apply IH. lia.
Qed.

End frame.

Lemma idle_quiet : quiet idle.
Proof. by intros s d e f. Qed.

Lemma walked_bound f :
  World.oldSystems f = None → World.walked f = systems (World.world f).
Proof. unfold World.walked. by intros ->. Qed.

(** C3.  After any sequence of [addSystem] calls on an empty system list,
    the list holds the systems added, in ascending order of priority, and
    systems of equal priority in the order they were added.  A frame whose
    bodies leave the list and the system objects alone ends, and the
    [update] calls it makes are those of the enabled systems of the list,
    in exactly that order, each body run on the World as the one before
    left it. *)
Theorem addSystem_update_order body st ss d e :
  systems st = [] →
  quiet body →
  let prio := λ s, System.priority (systemObj st !!! s) in
  let st1 := addSystems st ss in
  let on := List.filter (λ s, System.enabled (systemObj st !!! s)) (systems st1) in
  systems st1 ≡ₚ ss
  ∧ StronglySorted (λ a b, (prio a ≤ prio b)%Z) (systems st1)
  ∧ (∀ p, filter (λ s, prio s = p) (systems st1) = filter (λ s, prio s = p) ss)
  ∧ ∃ f2 evs,
      World.update body (S (length ss)) d e st1 = Some (f2, evs)
      ∧ update_calls evs = on
      ∧ (f2, evs) = update_each body d e on (World.mkFrame st1 None).
Proof.
  intros Hnil Hbody prio st1 on.
  assert (Hsys : systems st1 = JsArray.sort (le_key prio) ss)
    by apply (addSystems_sort ss st Hnil).
  split_and!.
  - rewrite Hsys. apply sort_Permutation.
  - rewrite Hsys. apply sort_StronglySorted.
  - intros p. rewrite Hsys. apply (sort_stable prio).
  - pose proof (update_from_quiet body d e Hbody (length ss) 0
                  (World.mkFrame st1 None)) as Hu.
    rewrite drop_0 in Hu.
    assert (Hon : List.filter (enabled (World.mkFrame st1 None))
                              (World.walked (World.mkFrame st1 None)) = on).
    { unfold on, enabled, World.walked. simpl. unfold st1.
      by rewrite addSystems_systemObj. }
    rewrite Hon in Hu.
    destruct (update_each body d e on (World.mkFrame st1 None)) as [f2 evs] eqn:He.
    exists f2, evs. split_and!; [|by rewrite <- (update_each_calls body d e on (World.mkFrame st1 None)), He | done].
    apply Hu. unfold World.walked. simpl.
    rewrite Hsys, (Permutation_length (sort_Permutation _ ss)). lia.
Qed.

Lemma addSystem_update_order_witness :
  systems four_systems_store = []
  ∧ quiet idle
  ∧ systems (addSystems four_systems_store [0; 1; 2; 3]) = [1; 2; 0; 3]
  ∧ ∃ f2 evs,
      World.update idle 5 (1 # 60) 1 (addSystems four_systems_store [0; 1; 2; 3])
      = Some (f2, evs)
      ∧ evs = [Update 1 (1 # 60) 1; Update 2 (1 # 60) 1;
               Update 0 (1 # 60) 1; Update 3 (1 # 60) 1].
Proof.
  split; [reflexivity|]. split; [exact idle_quiet|]. split; [reflexivity|].
  destruct (addSystem_update_order idle four_systems_store [0; 1; 2; 3]
              (1 # 60) 1 eq_refl idle_quiet)
    as (_ & _ & _ & f2 & evs & Hu & _ & He).
  exists f2, evs. split; [exact Hu|].
  vm_compute in He. by injection He as _ ->.
Defined.




(* ================================================================== *)
(** * Binary64 arithmetic: division and comparison *)
(* ================================================================== *)

Local Open Scope Z_scope.

Lemma digits2_pos_bounds (m : positive) :
  2 ^ (Zpos (digits2_pos m) - 1) ≤ Zpos m < 2 ^ Zpos (digits2_pos m).
Proof.
  induction m as [m IH|m IH|]; cbn [digits2_pos].
  - rewrite Pos2Z.inj_succ, (Pos2Z.inj_xI m).
    replace (Z.succ (Zpos (digits2_pos m)) - 1) with (Z.succ (Zpos (digits2_pos m) - 1)) by lia.
    rewrite !Z.pow_succ_r by lia.
    revert IH. generalize (2 ^ (Zpos (digits2_pos m) - 1)) (2 ^ Zpos (digits2_pos m)). lia.
  - rewrite Pos2Z.inj_succ, (Pos2Z.inj_xO m).
    replace (Z.succ (Zpos (digits2_pos m)) - 1) with (Z.succ (Zpos (digits2_pos m) - 1)) by lia.
    rewrite !Z.pow_succ_r by lia.
    revert IH. generalize (2 ^ (Zpos (digits2_pos m) - 1)) (2 ^ Zpos (digits2_pos m)). lia.
  - simpl. lia.
Qed.

(** The number of digits is determined by the bounds. *)
Lemma digits2_pos_unique (m : positive) (d : Z) :
  2 ^ (d - 1) ≤ Zpos m < 2 ^ d → Zpos (digits2_pos m) = d.
Proof.
  intros [Hl Hu]. pose proof (digits2_pos_bounds m) as [Hl' Hu'].
  assert (0 < d).
  { destruct (Z.lt_trichotomy d 0) as [?|[->|?]]; [|simpl in Hu; lia|done].
    rewrite Z.pow_neg_r in Hu by lia. lia. }
  destruct (Z.lt_trichotomy (Zpos (digits2_pos m)) d) as [Hlt|[?|Hgt]]; [|done|].
  - assert (2 ^ Zpos (digits2_pos m) ≤ 2 ^ (d - 1)) by (apply Z.pow_le_mono_r; lia). lia.
  - assert (2 ^ d ≤ 2 ^ (Zpos (digits2_pos m) - 1)) by (apply Z.pow_le_mono_r; lia). lia.
Qed.

Lemma shr_1_m m r s :
  0 ≤ m → shr_m (shr_1 (Build_shr_record m r s)) = m / 2.
Proof.
  intros Hm. destruct m as [|[p|p|]|]; cbn [shr_1 shr_m];
    [reflexivity | | | reflexivity | lia].
  - rewrite (Pos2Z.inj_xI p). apply (Z.div_unique _ _ _ 1); lia.
  - rewrite (Pos2Z.inj_xO p). apply (Z.div_unique _ _ _ 0); lia.
Qed.

Lemma shr_1_m' mrs : 0 ≤ shr_m mrs → shr_m (shr_1 mrs) = shr_m mrs / 2.
Proof. destruct mrs as [m r s]. apply shr_1_m. Qed.

Lemma pow2_xI p : 2 ^ Zpos p~1 = 2 * (2 ^ Zpos p * 2 ^ Zpos p).
Proof.
  rewrite (Pos2Z.inj_xI p).
  replace (2 * Zpos p + 1) with (1 + Zpos p + Zpos p) by lia.
  rewrite !Z.pow_add_r by lia. change (2 ^ 1) with 2. ring.
Qed.

Lemma pow2_xO p : 2 ^ Zpos p~0 = 2 ^ Zpos p * 2 ^ Zpos p.
Proof.
  rewrite (Pos2Z.inj_xO p).
  replace (2 * Zpos p) with (Zpos p + Zpos p) by lia.
  by rewrite !Z.pow_add_r by lia.
Qed.

Lemma pow2_pos e : 0 ≤ e → 0 < 2 ^ e.
Proof. intros. apply Z.pow_pos_nonneg; lia. Qed.

Lemma iter_pos_shr p : ∀ mrs,
  0 ≤ shr_m mrs →
  shr_m (SpecFloat.iter_pos shr_1 p mrs) = shr_m mrs / 2 ^ Zpos p.
Proof.
  assert (Hpos : ∀ q, 0 < 2 ^ Zpos q) by (intros; apply pow2_pos; lia).
  induction p as [p IH|p IH|]; intros mrs Hm; cbn [SpecFloat.iter_pos].
  - assert (H1 : 0 ≤ shr_m (shr_1 mrs)) by (rewrite shr_1_m' by done; apply Z.div_pos; lia).
    assert (H2 : 0 ≤ shr_m (SpecFloat.iter_pos shr_1 p (shr_1 mrs)))
      by (rewrite IH by done; apply Z.div_pos; [done | apply Hpos]).
    rewrite IH, IH, shr_1_m' by done.
    pose proof (Hpos p).
    rewrite pow2_xI, !Z.div_div by lia. done.
  - assert (H2 : 0 ≤ shr_m (SpecFloat.iter_pos shr_1 p mrs))
      by (rewrite IH by done; apply Z.div_pos; [done | apply Hpos]).
    rewrite IH, IH by done. pose proof (Hpos p).
    rewrite pow2_xO, !Z.div_div by lia. done.
  - by rewrite shr_1_m'.
Qed.

Lemma shr_record_of_loc_m m l : shr_m (shr_record_of_loc m l) = m.
Proof. by destruct l as [|[]]. Qed.

Lemma round_nearest_even_bounds m l :
  m ≤ round_nearest_even m l ≤ m + 1.
Proof.
  unfold round_nearest_even. destruct l as [|[]]; try lia.
  destruct (Z.even m); lia.
Qed.

Ltac pow_consts :=
  change (2 ^ 52) with 4503599627370496 in *;
  change (2 ^ 53) with 9007199254740992 in *;
  change (2 ^ 54) with 18014398509481984 in *.

Lemma fexp_eq e : fexp prec emax e = Z.max (e - 53) (-1074).
Proof. reflexivity. Qed.

Lemma Zdigits2_unique m d : 0 < m → 2 ^ (d - 1) ≤ m < 2 ^ d → Zdigits2 m = d.
Proof.
  intros Hm Hb. destruct m as [|p|p]; [lia | | lia].
  by apply digits2_pos_unique.
Qed.

Lemma Zdigits2_bounds m : 0 < m → 2 ^ (Zdigits2 m - 1) ≤ m < 2 ^ Zdigits2 m.
Proof.
  intros Hm. destruct m as [|p|p]; [lia | | lia]. apply digits2_pos_bounds.
Qed.

Lemma shr_fexp_53 m e l :
  2 ^ 52 ≤ m < 2 ^ 53 → -1074 ≤ e →
  shr_fexp prec emax m e l = (shr_record_of_loc m l, e).
Proof.
  intros Hm He. unfold shr_fexp.
  rewrite (Zdigits2_unique m 53) by (simpl; lia).
  rewrite fexp_eq. replace (Z.max (53 + e - 53) (-1074) - e) with 0 by lia.
  reflexivity.
Qed.

Lemma shr_fexp_54 m e l :
  2 ^ 53 ≤ m < 2 ^ 54 → -1075 ≤ e →
  ∃ mrs, shr_fexp prec emax m e l = (mrs, e + 1) ∧ shr_m mrs = m / 2.
Proof.
  intros Hm He. unfold shr_fexp.
  rewrite (Zdigits2_unique m 54) by (simpl; lia).
  rewrite fexp_eq. replace (Z.max (54 + e - 53) (-1074) - e) with 1 by lia.
  eexists. split; [reflexivity|].
  cbn [SpecFloat.iter_pos]. rewrite shr_1_m'; rewrite shr_record_of_loc_m; [done|lia].
Qed.

(** Rounding a mantissa of 53 or 54 digits in the normal range: the
    result is an infinity or a number of 53 digits that is not below the
    mantissa cut by one unit. *)
Lemma binary_round_aux_lower sx mx ex lx :
  2 ^ 52 ≤ mx < 2 ^ 54 → -1074 ≤ Zdigits2 mx + ex - 53 →
  binary_round_aux prec emax sx mx ex lx = S754_infinity sx
  ∨ ∃ mz k,
      binary_round_aux prec emax sx mx ex lx = S754_finite sx mz (ex + k)
      ∧ 0 ≤ k ≤ 2
      ∧ 2 ^ 52 ≤ Zpos mz < 2 ^ 53
      ∧ mx - 1 ≤ Zpos mz * 2 ^ k.
Proof.
  intros Hm He. unfold binary_round_aux.
  assert (Hfirst : ∃ mrs' k1,
    shr_fexp prec emax mx ex lx = (mrs', ex + k1)
    ∧ 0 ≤ k1 ≤ 1 ∧ 2 ^ 52 ≤ shr_m mrs' < 2 ^ 53
    ∧ mx - 1 ≤ shr_m mrs' * 2 ^ k1 ∧ -1074 ≤ ex + k1).
  { destruct (Z.lt_ge_cases mx (2 ^ 53)) as [Hlt|Hge].
    - rewrite (Zdigits2_unique mx 53) in He by (simpl; lia).
      exists (shr_record_of_loc mx lx), 0.
      rewrite shr_fexp_53, shr_record_of_loc_m by lia.
      rewrite Z.add_0_r. split_and!; try done; lia.
    - rewrite (Zdigits2_unique mx 54) in He by (simpl; lia).
      destruct (shr_fexp_54 mx ex lx) as (mrs & -> & Hs); [lia | lia |].
      exists mrs, 1. rewrite Hs. change (2 ^ 1) with 2. pow_consts.
      split_and!; try done; try lia; Z.div_mod_to_equations; lia. }
  destruct Hfirst as (mrs' & k1 & -> & Hk1 & Hm1 & Hlow1 & He1).
  pose proof (round_nearest_even_bounds (shr_m mrs') (loc_of_shr_record mrs')) as Hr.
  set (m2 := round_nearest_even _ _) in *.
  destruct (Z.lt_ge_cases m2 (2 ^ 53)) as [Hlt|Hge].
  - rewrite shr_fexp_53, shr_record_of_loc_m by lia.
    destruct m2 as [|p|p] eqn:Hm2; [lia | | lia].
    destruct (ex + k1 <=? emax - prec); [right|by left].
    exists p, k1. split_and!; try done; try lia.
    assert (0 < 2 ^ k1) by (apply pow2_pos; lia). nia.
  - assert (Hm2 : m2 = 2 ^ 53) by lia.
    destruct (shr_fexp_54 m2 (ex + k1) loc_Exact) as (mrs & -> & Hs); [lia | lia |].
    rewrite Hs, Hm2. change (2 ^ 53 / 2) with (Zpos (2 ^ 52)).
    destruct (ex + k1 + 1 <=? emax - prec); [right|by left].
    exists (2 ^ 52)%positive, (k1 + 1). rewrite Z.add_assoc.
    split_and!; try done; try lia.
    rewrite Z.pow_add_r by lia. change (2 ^ 1) with 2.
    change (Zpos (2 ^ 52)) with (2 ^ 52).
    assert (0 < 2 ^ k1) by (apply pow2_pos; lia).
    assert (2 ^ k1 = 1 ∨ 2 ^ k1 = 2) by (assert (k1 = 0 ∨ k1 = 1) as [->| ->] by lia; auto).
    lia.
Qed.

(** Division of two positive numbers whose quotient is in the normal
    range: the result is an infinity or a number of 53 digits, not below
    the quotient by more than one part in [2^51]. *)
Lemma SFdiv_lower mx ex my ey :
  let d1 := Zpos (digits2_pos mx) in
  let d2 := Zpos (digits2_pos my) in
  let s := 53 + d2 - d1 in
  d1 ≤ 53 →
  -1074 ≤ d1 + ex - (d2 + ey) - 53 →
  SFdiv prec emax (S754_finite false mx ex) (S754_finite false my ey)
  = S754_infinity false
  ∨ ∃ mz k,
      SFdiv prec emax (S754_finite false mx ex) (S754_finite false my ey)
      = S754_finite false mz (ex - ey - s + k)
      ∧ 0 ≤ k ≤ 2
      ∧ 2 ^ 52 ≤ Zpos mz < 2 ^ 53
      ∧ Zpos mx * 2 ^ s * (2 ^ 51 - 1) ≤ Zpos mz * 2 ^ k * Zpos my * 2 ^ 51.
Proof.
  intros d1 d2 s Hd1 HE.
  pose proof (digits2_pos_bounds mx) as Hmx. fold d1 in Hmx.
  pose proof (digits2_pos_bounds my) as Hmy. fold d2 in Hmy.
  assert (Hd1' : 1 ≤ d1) by (unfold d1; lia).
  assert (Hd2' : 1 ≤ d2) by (unfold d2; lia).
  assert (Hs : 1 ≤ s) by (unfold s; lia).
  unfold SFdiv, SFdiv_core_binary. cbn [Zdigits2 xorb]. fold d1 d2.
  rewrite fexp_eq.
  replace (Z.min (Z.max (d1 + ex - (d2 + ey) - 53) (-1074)) (ex - ey))
    with (ex - ey - s) by (unfold s; lia).
  replace (ex - ey - (ex - ey - s)) with s by lia.
  assert (Hm' : match s with
                | Z0 => Zpos mx
                | Zpos _ => Z.shiftl (Zpos mx) s
                | Zneg _ => 0
                end = Zpos mx * 2 ^ s).
  { destruct s as [|p|p] eqn:Hsp; [lia | | lia]. apply Z.shiftl_mul_pow2. lia. }
  rewrite Hm'. clear Hm'.
  set (m' := Zpos mx * 2 ^ s).
  pose proof (Z_div_mod m' (Zpos my) eq_refl) as Hdiv.
  destruct (Z.div_eucl m' (Zpos my)) as [q r]. destruct Hdiv as [Hq Hr].
  (* the powers involved *)
  set (A' := 2 ^ (d2 - 1)) in *. set (B := 2 ^ (d1 - 1)) in *. set (P := 2 ^ s) in *.
  assert (HA : 2 ^ d2 = 2 * A').
  { unfold A'. replace d2 with (Z.succ (d2 - 1)) at 1 by lia.
    apply Z.pow_succ_r. lia. }
  assert (HB : 2 ^ d1 = 2 * B).
  { unfold B. replace d1 with (Z.succ (d1 - 1)) at 1 by lia.
    apply Z.pow_succ_r. lia. }
  assert (HBP : B * P = 2 ^ 53 * A').
  { unfold B, P, A', s. rewrite <- !Z.pow_add_r by lia. f_equal. lia. }
  rewrite HA in Hmy. rewrite HB in Hmx.
  assert (HA'pos : 0 < A') by (apply pow2_pos; lia).
  assert (HPpos : 0 < P) by (apply pow2_pos; lia).
  assert (Hlo : 2 ^ 52 * Zpos my < m') by (unfold m'; pow_consts; nia).
  assert (Hhi : m' < 2 ^ 54 * Zpos my) by (unfold m'; pow_consts; nia).
  assert (Hqb : 2 ^ 52 ≤ q < 2 ^ 54) by (pow_consts; nia).
  destruct (binary_round_aux_lower false q (ex - ey - s) (new_location (Zpos my) r) Hqb)
    as [Hinf|(mz & k & Hfin & Hk & Hmz & Hlow)].
  { pose proof (Zdigits2_bounds q ltac:(pow_consts; lia)) as Hdq.
    assert (52 < Zdigits2 q).
    { destruct (Z.le_gt_cases (Zdigits2 q) 52) as [Hle|]; [|done].
      assert (2 ^ Zdigits2 q ≤ 2 ^ 52) by (apply Z.pow_le_mono_r; lia). lia. }
    unfold s. lia. }
  - by left.
  - right. exists mz, k. split_and!; [exact Hfin | lia | lia | lia | lia |].
    assert (0 < 2 ^ k) by (apply pow2_pos; lia).
    pow_consts. change (2 ^ 51) with 2251799813685248. nia.
Qed.

Lemma valid_finite s m e :
  SpecFloat.valid_binary prec emax (S754_finite s m e) = true →
  Z.max (Zpos (digits2_pos m) + e - 53) (-1074) = e ∧ e ≤ 971.
Proof.
  unfold SpecFloat.valid_binary, bounded, canonical_mantissa.
  rewrite fexp_eq. intros [H1 H2]%andb_true_iff.
  apply Z.eqb_eq in H1. apply Z.leb_le in H2.
  split; [done|]. by change (emax - prec) with 971 in H2.
Qed.

Local Close Scope Z_scope.
Local Open Scope Q_scope.

Lemma Qpow2_pos e : 0 < 2 ^ e.
Proof. by apply Qpower_0_lt. Qed.

Lemma Qpow2_add a b : 2 ^ (a + b) == 2 ^ a * 2 ^ b.
Proof. by apply Qpower_plus. Qed.

Lemma Qpow2_inject k : (0 ≤ k)%Z → inject_Z (2 ^ k) == 2 ^ k.
Proof. intros. by rewrite Zpower_Qpower. Qed.

(** An inequality between integers, scaled by a power of 2. *)
Lemma Qle_scale (a b e : Z) :
  (a ≤ b)%Z → inject_Z a * 2 ^ e <= inject_Z b * 2 ^ e.
Proof.
  intros H. apply Qmult_le_compat_r; [|apply Qlt_le_weak, Qpow2_pos].
  by rewrite <- Zle_Qle.
Qed.

Lemma SFval_pos m e : 0 < SFval false m e.
Proof.
  unfold SFval. cbn [cond_Zopp].
  apply Qmult_lt_0_compat; [|apply Qpow2_pos].
  by change 0 with (inject_Z 0); rewrite <- Zlt_Qlt.
Qed.

(** The value of a number lies between the powers of 2 that its digits
    and exponent give. *)
Lemma SFval_bounds m e :
  2 ^ (Zpos (digits2_pos m) + e - 1) <= SFval false m e
  ∧ SFval false m e < 2 ^ (Zpos (digits2_pos m) + e).
Proof.
  pose proof (digits2_pos_bounds m) as [Hl Hu].
  unfold SFval. cbn [cond_Zopp]. split.
  - replace (Zpos (digits2_pos m) + e - 1)%Z with ((Zpos (digits2_pos m) - 1) + e)%Z by lia.
    rewrite Qpow2_add, <- (Qpow2_inject (Zpos (digits2_pos m) - 1)) by lia.
    by apply Qle_scale.
  - rewrite Qpow2_add, <- (Qpow2_inject (Zpos (digits2_pos m))) by lia.
    apply Qmult_lt_compat_r; [apply Qpow2_pos|]. by rewrite <- Zlt_Qlt.
Qed.

(** What [x < y] being false says, for a positive finite [y]. *)
Lemma SFltb_false x my ey :
  SpecFloat.valid_binary prec emax x = true →
  SpecFloat.valid_binary prec emax (S754_finite false my ey) = true →
  SFltb x (S754_finite false my ey) = false →
  x = S754_nan ∨ x = S754_infinity false
  ∨ ∃ mx ex, x = S754_finite false mx ex
             ∧ SFval false my ey <= SFval false mx ex
             ∧ (Zpos (digits2_pos my) + ey ≤ Zpos (digits2_pos mx) + ex)%Z.
Proof.
  intros Hx Hy. destruct x as [s|s| |s mx ex]; unfold SFltb; simpl.
  - by destruct s.
  - destruct s; [done|auto].
  - auto.
  - destruct s; [done|]. intros Hc. right. right. exists mx, ex. split; [done|].
    apply valid_finite in Hx as [Hcx _]. apply valid_finite in Hy as [Hcy _].
    pose proof (digits2_pos_bounds mx) as [Hlx Hux].
    pose proof (digits2_pos_bounds my) as [Hly Huy].
    destruct (Z.compare_spec ex ey) as [Heq|Hlt|Hgt]; [|done|].
    + subst ey. assert (Hm : (Zpos my ≤ Zpos mx)%Z).
      { change (Pos.compare_cont Eq mx my) with (mx ?= my)%positive in Hc.
        destruct (Pos.compare_spec mx my) as [->|?|?]; [lia | done | lia]. }
      split; [by apply Qle_scale|].
      assert (Zpos (digits2_pos my) ≤ Zpos (digits2_pos mx))%Z; [|lia].
      destruct (Z.le_gt_cases (Zpos (digits2_pos my)) (Zpos (digits2_pos mx))) as [|Hgt]; [done|].
      assert (2 ^ Zpos (digits2_pos mx) ≤ 2 ^ (Zpos (digits2_pos my) - 1))%Z
        by (apply Z.pow_le_mono_r; lia). lia.
    + assert (Hd : (Zpos (digits2_pos my) + ey < Zpos (digits2_pos mx) + ex)%Z) by lia.
      split; [|lia].
      destruct (SFval_bounds mx ex) as [Hvx _]. destruct (SFval_bounds my ey) as [_ Hvy].
      apply Qlt_le_weak. eapply Qlt_le_trans; [exact Hvy|].
      eapply Qle_trans; [|exact Hvx].
      apply Qpower_le_compat_l; [lia | done].
Qed.

(** The division bound on values: the quotient computed is an infinity
    or a finite number [z] with [x / y * (1 - 2^-51) <= z]. *)
Lemma SFdiv_value mx ex my ey :
  (Zpos (digits2_pos mx) ≤ 53)%Z →
  (-1074 ≤ Zpos (digits2_pos mx) + ex - (Zpos (digits2_pos my) + ey) - 53)%Z →
  SFdiv prec emax (S754_finite false mx ex) (S754_finite false my ey)
  = S754_infinity false
  ∨ ∃ mz ez,
      SFdiv prec emax (S754_finite false mx ex) (S754_finite false my ey)
      = S754_finite false mz ez
      ∧ (Zpos (digits2_pos mx) + ex - (Zpos (digits2_pos my) + ey)
         ≤ Zpos (digits2_pos mz) + ez)%Z
      ∧ SFval false mx ex * (2 ^ 51 - 1)
        <= SFval false mz ez * SFval false my ey * 2 ^ 51.
Proof.
  intros Hd1 HE.
  destruct (SFdiv_lower mx ex my ey Hd1 HE)
    as [?|(mz & k & Hfin & Hk & Hmz & Hlow)]; [by left|right].
  set (s := (53 + Zpos (digits2_pos my) - Zpos (digits2_pos mx))%Z) in *.
  exists mz, (ex - ey - s + k)%Z. split; [done|]. split.
  - rewrite (digits2_pos_unique mz 53) by (simpl; lia). unfold s. lia.
  - unfold SFval. cbn [cond_Zopp].
    assert (Hs : (0 ≤ s)%Z) by (pose proof (digits2_pos_bounds my); unfold s; lia).
    rewrite Zle_Qle in Hlow.
    rewrite !inject_Z_mult, !Qpow2_inject in Hlow by lia.
    replace (inject_Z (2 ^ 51 - 1)) with (2 ^ 51 - 1) in Hlow by reflexivity.
    replace ex with (s + (ex - s))%Z at 1 by lia.
    replace (ex - ey - s + k)%Z with (k + (ex - s) + - ey)%Z by lia.
    rewrite !Qpow2_add, Qpower_opp.
    pose proof (Qpow2_pos (ex - s)) as Hp. pose proof (Qpow2_pos ey) as Hq.
    set (X := inject_Z (Zpos mx)) in *. set (Y := inject_Z (Zpos my)) in *.
    set (Zz := inject_Z (Zpos mz)) in *.
    set (Ps := 2 ^ s) in *. set (Pk := 2 ^ k) in *.
    set (Pe := 2 ^ (ex - s)) in *. set (Py := 2 ^ ey) in *.
    assert (Heq : Zz * (Pk * Pe * / Py) * (Y * Py) * 2 ^ 51
                  == (Zz * Pk * Y * 2 ^ 51) * Pe) by (field; lra).
    rewrite Heq.
    assert (Heq' : X * (Ps * Pe) * (2 ^ 51 - 1) == (X * Ps * (2 ^ 51 - 1)) * Pe) by ring.
    rewrite Heq'.
    apply Qmult_le_compat_r; [done | lra].
Qed.

(** ** From the specification to the primitive numbers *)

Lemma Prim2SF_inj x y : Prim2SF x = Prim2SF y → x = y.
Proof. intros H. by rewrite <- (SF2Prim_Prim2SF x), H, SF2Prim_Prim2SF. Qed.

Lemma isFinite_sub_diag x : isFinite x = true → (x - x)%float = 0%float.
Proof.
  unfold isFinite. intros Hx. apply Prim2SF_inj. rewrite sub_spec.
  change (Prim2SF 0) with (S754_zero false).
  destruct (Prim2SF x) as [s|s| |s m e]; try done.
  - by destruct s.
  - unfold SF64sub, SFsub. by rewrite Z.sub_diag.
Qed.

Lemma ltb_0_cases x :
  PrimFloat.ltb 0 x = true →
  Prim2SF x = S754_infinity false ∨ ∃ m e, Prim2SF x = S754_finite false m e.
Proof.
  rewrite ltb_spec. change (Prim2SF 0) with (S754_zero false).
  destruct (Prim2SF x) as [s|[]| |[] m e]; try done; eauto.
Qed.

Lemma ltb_0_pos x :
  (Prim2SF x = S754_infinity false ∨ ∃ m e, Prim2SF x = S754_finite false m e) →
  PrimFloat.ltb 0 x = true.
Proof.
  rewrite ltb_spec. change (Prim2SF 0) with (S754_zero false).
  by intros [->|(m & e & ->)].
Qed.

Lemma eqb_0_not_pos x : PrimFloat.eqb x 0 = true → PrimFloat.ltb 0 x = false.
Proof.
  rewrite FloatAxioms.eqb_spec, ltb_spec. change (Prim2SF 0) with (S754_zero false).
  by destruct (Prim2SF x) as [s|[]| |[] m e].
Qed.

Lemma Prim2SF_1000 : Prim2SF 1000 = S754_finite false 8796093022208000 (-43).
Proof. reflexivity. Qed.

Lemma valid_digits s m e :
  SpecFloat.valid_binary prec emax (S754_finite s m e) = true →
  (Zpos (digits2_pos m) ≤ 53 ∧ Zpos (digits2_pos m) + e ≤ 1024)%Z.
Proof. intros [H1 H2]%valid_finite. lia. Qed.

(** [1000 / fps] for a positive finite [fps]: an infinity, or a positive
    number within one part in [2^51] below the quotient. *)
Lemma interval_value fps m e :
  Prim2SF fps = S754_finite false m e →
  Prim2SF (1000 / fps) = S754_infinity false
  ∨ ∃ mz ez,
      Prim2SF (1000 / fps) = S754_finite false mz ez
      ∧ (10 - (Zpos (digits2_pos m) + e) ≤ Zpos (digits2_pos mz) + ez)%Z
      ∧ 1000 * (2 ^ 51 - 1) <= SFval false mz ez * SFval false m e * 2 ^ 51.
Proof.
  intros Hf. pose proof (Prim2SF_valid fps) as Hv. rewrite Hf in Hv.
  apply valid_digits in Hv as [Hd Hde].
  rewrite div_spec, Hf, Prim2SF_1000.
  destruct (SFdiv_value 8796093022208000 (-43) m e) as [?|(mz & ez & Hz & Hdz & Hval)];
    [simpl; lia | simpl; lia | by left | right].
  exists mz, ez. split; [done|]. split; [simpl in Hdz; lia|].
  assert (H1000 : SFval false 8796093022208000 (-43) == 1000) by reflexivity.
  by rewrite H1000 in Hval.
Qed.

(** A positive finite target frame rate gives a positive interval. *)
Lemma interval_pos fps :
  isFinite fps = true → PrimFloat.ltb 0 fps = true →
  PrimFloat.ltb 0 (1000 / fps) = true.
Proof.
  intros Hfin Hpos. apply ltb_0_pos.
  destruct (ltb_0_cases fps Hpos) as [Hinf|(m & e & Hf)].
  { unfold isFinite in Hfin. by rewrite Hinf in Hfin. }
  destruct (interval_value fps m e Hf) as [?|(mz & ez & ? & _)]; eauto.
Qed.

Lemma value_finite x s m e : Prim2SF x = S754_finite s m e → value x = SFval s m e.
Proof. unfold value. by intros ->. Qed.

(** A quotient by 1000 that is finite comes from a finite number. *)
Lemma div_1000_finite x :
  isFinite (x / 1000) = true →
  Prim2SF x ≠ S754_nan ∧ Prim2SF x ≠ S754_infinity false.
Proof.
  unfold isFinite. rewrite div_spec, Prim2SF_1000.
  by destruct (Prim2SF x) as [s|[]| |s m e].
Qed.

(** The [delta] of a frame under a cap: a [deltaMs] that is not below
    [1000 / fps] gives a [delta] of at least [1 / fps], up to the
    rounding of the two divisions. *)
Lemma frame_delta_bound fps deltaMs :
  PrimFloat.ltb 0 fps = true →
  isFinite fps = true →
  value fps <= 2 ^ 1000 →
  PrimFloat.ltb deltaMs (1000 / fps) = false →
  isFinite (deltaMs / 1000) = true →
  1 / value fps * (1 - tolerance) <= value (deltaMs / 1000).
Proof.
  intros Hpos Hfin Hmax Hlt Hdfin.
  destruct (ltb_0_cases fps Hpos) as [Hinf|(m & e & Hf)].
  { unfold isFinite in Hfin. by rewrite Hinf in Hfin. }
  destruct (div_1000_finite _ Hdfin) as [Hnan Hninf].
  rewrite ltb_spec in Hlt.
  rewrite (value_finite fps _ _ _ Hf) in *.
  (* the digits of the frame rate *)
  assert (Hde : (Zpos (digits2_pos m) + e ≤ 1001)%Z).
  { destruct (SFval_bounds m e) as [Hl _].
    assert (Hle : 2 ^ (Zpos (digits2_pos m) + e - 1) <= 2 ^ 1000)
      by (eapply Qle_trans; [exact Hl | exact Hmax]).
    apply Qpower_le_compat_l_inv in Hle; [lia | reflexivity]. }
  destruct (interval_value fps m e Hf) as [Hi|(mi & ei & Hi & Hdi & Hvi)];
    rewrite Hi in Hlt.
  { exfalso. destruct (Prim2SF deltaMs) as [s|[]| |[] mx ex]; try done;
      by destruct s. }
  pose proof (Prim2SF_valid deltaMs) as Hvd.
  pose proof (Prim2SF_valid (1000 / fps)) as Hvi'. rewrite Hi in Hvi'.
  destruct (SFltb_false _ mi ei Hvd Hvi' Hlt)
    as [?|[?|(mx & ex & Hx & Hvx & Hdx)]]; [done | done |].
  rewrite Hx in Hvd. apply valid_digits in Hvd as [Hd53 _].
  pose proof Hdfin as Hq. unfold isFinite in Hq.
  rewrite div_spec, Hx, Prim2SF_1000 in Hq. unfold SF64div in Hq.
  destruct (SFdiv_value mx ex 8796093022208000 (-43)) as [Hz|(mz & ez & Hz & _ & Hvz)];
    [done | simpl; lia | by rewrite Hz in Hq |].
  assert (H1000 : SFval false 8796093022208000 (-43) == 1000) by reflexivity.
  rewrite H1000 in Hvz.
  rewrite (value_finite (deltaMs / 1000) false mz ez)
    by (by rewrite div_spec, Hx, Prim2SF_1000; unfold SF64div; rewrite Hz).
  pose proof (SFval_pos m e) as HA. pose proof (SFval_pos mi ei) as HM.
  pose proof (SFval_pos mx ex) as HD. pose proof (SFval_pos mz ez) as HL.
  set (A := SFval false m e) in *. set (M := SFval false mi ei) in *.
  set (D := SFval false mx ex) in *. set (L := SFval false mz ez) in *.
  assert (Hc : 2 ^ 51 == 2251799813685248) by reflexivity.
  assert (Ht : tolerance == 1 # 1125899906842624) by reflexivity.
  rewrite Hc in Hvi, Hvz. rewrite Ht.
  assert (Hg : 1 / A * (1 - (1 # 1125899906842624))
               == (1 - (1 # 1125899906842624)) / A) by (field; lra).
  rewrite Hg. apply Qle_shift_div_r; [done|].
  assert (H1 : D * (2251799813685248 - 1) <= L * 1000 * 2251799813685248) by done.
  assert (H2 : 1000 * (2251799813685248 - 1) <= M * A * 2251799813685248) by done.
  assert (H3 : M * (2251799813685248 - 1) <= L * 1000 * 2251799813685248) by nra.
  assert (H4 : 1000 * (2251799813685248 - 1) * (2251799813685248 - 1)
               <= L * A * 1000 * 2251799813685248 * 2251799813685248) by nra.
  clear - H4. set (P := L * A) in *. clearbody P.
  assert (H5 : 1000 * (2251799813685248 - 1) * (2251799813685248 - 1)
               == 5070602400912913102387185451009000) by reflexivity.
  assert (H6 : P * 1000 * 2251799813685248 * 2251799813685248
               == P * 5070602400912917605986812821504000) by ring.
  rewrite H5, H6 in H4. lra.
Qed.

Local Close Scope Q_scope.

(** [x <= 0] excludes [0 < x]. *)
Lemma leb_0_not_pos x : PrimFloat.leb x 0 = true → PrimFloat.ltb 0 x = false.
Proof.
  rewrite leb_spec, ltb_spec. change (Prim2SF 0) with (S754_zero false).
  by destruct (Prim2SF x) as [s|[]| |[] m e].
Qed.

(* ================================================================== *)
(** * The frame clock *)
(* ================================================================== *)

(** The invariant holds for a new clock and every method keeps it. *)
Lemma new_interval now fps : interval_consistent (Time.new now fps).
Proof. done. Qed.

Lemma set_targetFPS_interval t fps :
  interval_consistent (Time.set_targetFPS t fps).
Proof. done. Qed.

Lemma tick_interval t h now :
  interval_consistent t → interval_consistent (Time.tick t h now).1.1.
Proof.
  unfold interval_consistent, Time.tick. intros Hi.
  destruct (Time._isRunning t); simpl; [|done].
  destruct (_ && _); simpl; [done|].
  destruct (PrimFloat.leb _ _); simpl; done.
Qed.

Lemma start_interval t h now cb :
  interval_consistent t → interval_consistent (Time.start t h now cb).1.1.
Proof.
  intros Hi. unfold Time.start.
  destruct (Time._isRunning t); [done|]. by apply tick_interval.
Qed.

Lemma stop_interval t : interval_consistent t → interval_consistent (Time.stop t).1.
Proof.
  unfold interval_consistent, Time.stop. by destruct (Time.rafId t).
Qed.

Lemma reset_interval t now :
  interval_consistent t → interval_consistent (Time.reset t now).
Proof. done. Qed.

(** The two ways through a tick of a running clock. *)
Lemma tick_skip t h now :
  Time._isRunning t = true →
  PrimFloat.ltb 0 (Time._targetFPS t)
  && PrimFloat.ltb (now - Time.lastFrameTime t) (Time.minFrameTime t) = true →
  Time.tick t h now =
  (Time.with_rafId t (Some (Time.nextHandle h)),
   Time.mkHost (S (Time.nextHandle h)),
   [Time.RequestAnimationFrame (Time.nextHandle h)]).
Proof. unfold Time.tick. by intros -> ->. Qed.

Lemma tick_frame t h now :
  Time._isRunning t = true →
  PrimFloat.ltb 0 (Time._targetFPS t)
  && PrimFloat.ltb (now - Time.lastFrameTime t) (Time.minFrameTime t) = false →
  let '(t', h', evs) := Time.tick t h now in
  Time.lastFrameTime t' = now
  ∧ Time._delta t' = ((now - Time.lastFrameTime t) / 1000)%float
  ∧ Time._elapsed t' = ((now - Time.startTime t) / 1000)%float
  ∧ Time._frameCount t' = (Time._frameCount t + 1)%Z
  ∧ Time.startTime t' = Time.startTime t
  ∧ Time._isRunning t' = true
  ∧ Time.updateCallback t' = Time.updateCallback t
  ∧ Time.rafId t' = Some (Time.nextHandle h)
  ∧ evs = match Time.updateCallback t with
          | Some cb => [Time.Callback cb (Time._delta t') (Time._elapsed t')]
          | None => []
          end ++ [Time.RequestAnimationFrame (Time.nextHandle h)].
Proof.
  unfold Time.tick. intros Hrun ->. rewrite Hrun. simpl.
  destruct (PrimFloat.leb _ _); simpl; by rewrite ?Hrun.
Qed.

(** A tick function called on a stopped clock returns at once. *)
Lemma tick_stopped t h now :
  Time._isRunning t = false → Time.tick t h now = (t, h, []).
Proof. unfold Time.tick. by intros ->. Qed.

(** What the constructor and the setter store for a target above 0. *)
Lemma frameInterval_pos fps :
  PrimFloat.ltb 0 fps = true → Time.frameInterval fps = (1000 / fps)%float.
Proof. unfold Time.frameInterval. by intros ->. Qed.

(** C7.  On a tick with a target frame rate above 0 and a [deltaMs] below
    [1000 / targetFPS] (the quotient as the clock stores it, a binary64
    number), the callback is not called and [lastFrameTime] stays; the
    running clock does nothing but request the next frame.  Hence a
    [delta] handed to the callback under a cap is [deltaMs / 1000] for a
    [deltaMs] that is not below that quotient, and for a finite target up
    to [2^1000] it is at least [1 / targetFPS] seconds up to the rounding
    of the two divisions, one part in [2^50].  With a target frame rate
    of 0 every tick of the running clock is a frame. *)
Theorem tick_frame_cap t h now :
  interval_consistent t →
  let fps := Time._targetFPS t in
  let deltaMs := (now - Time.lastFrameTime t)%float in
  let '(t', h', evs) := Time.tick t h now in
  (PrimFloat.ltb 0 fps = true ∧ PrimFloat.ltb deltaMs (1000 / fps) = true →
     Time.lastFrameTime t' = Time.lastFrameTime t
     ∧ (∀ cb d e, Time.Callback cb d e ∉ evs)
     ∧ (Time._isRunning t = true →
        t' = Time.with_rafId t (Some (Time.nextHandle h))
        ∧ evs = [Time.RequestAnimationFrame (Time.nextHandle h)]))
  ∧ (∀ cb d e, Time.Callback cb d e ∈ evs → PrimFloat.ltb 0 fps = true →
       d = (deltaMs / 1000)%float
       ∧ PrimFloat.ltb deltaMs (1000 / fps) = false
       ∧ (isFinite fps = true → (value fps <= 2 ^ 1000)%Q → isFinite d = true →
          (1 / value fps * (1 - tolerance) <= value d)%Q))
  ∧ (PrimFloat.eqb fps 0 = true → Time._isRunning t = true →
     Time.lastFrameTime t' = now
     ∧ Time._frameCount t' = (Time._frameCount t + 1)%Z
     ∧ ∀ cb, Time.updateCallback t = Some cb →
         Time.Callback cb (deltaMs / 1000)%float
                       ((now - Time.startTime t) / 1000)%float ∈ evs).
Proof.
  intros Hi fps deltaMs.
  destruct (Time._isRunning t) eqn:Hrun; cycle 1.
  { rewrite (tick_stopped t h now Hrun). split_and!; try done.
    - intros _. split_and!; [done | | done].
      intros cb d e Hin. by apply elem_of_nil in Hin.
    - intros cb d e Hin. by apply elem_of_nil in Hin. }
  destruct (PrimFloat.ltb 0 fps && PrimFloat.ltb deltaMs (Time.minFrameTime t)) eqn:Hcap.
  - rewrite (tick_skip t h now Hrun Hcap).
    apply andb_true_iff in Hcap as [Hpos _].
    split_and!.
    + intros _. split_and!; [done | | done].
      intros cb d e Hin. apply list_elem_of_singleton in Hin. discriminate.
    + intros cb d e Hin. apply list_elem_of_singleton in Hin. discriminate.
    + intros Hz. apply eqb_0_not_pos in Hz. fold fps in Hpos. congruence.
  - pose proof (tick_frame t h now Hrun Hcap) as Hf.
    destruct (Time.tick t h now) as [[t' h'] evs].
    destruct Hf as (Hlast & Hd & He & Hfc & _ & _ & _ & _ & Hevs).
    assert (Hnot : PrimFloat.ltb 0 fps = true →
                   PrimFloat.ltb deltaMs (1000 / fps) = false).
    { intros Hpos. rewrite Hi in Hcap. fold fps in Hcap.
      rewrite (frameInterval_pos fps Hpos), Hpos in Hcap. exact Hcap. }
    split_and!.
    + intros [Hpos Hlt]. rewrite (Hnot Hpos) in Hlt. discriminate.
    + intros cb d e Hin Hpos. rewrite Hevs in Hin.
      apply elem_of_app in Hin as [Hin|Hin];
        [|apply list_elem_of_singleton in Hin; discriminate].
      destruct (Time.updateCallback t); [|by apply elem_of_nil in Hin].
      apply list_elem_of_singleton in Hin. injection Hin as _ -> _.
      rewrite Hd. fold deltaMs. split_and!; [done | by apply Hnot |].
      intros Hfin Hmax Hdfin.
      by apply frame_delta_bound; [| | | apply Hnot |].
    + intros _ _. split_and!; [done | done |].
      intros cb Hcb. rewrite Hevs, Hcb, Hd, He.
      apply elem_of_app. left. by apply list_elem_of_singleton.
Qed.

Lemma tick_frame_cap_witness :
  interval_consistent clock60_started.1
  ∧ (let '(t', h', evs) := Time.tick clock60_started.1 clock60_started.2 5010 in
     Time.lastFrameTime t' = Time.lastFrameTime clock60_started.1
     ∧ evs = [Time.RequestAnimationFrame (Time.nextHandle clock60_started.2)])
  ∧ (let '(t', h', evs) := Time.tick clock60_started.1 clock60_started.2 5020 in
     ∀ cb d e, Time.Callback cb d e ∈ evs →
       d = (20 / 1000)%float ∧ (1 / 60 * (1 - tolerance) <= value d)%Q).
Proof.
  assert (Hi : interval_consistent clock60_started.1) by reflexivity.
  split; [exact Hi|]. split.
  - pose proof (tick_frame_cap clock60_started.1 clock60_started.2 5010 Hi) as H.
    cbv zeta in H.
    destruct (Time.tick clock60_started.1 clock60_started.2 5010) as [[t' h'] evs].
    destruct H as (H & _ & _).
    destruct H as (H1 & _ & H2); [split; reflexivity|].
    destruct H2 as [_ H2]; [reflexivity|]. by split.
  - pose proof (tick_frame_cap clock60_started.1 clock60_started.2 5020 Hi) as H.
    cbv zeta in H.
    destruct (Time.tick clock60_started.1 clock60_started.2 5020) as [[t' h'] evs].
    destruct H as (_ & H & _).
    intros cb d e Hin. destruct (H cb d e Hin eq_refl) as (Hd & _ & Hb).
    split; [exact Hd|].
    assert (H60 : (value (Time._targetFPS clock60_started.1) == 60)%Q) by reflexivity.
    rewrite <- H60. apply Hb; [reflexivity | by vm_compute | by rewrite Hd].
Defined.

(** The bound of C7 without the tolerance fails: with a target of 3
    frames per second, a tick exactly [1000 / 3] ms (as a binary64 number)
    after the last frame is a frame, and its [delta] is below [1 / 3]. *)
Example frame_delta_below_exact :
  (Time.tick clock3.1 clock3.2 (1000 / 3)%float).2
  = [Time.Callback 1 (1000 / 3 / 1000) (1000 / 3 / 1000);
     Time.RequestAnimationFrame 1]
  ∧ (value (1000 / 3 / 1000) < 1 / 3)%Q
  ∧ (1 / 3 * (1 - tolerance) <= value (1000 / 3 / 1000))%Q.
Proof. split; [by vm_compute|]. split; by vm_compute. Qed.

(** C8 (as the code has it).  [start] on a running clock only warns: the
    clock, the host and every counter stay as they are.  On a stopped
    clock it stores the callback, sets the running flag, sets
    [lastFrameTime] to the current time and leaves [startTime] as the
    constructor or [reset] set it, then runs [tick] once itself, with a
    [deltaMs] of 0: under a cap, that is a target frame rate above 0
    with an interval above 0 (as every finite target above 0 gives), that
    tick only requests an animation frame; without a cap it calls the
    callback at once, with [delta] 0 and [elapsed] counted from
    [startTime], and then requests the frame. *)
Theorem start_spec t h now cb :
  interval_consistent t →
  isFinite now = true →
  let '(t', h', evs) := Time.start t h now cb in
  if Time._isRunning t then
    t' = t ∧ h' = h ∧ evs = [Time.Warn "Time loop is already running"]
  else
    let capped := PrimFloat.ltb 0 (Time._targetFPS t)
                  && PrimFloat.ltb 0 (Time.minFrameTime t) in
    Time._isRunning t' = true
    ∧ Time.updateCallback t' = Some cb
    ∧ Time.startTime t' = Time.startTime t
    ∧ Time.lastFrameTime t' = now
    ∧ Time.rafId t' = Some (Time.nextHandle h)
    ∧ (isFinite (Time._targetFPS t) = true →
       capped = PrimFloat.ltb 0 (Time._targetFPS t))
    ∧ if capped then
        evs = [Time.RequestAnimationFrame (Time.nextHandle h)]
        ∧ Time._frameCount t' = Time._frameCount t
        ∧ Time._delta t' = Time._delta t
        ∧ Time._elapsed t' = Time._elapsed t
      else
        evs = [Time.Callback cb 0 ((now - Time.startTime t) / 1000)%float;
               Time.RequestAnimationFrame (Time.nextHandle h)]
        ∧ Time._delta t' = 0%float
        ∧ Time._frameCount t' = (Time._frameCount t + 1)%Z.
Proof.
  intros Hi Hnow. unfold Time.start.
  destruct (Time._isRunning t) eqn:Hrun; [done|].
  set (t1 := Time.mk _ _ _ _ _ _ _ _ _ _ _ _ _).
  assert (Hrun1 : Time._isRunning t1 = true) by done.
  assert (Hdelta : (Time.lastFrameTime t1 - Time.lastFrameTime t1)%float = 0%float)
    by (by apply isFinite_sub_diag).
  assert (Hcapped : isFinite (Time._targetFPS t) = true →
    PrimFloat.ltb 0 (Time._targetFPS t) && PrimFloat.ltb 0 (Time.minFrameTime t)
    = PrimFloat.ltb 0 (Time._targetFPS t)).
  { intros Hfin. destruct (PrimFloat.ltb 0 (Time._targetFPS t)) eqn:Hpos; [|done].
    rewrite Hi, (frameInterval_pos _ Hpos). by rewrite interval_pos. }
  cbv zeta.
  destruct (PrimFloat.ltb 0 (Time._targetFPS t)
            && PrimFloat.ltb 0 (Time.minFrameTime t)) eqn:Hcap.
  - rewrite tick_skip; [done | done |].
    by rewrite Hdelta.
  - pose proof (tick_frame t1 h (Time.lastFrameTime t1) Hrun1) as Hf.
    destruct (Time.tick t1 h (Time.lastFrameTime t1)) as [[t' h'] evs].
    destruct Hf as (Hlast & Hd & He & Hfc & Hst & Hr & Hcb & Hraf & Hevs).
    { by rewrite Hdelta. }
    rewrite Hdelta in Hd. change (0 / 1000)%float with 0%float in Hd.
    split_and!; try done.
    by rewrite Hevs, Hd, He.
Qed.

Lemma start_spec_witness :
  interval_consistent clock60
  ∧ isFinite 5000 = true
  ∧ let '(t', h', evs) := Time.start clock60 host0 5000 1 in
    Time._isRunning t' = true
    ∧ Time.startTime t' = 0%float
    ∧ Time.lastFrameTime t' = 5000%float
    ∧ evs = [Time.RequestAnimationFrame 0].
Proof.
  assert (Hi : interval_consistent clock60) by reflexivity.
  split; [exact Hi|]. split; [reflexivity|].
  pose proof (start_spec clock60 host0 5000 1 Hi eq_refl) as H.
  destruct (Time.start clock60 host0 5000 1) as [[t' h'] evs].
  change (Time._isRunning clock60) with false in H. cbv iota zeta in H.
  change (PrimFloat.ltb 0 (Time._targetFPS clock60)
          && PrimFloat.ltb 0 (Time.minFrameTime clock60)) with true in H.
  cbv iota in H. destruct H as (H1 & _ & H3 & H4 & _ & _ & H6 & _).
  split_and!; [exact H1 | exact H3 | exact H4 | exact H6].
Defined.

(** C8 (counterexample).  A clock built at time 0 and started at time
    5000 ms keeps 0 as its [startTime].  Without a cap, [start] calls the
    callback at once with an [elapsed] of 5 seconds; with the default cap,
    the frame at 5020 ms reports an [elapsed] of 5.02 seconds: [elapsed]
    counts from construction, not from the start of the loop.  Without a
    cap the first frame is also run by [start] itself, before any
    animation frame is requested. *)
Lemma start_keeps_startTime :
  (let '(t', h', evs) := Time.start clock0 host0 5000 1 in
   Time.startTime t' = 0%float
   ∧ Time.startTime t' ≠ 5000%float
   ∧ evs = [Time.Callback 1 0 5; Time.RequestAnimationFrame 0])
  ∧ (let '(t', h', evs) := Time.tick clock60_started.1 clock60_started.2 5020 in
     evs = [Time.Callback 1 (20 / 1000) (5020 / 1000); Time.RequestAnimationFrame 1]).
Proof.
  split.
  - vm_compute. split; [done|]. split; [|done].
    intros H. by apply (f_equal Prim2SF) in H.
  - by vm_compute.
Qed.


(* ================================================================== *)
(** * Further facts: the stores of the World *)
(* ================================================================== *)

Section JsMap_more.
Context {K V : Type} `{EqDecision K}.
Implicit Types (m : list (K * V)) (k : K) (v : V).

Lemma JsMap_get_Some_elem m k v : JsMap.get m k = Some v → (k, v) ∈ m.
Proof.
  induction m as [|[k' v'] m IH]; simpl; [done|].
  destruct (decide (k = k')) as [->|Hne].
  - intros [= ->]. apply list_elem_of_here.
  - intros Hg. apply list_elem_of_further. auto.
Qed.

Lemma JsMap_elem_get m k v :
  NoDup (JsMap.keys m) → (k, v) ∈ m → JsMap.get m k = Some v.
Proof.
  unfold JsMap.keys. induction m as [|[k' v'] m IH]; simpl.
  - intros _ Hin. by apply elem_of_nil in Hin.
  - rewrite NoDup_cons. intros [Hk' Hm] Hin.
    apply elem_of_cons in Hin as [[= -> ->]|Hin].
    + by rewrite decide_True.
    + rewrite decide_False; [auto|]. intros ->. apply Hk'.
      apply list_elem_of_fmap. by exists (k', v).
Qed.

Lemma JsMap_elem_set m k v x :
  x ∈ JsMap.set m k v → x = (k, v) ∨ x ∈ m.
Proof.
  induction m as [|[k' v'] m IH]; simpl.
  - intros ->%list_elem_of_singleton. by left.
  - destruct (decide (k = k')) as [->|Hne]; rewrite !elem_of_cons.
    + intros [->|?]; auto.
    + intros [->|?]; [auto|]. destruct IH as [?|?]; auto.
Qed.

Lemma JsMap_elem_delete m k x : x ∈ JsMap.delete m k → x ∈ m.
Proof.
  induction m as [|[k' v'] m IH]; simpl; [done|].
  destruct (decide (k = k')) as [->|Hne]; rewrite ?elem_of_cons.
  - by right.
  - intros [->|?]; auto.
Qed.

Lemma JsMap_get_delete_eq m k :
  NoDup (JsMap.keys m) → JsMap.get (JsMap.delete m k) k = None.
Proof.
  intros Hm. by apply JsMap_get_None, JsMap_keys_delete_notin.
Qed.

Lemma JsMap_size_delete m k :
  JsMap.size (JsMap.delete m k)
  = if JsMap.has m k then pred (JsMap.size m) else JsMap.size m.
Proof.
  unfold JsMap.size, JsMap.has. induction m as [|[k' v'] m IH]; simpl; [done|].
  destruct (decide (k = k')) as [->|Hne]; simpl; [done|].
  rewrite IH. destruct (JsMap.get m k) eqn:Hg; [|done].
  destruct m; [done | simpl; lia].
Qed.

Lemma JsMap_delete_absent m k : JsMap.get m k = None → JsMap.delete m k = m.
Proof.
  induction m as [|[k' v'] m IH]; simpl; [done|].
  destruct (decide (k = k')); [done|]. intros Hg. by rewrite IH.
Qed.
End JsMap_more.

Lemma JsMap_Forall_set {K V} `{EqDecision K} (P : K * V → Prop)
    (m : list (K * V)) k v :
  P (k, v) → Forall P m → Forall P (JsMap.set m k v).
Proof.
  rewrite !Forall_forall. intros Hkv Hm x Hx.
  apply JsMap_elem_set in Hx as [->|Hx]; auto.
Qed.

Lemma JsMap_Forall_delete {K V} `{EqDecision K} (P : K * V → Prop)
    (m : list (K * V)) k :
  Forall P m → Forall P (JsMap.delete m k).
Proof.
  rewrite !Forall_forall. intros Hm x Hx.
  apply JsMap_elem_delete in Hx. auto.
Qed.

Lemma store_consistent_same st st' :
  entities st' = entities st → components st' = components st →
  store_consistent st → store_consistent st'.
Proof. unfold store_consistent. by intros -> ->. Qed.

Lemma components_keyed_same st st' :
  components st' = components st → components_keyed st → components_keyed st'.
Proof. unfold components_keyed. by intros ->. Qed.

Lemma components_keyed_get st i m :
  components_keyed st → JsMap.get (components st) i = Some m →
  NoDup (JsMap.keys m) ∧ Forall (λ kc, Component.className kc.2 = kc.1) m.
Proof.
  intros Hk Hg. apply JsMap_get_Some_elem in Hg.
  unfold components_keyed in Hk. rewrite Forall_forall in Hk.
  apply (Hk _ Hg).
Qed.

Lemma addEntity_components_keyed st e :
  components_keyed st → components_keyed (World.addEntity st e).
Proof.
  intros Hk. unfold components_keyed, World.addEntity. simpl.
  apply JsMap_Forall_set; [|done]. simpl. split; [apply NoDup_nil_2 | done].
Qed.

Lemma removeEntity_components_keyed st i :
  components_keyed st → components_keyed (World.removeEntity st i).1.
Proof. intros Hk. by apply JsMap_Forall_delete. Qed.

Lemma addComponent_components_keyed st i c :
  components_keyed st → components_keyed (World.addComponent st i c).1.2.
Proof.
  intros Hk. unfold World.addComponent.
  destruct (JsMap.get (components st) i) as [m|] eqn:Hg; [|done].
  destruct (components_keyed_get st i m Hk Hg) as [Hnd Hcl].
  unfold components_keyed. simpl. apply JsMap_Forall_set; [|done]. simpl. split.
  - by apply JsMap_NoDup_set.
  - by apply JsMap_Forall_set.
Qed.

Lemma removeComponent_components_keyed st i cls :
  components_keyed st → components_keyed (World.removeComponent st i cls).1.
Proof.
  intros Hk. unfold World.removeComponent.
  destruct (JsMap.get (components st) i) as [m|] eqn:Hg; [|done].
  destruct (components_keyed_get st i m Hk Hg) as [Hnd Hcl].
  destruct (JsMap.get m (ComponentClass.name cls)); [|done].
  unfold components_keyed. simpl. apply JsMap_Forall_set; [|done]. simpl. split.
  - by apply JsMap_NoDup_delete.
  - by apply JsMap_Forall_delete.
Qed.

Lemma clear_final st :
  (World.clear st).1
  = World.clearQueryCache (with_components (with_entities (with_systems st []) []) []).
Proof. done. Qed.

Lemma removeSystem_stores st s :
  entities (World.removeSystem st s).1 = entities st
  ∧ components (World.removeSystem st s).1 = components st
  ∧ entityObj (World.removeSystem st s).1 = entityObj st
  ∧ nextId (World.removeSystem st s).1 = nextId st.
Proof. unfold World.removeSystem. by destruct (JsArray.indexOf _ _). Qed.

Lemma query_stores st cls :
  entities (World.query st cls).2 = entities st
  ∧ components (World.query st cls).2 = components st
  ∧ entityObj (World.query st cls).2 = entityObj st
  ∧ nextId (World.query st cls).2 = nextId st.
Proof. unfold World.query. by destruct (queryCache st !! _). Qed.

(** The heap discipline of entities. *)
Lemma entities_keyed_same st st' :
  entityObj st' = entityObj st → nextId st' = nextId st →
  entities st' = entities st → entities_keyed st → entities_keyed st'.
Proof. unfold entities_keyed. by intros -> -> ->. Qed.

Lemma Entity_new_keyed st name :
  entities_keyed st → entities_keyed (Entity_new st name).2.
Proof.
  intros [Hheap Hmap]. split; simpl.
  - intros r e. destruct (decide (nextId st = r)) as [<-|Hne].
    + rewrite lookup_insert_eq. intros [= <-]. simpl. lia.
    + rewrite lookup_insert_ne by done. intros Hr.
      destruct (Hheap r e Hr). lia.
  - eapply Forall_impl; [exact Hmap|]. intros [k r] [Hk Hr]. split; [done|].
    simpl in *. destruct (decide (nextId st = r)) as [<-|Hne].
    + by rewrite lookup_insert_eq.
    + by rewrite lookup_insert_ne.
Qed.

Lemma set_active_keyed st e b :
  is_Some (entityObj st !! e) → entities_keyed st →
  entities_keyed
    (with_entityObj st (<[e := Entity.set_active b (entityObj st !!! e)]> (entityObj st))).
Proof.
  intros [x Hx] [Hheap Hmap]. rewrite (lookup_total_correct _ _ _ Hx).
  split; simpl.
  - intros r e'. destruct (decide (e = r)) as [<-|Hne].
    + rewrite lookup_insert_eq. intros [= <-]. simpl. by apply Hheap.
    + rewrite lookup_insert_ne by done. apply Hheap.
  - eapply Forall_impl; [exact Hmap|]. intros [k r] [Hk Hr]. split; [done|].
    simpl in *. destruct (decide (e = r)) as [<-|Hne].
    + by rewrite lookup_insert_eq.
    + by rewrite lookup_insert_ne.
Qed.

Lemma addEntity_keyed st e :
  is_Some (entityObj st !! e) → entities_keyed st →
  entities_keyed (World.addEntity st e).
Proof.
  intros [x Hx] [Hheap Hmap]. split; [done|].
  unfold World.addEntity. simpl. rewrite (lookup_total_correct _ _ _ Hx).
  apply JsMap_Forall_set; [|done]. simpl.
  destruct (Hheap e x Hx) as [-> _]. split; [done | by exists x].
Qed.

Lemma removeEntity_keyed st i :
  entities_keyed st → entities_keyed (World.removeEntity st i).1.
Proof.
  intros [Hheap Hmap]. split; [done|]. by apply JsMap_Forall_delete.
Qed.

(** The invariant of the World's stores, by induction on how the state
    was reached. *)
Lemma reachable_inv st :
  reachable st → store_consistent st ∧ components_keyed st ∧ entities_keyed st.
Proof.
  induction 1 as [|st name _ (Hs & Hc & He)|st e _ (Hs & Hc & He) Hx
                  |st e _ (Hs & Hc & He) Hx|st h _ (Hs & Hc & He)
                  |st e _ (Hs & Hc & He) Hx|st i _ (Hs & Hc & He)
                  |st i c _ (Hs & Hc & He)|st i cls _ (Hs & Hc & He)
                  |st cls _ (Hs & Hc & He)|st s _ (Hs & Hc & He)
                  |st s _ (Hs & Hc & He)|st _ (Hs & Hc & He)].
  - split_and!; [apply new_consistent | by constructor |].
    split; [intros r e Hr; cbn in Hr; by rewrite lookup_empty in Hr | by constructor].
  - split_and!; [done | done | by apply Entity_new_keyed].
  - split_and!; [done | done | by apply set_active_keyed].
  - split_and!; [done | done | by apply set_active_keyed].
  - done.
  - split_and!; [by apply addEntity_consistent
                | by apply addEntity_components_keyed | by apply addEntity_keyed].
  - split_and!; [by apply removeEntity_consistent
                | by apply removeEntity_components_keyed | by apply removeEntity_keyed].
  - split_and!; [by apply addComponent_consistent
                | by apply addComponent_components_keyed |].
    unfold World.addComponent. by destruct (JsMap.get (components st) i).
  - split_and!; [by apply removeComponent_consistent
                | by apply removeComponent_components_keyed |].
    unfold World.removeComponent.
    destruct (JsMap.get (components st) i) as [m|]; [|done].
    by destruct (JsMap.get m (ComponentClass.name cls)).
  - destruct (query_stores st cls) as (H1 & H2 & H3 & H4).
    split_and!; [by apply (store_consistent_same st)
                | by apply (components_keyed_same st)
                | by apply (entities_keyed_same st)].
  - done.
  - destruct (removeSystem_stores st s) as (H1 & H2 & H3 & H4).
    split_and!; [by apply (store_consistent_same st)
                | by apply (components_keyed_same st)
                | by apply (entities_keyed_same st)].
  - rewrite clear_final. split_and!.
    + split_and!; [apply NoDup_nil_2 .. | done].
    + by constructor.
    + destruct He as [Hheap _]. split; [done | by constructor].
Qed.

Lemma two_entities_reachable : reachable two_entities.
Proof.
  apply reach_addComponent, reach_addComponent, reach_addComponent.
  apply (reach_addEntity demo2 1); [|by eexists].
  apply (reach_addEntity demo1 0); [|by eexists].
  apply reach_Entity_new, reach_Entity_new, reach_new.
Qed.

(** X1 (invariant).  In every state a program can reach, the entity map
    and the component store have the same ids, each once; every component
    map holds a class name at most once and each component under its own
    class name; and the entity map holds each entity object under the id
    the object carries. *)
Theorem reachable_ok st :
  reachable st → store_consistent st ∧ components_keyed st ∧ entities_keyed st.
Proof. exact (reachable_inv st). Qed.

Lemma reachable_ok_witness :
  reachable two_entities
  ∧ store_consistent two_entities
  ∧ components_keyed two_entities
  ∧ entities_keyed two_entities.
Proof.
  split; [apply two_entities_reachable|].
  apply (reachable_ok two_entities), two_entities_reachable.
Defined.


(* ================================================================== *)
(** * Further facts: queries *)
(* ================================================================== *)

Lemma JsSet_elem_add s x y : x ∈ JsSet.add s y ↔ x ∈ s ∨ x = y.
Proof.
  unfold JsSet.add. destruct (decide (y ∈ s)) as [Hy|Hy].
  - split; [auto|]. by intros [?| ->].
  - rewrite elem_of_app, list_elem_of_singleton. tauto.
Qed.

Lemma JsSet_NoDup_add s y : NoDup s → NoDup (JsSet.add s y).
Proof.
  intros Hs. unfold JsSet.add. destruct (decide (y ∈ s)) as [Hy|Hy]; [done|].
  apply NoDup_app. split_and!; [done | | apply NoDup_singleton].
  by intros x Hx ->%list_elem_of_singleton.
Qed.

(** What the loop of [query] collects. *)
Lemma matching_elem st cls i :
  i ∈ World.matching st cls ↔
  ∃ kr, kr ∈ entities st
        ∧ Entity.id (entityObj st !!! kr.2) = i
        ∧ Entity.active (entityObj st !!! kr.2) = true
        ∧ forallb (World.hasComponent st i) cls = true.
Proof.
  unfold World.matching.
  assert (Hgen : ∀ l acc,
    i ∈ foldl (λ result (kv : nat * ref),
                 let entity := entityObj st !!! kv.2 in
                 if negb (Entity.active entity) then result
                 else if forallb (World.hasComponent st (Entity.id entity)) cls
                      then JsSet.add result (Entity.id entity)
                      else result) acc l
    ↔ i ∈ acc ∨ ∃ kr, kr ∈ l
        ∧ Entity.id (entityObj st !!! kr.2) = i
        ∧ Entity.active (entityObj st !!! kr.2) = true
        ∧ forallb (World.hasComponent st i) cls = true).
  { induction l as [|kv l IH]; intros acc.
    - simpl. split; [auto|]. intros [?|(kr & Hin & _)]; [done|].
      by apply elem_of_nil in Hin.
    - cbn [foldl]. rewrite IH. cbv beta zeta.
      destruct (Entity.active (entityObj st !!! kv.2)) eqn:Hact; cbn [negb].
      + destruct (forallb (World.hasComponent st
                             (Entity.id (entityObj st !!! kv.2))) cls) eqn:Hall.
        * rewrite JsSet_elem_add. split.
          -- intros [[?|Hi]|(kr & Hin & ?)]; [by left | right | right].
             ++ exists kv. subst i. split_and!; [apply list_elem_of_here | done..].
             ++ exists kr. split; [by apply list_elem_of_further | done].
          -- intros [?|(kr & Hin & Hid & Ha & Hf)]; [by left; left|].
             apply elem_of_cons in Hin as [->|Hin].
             ++ left. by right.
             ++ right. by exists kr.
        * split.
          -- intros [?|(kr & Hin & ?)]; [by left | right].
             exists kr. split; [by apply list_elem_of_further | done].
          -- intros [?|(kr & Hin & Hid & Ha & Hf)]; [by left|].
             apply elem_of_cons in Hin as [->|Hin];
               [rewrite Hid in Hall; congruence|].
             right. by exists kr.
      + split.
        * intros [?|(kr & Hin & ?)]; [by left | right].
          exists kr. split; [by apply list_elem_of_further | done].
        * intros [?|(kr & Hin & Hid & Ha & Hf)]; [by left|].
          apply elem_of_cons in Hin as [->|Hin]; [congruence|].
          right. by exists kr. }
  rewrite Hgen. split; [|auto]. intros [Hin|?]; [|done].
  by apply elem_of_nil in Hin.
Qed.

Lemma matching_NoDup st cls : NoDup (World.matching st cls).
Proof.
  unfold World.matching. generalize (NoDup_nil_2 (A := nat)).
  generalize (@nil nat). induction (entities st) as [|kv l IH]; intros acc Hacc; [done|].
  cbn [foldl]. apply IH. cbv beta zeta.
  destruct (negb _); [done|]. destruct (forallb _ _); [|done].
  by apply JsSet_NoDup_add.
Qed.

Lemma registered_elem st i :
  store_consistent st → entities_keyed st →
  registered st i = true ↔ (i, i) ∈ entities st.
Proof.
  intros (Hnd & _ & _) [_ Hmap]. unfold registered, JsMap.has. split.
  - destruct (JsMap.get (entities st) i) as [r|] eqn:Hg; [|done]. intros _.
    apply JsMap_get_Some_elem in Hg. rewrite Forall_forall in Hmap.
    destruct (Hmap _ Hg) as [Hk _]. simpl in Hk. by subst.
  - intros Hin. by rewrite (JsMap_elem_get _ _ _ Hnd Hin).
Qed.

(** What an uncached query answers. *)
Lemma query_uncached_members st cls :
  reachable st →
  queryCache st !! World.cacheKey cls = None →
  NoDup (World.query st cls).1
  ∧ ∀ i, i ∈ (World.query st cls).1 ↔ satisfies st cls i.
Proof.
  intros Hreach Hc. destruct (reachable_inv st Hreach) as (Hs & _ & He).
  unfold World.query. rewrite Hc. simpl. split; [apply matching_NoDup|].
  intros i. rewrite matching_elem. unfold satisfies.
  rewrite (registered_elem st i Hs He).
  destruct He as [Hheap Hmap]. rewrite Forall_forall in Hmap.
  assert (Hall : forallb (World.hasComponent st i) cls = true
                 ↔ ∀ c, c ∈ cls → World.hasComponent st i c = true).
  { rewrite forallb_forall. by setoid_rewrite list_elem_of_In. }
  split.
  - intros ([k r] & Hin & Hid & Hact & Hf). simpl in *.
    destruct (Hmap _ Hin) as [Hk [x Hx]]. simpl in *. subst k.
    rewrite (lookup_total_correct _ _ _ Hx) in Hid, Hact.
    destruct (Hheap r x Hx) as [Hr _]. assert (r = i) as -> by congruence.
    split_and!; [done | by rewrite (lookup_total_correct _ _ _ Hx) | by apply Hall].
  - intros (Hin & Hact & Hf). exists (i, i). simpl.
    destruct (Hmap _ Hin) as [_ [x Hx]]. simpl in Hx.
    destruct (Hheap i x Hx) as [Hr _].
    split_and!; [done | by rewrite (lookup_total_correct _ _ _ Hx) | done | by apply Hall].
Qed.

(** X2.  In a reachable state, a query whose key is not cached returns,
    without repetition, exactly the ids of the entities that are
    registered, active, and have a component of every listed class. *)
Theorem query_uncached_spec st cls :
  reachable st →
  queryCache st !! World.cacheKey cls = None →
  NoDup (World.query st cls).1
  ∧ ∀ i, i ∈ (World.query st cls).1 ↔ satisfies st cls i.
Proof. exact (query_uncached_members st cls). Qed.

Lemma query_uncached_spec_witness :
  reachable two_entities
  ∧ queryCache two_entities !! World.cacheKey [K1; K2] = None
  ∧ (World.query two_entities [K1; K2]).1 = [0]
  ∧ satisfies two_entities [K1; K2] 0
  ∧ ¬ satisfies two_entities [K1; K2] 1.
Proof.
  assert (Hc : queryCache two_entities !! World.cacheKey [K1; K2] = None)
    by reflexivity.
  destruct (query_uncached_spec two_entities [K1; K2] two_entities_reachable Hc)
    as [_ Hiff].
  split_and!; [apply two_entities_reachable | done | reflexivity | |].
  - apply Hiff. apply list_elem_of_here.
  - intros Hs. apply Hiff in Hs.
    apply list_elem_of_singleton in Hs. discriminate.
Defined.

(* ================================================================== *)
(** * Further facts: removing entities and components *)
(* ================================================================== *)

(** X3.  [removeEntity] unregisters the id and drops its whole component
    map, calling [onDetach] on each of its components that has the hook,
    in the order they were added; other entities and their components
    are untouched; the entity count goes down by one if the id was
    registered and stays otherwise; the query cache is emptied in both
    cases. *)
Theorem removeEntity_spec st i :
  store_consistent st →
  let '(st', evs) := World.removeEntity st i in
  registered st' i = false
  ∧ (∀ k, World.getComponent st' i k = None)
  ∧ (∀ j k, j ≠ i →
       registered st' j = registered st j
       ∧ World.getComponent st' j k = World.getComponent st j k)
  ∧ World.getEntityCount st'
    = (if registered st i then pred (World.getEntityCount st)
       else World.getEntityCount st)
  ∧ evs = match JsMap.get (components st) i with
          | Some m => World.detachAll m
          | None => []
          end
  ∧ queryCache st' = ∅
  ∧ (if registered st i then True
     else entities st' = entities st ∧ components st' = components st).
Proof.
  intros (He & Hc & Hk). unfold World.removeEntity, registered. simpl.
  split_and!.
  - by rewrite JsMap_has_delete, bool_decide_true.
  - intros k. unfold World.getComponent. simpl.
    by rewrite JsMap_get_delete_eq.
  - intros j k Hne. split.
    + by rewrite JsMap_has_delete, bool_decide_false.
    + unfold World.getComponent. simpl. by rewrite JsMap_get_delete_ne.
  - apply JsMap_size_delete.
  - done.
  - done.
  - destruct (JsMap.has (entities st) i) eqn:Hreg; [done|].
    pose proof (Hk i) as Hki. rewrite Hreg in Hki.
    unfold JsMap.has in Hreg, Hki. split.
    + apply JsMap_delete_absent. by destruct (JsMap.get (entities st) i).
    + apply JsMap_delete_absent. by destruct (JsMap.get (components st) i).
Qed.

Lemma removeEntity_spec_witness :
  store_consistent two_entities
  ∧ let '(st', evs) := World.removeEntity two_entities 0 in
    registered st' 0 = false
    ∧ World.getEntityCount st' = 1
    ∧ evs = [OnDetach (Component.mk 0 "MeshComponent" false true 1)].
Proof.
  assert (Hs : store_consistent two_entities)
    by apply (reachable_inv _ two_entities_reachable).
  split; [exact Hs|].
  pose proof (removeEntity_spec two_entities 0 Hs) as H.
  destruct (World.removeEntity two_entities 0) as [st' evs].
  destruct H as (H1 & _ & _ & H4 & H5 & _). split_and!; [exact H1 | exact H4 | exact H5].
Defined.

(** X4.  In a reachable state, an entity that has been removed is in the
    answer of no query made right after, whatever was cached before. *)
Theorem removed_entity_matches_nothing st i cls :
  reachable st →
  i ∉ (World.query (World.removeEntity st i).1 cls).1.
Proof.
  intros Hreach Hin.
  assert (Hreach' : reachable (World.removeEntity st i).1)
    by by apply reach_removeEntity.
  apply (query_uncached_members _ cls Hreach') in Hin as [Hreg _]; [|done].
  rewrite removeEntity_unregisters in Hreg; [done|].
  apply (reachable_inv st Hreach).
Qed.

Lemma removed_entity_matches_nothing_witness :
  reachable two_entities
  ∧ 0 ∈ (World.query two_entities [K2]).1
  ∧ 0 ∉ (World.query (World.removeEntity two_entities 0).1 [K2]).1.
Proof.
  split; [apply two_entities_reachable|]. split.
  - apply list_elem_of_here.
  - apply (removed_entity_matches_nothing two_entities 0 [K2] two_entities_reachable).
Defined.

(** X5.  [removeComponent] takes out the component of the given class
    and nothing else: afterwards the entity has no component of that
    class, every other component is where it was, and no entity is added
    or removed.  If there was such a component, its [onDetach] is called
    if it has one and the query cache is emptied; if not (or if the
    entity is unknown) nothing changes at all, the cache included. *)
Theorem removeComponent_spec st i cls :
  components_keyed st →
  let '(st', evs) := World.removeComponent st i cls in
  World.hasComponent st' i cls = false
  ∧ (∀ j k, (j, ComponentClass.name k) ≠ (i, ComponentClass.name cls) →
       World.getComponent st' j k = World.getComponent st j k)
  ∧ entities st' = entities st
  ∧ match World.getComponent st i cls with
    | Some c =>
        evs = (if Component.onDetach c then [OnDetach c] else [])
        ∧ queryCache st' = ∅
    | None => st' = st ∧ evs = []
    end.
Proof.
  intros Hk. unfold World.removeComponent, World.getComponent, World.hasComponent.
  destruct (JsMap.get (components st) i) as [m|] eqn:Hg.
  - destruct (components_keyed_get st i m Hk Hg) as [Hnd _].
    destruct (JsMap.get m (ComponentClass.name cls)) as [c|] eqn:Hc; simpl.
    + rewrite JsMap_get_set_eq. split_and!; try done.
      * unfold JsMap.has. by rewrite JsMap_get_delete_eq.
      * intros j k Hne. destruct (decide (i = j)) as [<-|Hij].
        -- rewrite JsMap_get_set_eq, Hg. apply JsMap_get_delete_ne. congruence.
        -- by rewrite JsMap_get_set_ne.
    + rewrite Hg. unfold JsMap.has. by rewrite Hc.
  - simpl. by rewrite Hg.
Qed.

Lemma removeComponent_spec_witness :
  components_keyed two_entities
  ∧ let '(st', evs) := World.removeComponent two_entities 1 K2 in
    World.hasComponent st' 1 K2 = false
    ∧ World.getComponent st' 0 K2 = World.getComponent two_entities 0 K2
    ∧ evs = [OnDetach (Component.mk 1 "PositionComponent" true true 3)].
Proof.
  assert (Hk : components_keyed two_entities)
    by apply (reachable_inv _ two_entities_reachable).
  split; [exact Hk|].
  pose proof (removeComponent_spec two_entities 1 K2 Hk) as H.
  destruct (World.removeComponent two_entities 1 K2) as [st' evs].
  destruct H as (H1 & H2 & _ & H4).
  change (World.getComponent two_entities 1 K2)
    with (Some (Component.mk 1 "PositionComponent" true true 3)) in H4.
  destruct H4 as [H4 _]. split_and!; [exact H1 | by apply H2 | exact H4].
Defined.

(** X6.  In a reachable state, right after [removeEntity], after an
    [addComponent] that did not throw, or after a [removeComponent] that
    found its component, every query returns exactly the registered,
    active entities that have all the listed classes in the stores as
    they are then. *)
Theorem query_after_mutation st i c cls q j :
  reachable st →
  (j ∈ (World.query (World.removeEntity st i).1 q).1
   ↔ satisfies (World.removeEntity st i).1 q j)
  ∧ match (World.addComponent st i c).1.1 with
    | None => j ∈ (World.query (World.addComponent st i c).1.2 q).1
              ↔ satisfies (World.addComponent st i c).1.2 q j
    | Some _ => (World.addComponent st i c).1.2 = st
    end
  ∧ match World.getComponent st i cls with
    | Some _ => j ∈ (World.query (World.removeComponent st i cls).1 q).1
                ↔ satisfies (World.removeComponent st i cls).1 q j
    | None => (World.removeComponent st i cls).1 = st
    end.
Proof.
  intros Hreach. split_and!.
  - apply query_uncached_members; [by apply reach_removeEntity | done].
  - destruct (World.addComponent st i c).1.1 eqn:Herr.
    + unfold World.addComponent in *.
      by destruct (JsMap.get (components st) i).
    + apply query_uncached_members; [by apply reach_addComponent|].
      by rewrite addComponent_invalidates.
  - destruct (World.getComponent st i cls) as [c'|] eqn:Hg.
    + apply query_uncached_members; [by apply reach_removeComponent|].
      by rewrite (removeComponent_invalidates st i cls c').
    + unfold World.getComponent, World.removeComponent in *.
      destruct (JsMap.get (components st) i) as [m|]; [|done].
      by rewrite Hg.
Qed.

Lemma query_after_mutation_witness :
  reachable two_entities
  ∧ (1 ∈ (World.query (World.addComponent two_entities 1
                         (Component.mk 1 "MeshComponent" false false 4)).1.2
                      [K1; K2]).1
     ↔ satisfies (World.addComponent two_entities 1
                    (Component.mk 1 "MeshComponent" false false 4)).1.2 [K1; K2] 1).
Proof.
  split; [apply two_entities_reachable|].
  destruct (query_after_mutation two_entities 1
              (Component.mk 1 "MeshComponent" false false 4) K1 [K1; K2] 1
              two_entities_reachable) as (_ & H & _).
  exact H.
Defined.

(* ================================================================== *)
(** * Further facts: the system list *)
(* ================================================================== *)

Section indexOf_facts.
Context {A : Type} `{EqDecision A}.
Implicit Types (x : A) (l : list A).

Lemma indexOf_None l x : JsArray.indexOf l x = None ↔ x ∉ l.
Proof.
  induction l as [|y l IH]; simpl.
  - split; [intros _; apply not_elem_of_nil | done].
  - rewrite not_elem_of_cons. destruct (decide (x = y)) as [->|Hne].
    + split; [done | by intros [? _]].
    + destruct (JsArray.indexOf l x); simpl.
      * split; [done|]. intros [_ Hx]. by apply IH in Hx.
      * split; [intros _; split; [done | by apply IH] | done].
Qed.

Lemma indexOf_Some l x i :
  JsArray.indexOf l x = Some i →
  ∃ l1 l2, l = l1 ++ x :: l2 ∧ (x ∉ l1) ∧ (length l1 = i)
           ∧ JsArray.splice1 l i = l1 ++ l2.
Proof.
  revert i. induction l as [|y l IH]; intros i; simpl; [done|].
  destruct (decide (x = y)) as [->|Hne].
  - intros [= <-]. exists [], l. split_and!; [done | apply not_elem_of_nil | done | done].
  - destruct (JsArray.indexOf l x) as [j|] eqn:Hj; simpl; [|done].
    intros [= <-]. destruct (IH j eq_refl) as (l1 & l2 & -> & Hx & <- & Hsp).
    exists (y :: l1), l2. split_and!; [done | | done |].
    + rewrite not_elem_of_cons. by split.
    + unfold JsArray.splice1 in *. simpl. by rewrite Hsp.
Qed.

Lemma indexOf_first l1 l2 x :
  x ∉ l1 → JsArray.indexOf (l1 ++ x :: l2) x = Some (length l1).
Proof.
  induction l1 as [|y l1 IH]; simpl.
  - intros _. by rewrite decide_True.
  - rewrite not_elem_of_cons. intros [Hne Hx].
    rewrite decide_False by done. by rewrite IH.
Qed.

Lemma splice1_middle l1 l2 x :
  JsArray.splice1 (l1 ++ x :: l2) (length l1) = l1 ++ l2.
Proof.
  unfold JsArray.splice1.
  rewrite take_app_length. f_equal.
  rewrite drop_app_ge by lia.
  by replace (S (length l1) - length l1) with 1 by lia.
Qed.
End indexOf_facts.

(** X7.  [addSystem] on any system list, sorted or not, leaves the old
    systems and the new one in ascending order of their current
    priority, systems of equal priority in the order they had, the new
    one behind them; it calls the new system's [onInit] if it has one and
    touches nothing else in the World. *)
Theorem addSystem_spec st s :
  let prio := λ x, System.priority (systemObj st !!! x) in
  let '(st', evs) := World.addSystem st s in
  systems st' ≡ₚ s :: systems st
  ∧ StronglySorted (λ a b, (prio a ≤ prio b)%Z) (systems st')
  ∧ (∀ p, filter (λ x, prio x = p) (systems st')
          = filter (λ x, prio x = p) (systems st) ++ filter (λ x, prio x = p) [s])
  ∧ evs = (if System.onInit (systemObj st !!! s) then [OnInit s] else [])
  ∧ entities st' = entities st ∧ components st' = components st
  ∧ queryCache st' = queryCache st ∧ systemObj st' = systemObj st.
Proof.
  intros prio. unfold World.addSystem. simpl.
  rewrite byPriority_le_key. fold prio. split_and!; try done.
  - rewrite sort_Permutation. by rewrite Permutation_app_comm.
  - apply sort_StronglySorted.
  - intros p. by rewrite (sort_stable prio), filter_app.
Qed.

(** X8.  [removeSystem] of a system that is in the list takes out its
    first occurrence and keeps the others in their order, so a sorted
    list stays sorted; it calls the system's [onDestroy] if it has one.
    For a system that is not in the list nothing happens and no hook is
    called. *)
Theorem removeSystem_spec st s :
  let '(st', evs) := World.removeSystem st s in
  if decide (s ∈ systems st) then
    (∃ l1 l2, systems st = l1 ++ s :: l2 ∧ (s ∉ l1) ∧ systems st' = l1 ++ l2)
    ∧ (∀ R : ref → ref → Prop,
         StronglySorted R (systems st) → StronglySorted R (systems st'))
    ∧ evs = (if System.onDestroy (systemObj st !!! s) then [OnDestroy s] else [])
  else st' = st ∧ evs = [].
Proof.
  unfold World.removeSystem.
  destruct (JsArray.indexOf (systems st) s) as [i|] eqn:Hi.
  - destruct (indexOf_Some _ _ _ Hi) as (l1 & l2 & Hl & Hs & _ & Hsp).
    rewrite decide_True; cycle 1.
    { rewrite Hl, elem_of_app, elem_of_cons. auto. }
    simpl. rewrite Hsp. split_and!; [by exists l1, l2 | | done].
    intros R. rewrite Hl, !StronglySorted_app, StronglySorted_cons.
    intros (H12 & H1 & _ & H2). split_and!; [|done..].
    intros x1 x2 Hx1 Hx2. apply H12; [done|]. by apply list_elem_of_further.
  - apply indexOf_None in Hi. by rewrite decide_False.
Qed.

Lemma insert_last_split {A} (le : A → A → bool) (x : A) (l : list A) :
  ∃ l1 l2, l = l1 ++ l2 ∧ insert_last le x l = l1 ++ x :: l2.
Proof.
  induction l as [|y l (l1 & l2 & -> & IH)]; simpl.
  - by exists [], [].
  - destruct (negb (le y x)).
    + by exists [], (y :: l1 ++ l2).
    + exists (y :: l1), l2. by rewrite IH.
Qed.

(** X9.  On a list that is sorted by priority and does not hold the
    system yet, [addSystem] followed by [removeSystem] of the same system
    gives the list back. *)
Theorem addSystem_removeSystem st s :
  Sorted (λ a b, World.byPriority st a b = true) (systems st) →
  s ∉ systems st →
  systems (World.removeSystem (World.addSystem st s).1 s).1 = systems st.
Proof.
  intros Hsorted Hs. rewrite byPriority_le_key in Hsorted.
  unfold World.removeSystem. rewrite addSystem_systems, byPriority_le_key.
  rewrite sort_snoc, (sort_sorted_id _ _ Hsorted).
  destruct (insert_last_split
              (le_key (λ x, System.priority (systemObj st !!! x))) s (systems st))
    as (l1 & l2 & Hl & ->).
  rewrite Hl in Hs. rewrite indexOf_first;
    [|intros Hin; apply Hs, elem_of_app; by left].
  simpl. by rewrite splice1_middle.
Qed.

Lemma addSystem_removeSystem_witness :
  Sorted (λ a b, World.byPriority three_systems a b = true) (systems three_systems)
  ∧ (13 ∉ systems three_systems)
  ∧ systems (World.addSystem three_systems 13).1 = [10; 11; 12; 13]
  ∧ systems (World.removeSystem (World.addSystem three_systems 13).1 13).1
    = [10; 11; 12].
Proof.
  assert (H1 : Sorted (λ a b, World.byPriority three_systems a b = true)
                      (systems three_systems))
    by (repeat constructor).
  assert (H2 : 13 ∉ systems three_systems).
  { intros Hin. repeat (apply elem_of_cons in Hin as [Hin|Hin]; [discriminate|]).
    by apply elem_of_nil in Hin. }
  split_and!; [exact H1 | exact H2 | reflexivity |].
  exact (addSystem_removeSystem three_systems 13 H1 H2).
Defined.

(** X10.  In a frame whose bodies leave the system list and the system
    objects alone, [update] calls the update of every enabled system
    once, in list order, and of no disabled one, each body run on the
    World as the one before left it.  So after [disable] a system stays
    in the list but is not updated, and after [enable] it is updated. *)
Theorem update_skips_disabled body st s d e :
  quiet body →
  s ∈ systems st →
  let others := List.filter (λ x, bool_decide (x ≠ s)
                                  && System.enabled (systemObj st !!! x))
                            (systems st) in
  (∃ f' evs,
     World.update body (S (length (systems st))) d e (System_disable st s)
     = Some (f', evs)
     ∧ update_calls evs = others
     ∧ (f', evs) = update_each body d e others
                     (World.mkFrame (System_disable st s) None)
     ∧ (s ∉ update_calls evs) ∧ systems (World.world f') = systems st)
  ∧ (∃ f' evs,
     World.update body (S (length (systems st))) d e (System_enable st s)
     = Some (f', evs)
     ∧ s ∈ update_calls evs
     ∧ (f', evs) = update_each body d e (update_calls evs)
                     (World.mkFrame (System_enable st s) None)).
Proof.
  intros Hbody Hs others. split.
  - pose proof (update_from_quiet body d e Hbody (length (systems st)) 0
                  (World.mkFrame (System_disable st s) None)) as Hu.
    rewrite drop_0 in Hu.
    assert (Hf : List.filter (enabled (World.mkFrame (System_disable st s) None))
                   (World.walked (World.mkFrame (System_disable st s) None))
                 = others).
    { unfold others, enabled, World.walked. cbn [World.oldSystems World.world].
      change (systems (System_disable st s)) with (systems st).
      apply List.filter_ext. intros x. unfold System_disable. simpl.
      destruct (decide (x = s)) as [->|Hne].
      - rewrite lookup_total_insert_eq, bool_decide_false by tauto. done.
      - rewrite lookup_total_insert_ne, bool_decide_true by done. done. }
    rewrite Hf in Hu.
    pose proof (update_each_calls body d e others
                  (World.mkFrame (System_disable st s) None)) as Hc.
    pose proof (update_each_quiet body d e Hbody others
                  (World.mkFrame (System_disable st s) None)) as Hq.
    destruct (update_each body d e others _) as [f' evs]. cbn [fst snd] in *.
    destruct Hq as (Hw & Hb & _).
    exists f', evs. split_and!; [apply Hu; unfold World.walked; simpl; lia | done | done | |].
    + rewrite Hc. unfold others. rewrite list_elem_of_In, List.filter_In.
      intros [_ Hx]. rewrite bool_decide_false in Hx by tauto. done.
    + by rewrite <- (walked_bound f' Hb), Hw.
  - pose proof (update_from_quiet body d e Hbody (length (systems st)) 0
                  (World.mkFrame (System_enable st s) None)) as Hu.
    rewrite drop_0 in Hu.
    set (on := List.filter _ _) in Hu.
    pose proof (update_each_calls body d e on
                  (World.mkFrame (System_enable st s) None)) as Hc.
    destruct (update_each body d e on _) as [f' evs] eqn:He. cbn [snd] in Hc.
    exists f', evs. split_and!; [apply Hu; unfold World.walked; simpl; lia | | by rewrite Hc, He].
    rewrite Hc. unfold on. rewrite list_elem_of_In, List.filter_In.
    split; [by apply list_elem_of_In|].
    unfold enabled, System_enable. simpl. by rewrite lookup_total_insert_eq.
Qed.

Lemma update_skips_disabled_witness :
  quiet idle
  ∧ 11 ∈ systems three_systems
  ∧ ∃ f' evs,
      World.update idle 4 (1 # 60) 1 (System_disable three_systems 11)
      = Some (f', evs)
      ∧ evs = [Update 10 (1 # 60) 1; Update 12 (1 # 60) 1]
      ∧ systems (World.world f') = [10; 11; 12].
Proof.
  assert (Hin : 11 ∈ systems three_systems)
    by (apply list_elem_of_further, list_elem_of_here).
  split; [exact idle_quiet|]. split; [exact Hin|].
  destruct (update_skips_disabled idle three_systems 11 (1 # 60) 1 idle_quiet Hin)
    as [(f' & evs & Hu & _ & He & _ & Hsys) _].
  exists f', evs. split; [exact Hu|]. split; [|exact Hsys].
  vm_compute in He. by injection He as _ ->.
Defined.

(* ================================================================== *)
(** * Further facts: entity identities *)
(* ================================================================== *)

(** X11.  Entities constructed one after the other get consecutive ids
    starting at [Entity.nextId], hence pairwise different ones; each new
    object is active, carries its id, and is named as asked or
    ["Entity_<id>"]; objects made before are untouched, and constructing
    an entity registers nothing in the World. *)
Theorem Entity_new_many_spec st names :
  let '(rs, st') := Entity_new_many st names in
  rs = seq (nextId st) (length names)
  ∧ NoDup rs
  ∧ nextId st' = nextId st + length names
  ∧ (∀ k name, names !! k = Some name →
       entityObj st' !! (nextId st + k)
       = Some (Entity.mk (nextId st + k)
                 (default ("Entity_" +:+ pretty (nextId st + k)) name) true))
  ∧ (∀ r, r < nextId st → entityObj st' !! r = entityObj st !! r)
  ∧ entities st' = entities st ∧ components st' = components st
  ∧ queryCache st' = queryCache st.
Proof.
  revert st. induction names as [|name names IH]; intros st.
  - simpl. split_and!; first [done | apply NoDup_nil_2 | lia].
  - cbn [Entity_new_many]. destruct (Entity_new st name) as [r st1] eqn:Hnew.
    specialize (IH st1). destruct (Entity_new_many st1 names) as [rs st2].
    destruct IH as (Hrs & _ & Hnext & Hobj & Hold & He & Hc & Hq).
    unfold Entity_new in Hnew. injection Hnew as <- <-. simpl in *.
    split_and!.
    + by rewrite Hrs.
    + rewrite Hrs. apply (NoDup_seq (nextId st) (S (length names))).
    + lia.
    + intros [|k] nm Hk; simpl in Hk.
      * injection Hk as ->. rewrite Hold by lia.
        rewrite Nat.add_0_r. apply lookup_insert_eq.
      * specialize (Hobj k nm Hk).
        by replace (nextId st + S k) with (S (nextId st) + k) by lia.
    + intros r Hr. rewrite Hold by lia. apply lookup_insert_ne. lia.
    + done.
    + done.
    + done.
Qed.

(* ================================================================== *)
(** * Further facts: the frame clock *)
(* ================================================================== *)

(** X12.  [stop] leaves the clock stopped with no pending frame,
    cancelling the pending one if there was one, and keeps every time
    stamp and counter; a second [stop] does nothing, and neither does a
    tick that still arrives afterwards. *)
Theorem stop_spec t :
  let '(t', evs) := Time.stop t in
  Time._isRunning t' = false
  ∧ Time.rafId t' = None
  ∧ evs = match Time.rafId t with
          | Some handle => [Time.CancelAnimationFrame handle]
          | None => []
          end
  ∧ Time.startTime t' = Time.startTime t
  ∧ Time.lastFrameTime t' = Time.lastFrameTime t
  ∧ Time._frameCount t' = Time._frameCount t
  ∧ Time.updateCallback t' = Time.updateCallback t
  ∧ Time.stop t' = (t', [])
  ∧ ∀ h now, Time.tick t' h now = (t', h, []).
Proof.
  unfold Time.stop. destruct (Time.rafId t) as [handle|] eqn:Hr; simpl;
    by rewrite ?Hr.
Qed.

Lemma tick_running t h now :
  Time._isRunning t = true →
  Time._isRunning (Time.tick t h now).1.1 = true
  ∧ Time.updateCallback (Time.tick t h now).1.1 = Time.updateCallback t
  ∧ Time.nextHandle (Time.tick t h now).1.2 = S (Time.nextHandle h)
  ∧ Time._frameCount (Time.tick t h now).1.1
    = (Time._frameCount t
       + Z.of_nat (length (List.filter is_callback (Time.tick t h now).2))
       + (match Time.updateCallback t with
          | Some _ => 0
          | None =>
              if PrimFloat.ltb 0 (Time._targetFPS t)
                 && PrimFloat.ltb (now - Time.lastFrameTime t) (Time.minFrameTime t)
              then 0 else 1
          end))%Z
  ∧ length (List.filter is_request (Time.tick t h now).2) = 1.
Proof.
  intros Hrun.
  destruct (PrimFloat.ltb 0 (Time._targetFPS t)
            && PrimFloat.ltb (now - Time.lastFrameTime t) (Time.minFrameTime t)) eqn:Hcap.
  - rewrite (tick_skip t h now Hrun Hcap). simpl.
    split_and!; [done | done | done | | done].
    destruct (Time.updateCallback t); lia.
  - pose proof (tick_frame t h now Hrun Hcap) as Hf.
    destruct (Time.tick t h now) as [[t' h'] evs] eqn:Ht.
    destruct Hf as (_ & _ & _ & Hfc & _ & Hr & Hcb & _ & Hevs).
    assert (Hh : Time.nextHandle h' = S (Time.nextHandle h)).
    { unfold Time.tick in Ht. rewrite Hrun, Hcap in Ht. simpl in Ht.
      destruct (PrimFloat.leb _ _); by injection Ht as _ <- _. }
    simpl. rewrite Hevs.
    destruct (Time.updateCallback t); simpl; split_and!; try done; lia.
Qed.

(** X13.  While the clock runs with a callback, each tick requests
    exactly one next frame, and the frame counter goes up by exactly the
    number of times the callback was called. *)
Theorem ticks_count t h nows cb :
  Time._isRunning t = true →
  Time.updateCallback t = Some cb →
  let '(t', h', evs) := ticks t h nows in
  Time._frameCount t'
  = (Time._frameCount t + Z.of_nat (length (List.filter is_callback evs)))%Z
  ∧ length (List.filter is_request evs) = length nows
  ∧ Time.nextHandle h' = Time.nextHandle h + length nows
  ∧ Time._isRunning t' = true.
Proof.
  revert t h. induction nows as [|now nows IH]; intros t h Hrun Hcb.
  - simpl. split_and!; [lia | done | lia | done].
  - cbn [ticks].
    destruct (tick_running t h now Hrun) as (Hr1 & Hc1 & Hh1 & Hf1 & Hq1).
    destruct (Time.tick t h now) as [[t1 h1] evs1]. simpl in *.
    rewrite Hcb in Hc1, Hf1.
    specialize (IH t1 h1 Hr1 Hc1).
    destruct (ticks t1 h1 nows) as [[t2 h2] evs2].
    destruct IH as (Hf2 & Hq2 & Hh2 & Hr2).
    rewrite !List.filter_app, !length_app.
    split_and!; [lia | lia | lia | done].
Qed.

Lemma ticks_count_witness :
  Time._isRunning clock60_started.1 = true
  ∧ Time.updateCallback clock60_started.1 = Some 1
  ∧ let '(t', h', evs) :=
      ticks clock60_started.1 clock60_started.2 tick_times in
    Time._frameCount t' = 2%Z
    ∧ length (List.filter is_callback evs) = 2
    ∧ length (List.filter is_request evs) = 4.
Proof.
  split; [reflexivity|]. split; [reflexivity|].
  pose proof (ticks_count clock60_started.1 clock60_started.2
                tick_times 1 eq_refl eq_refl) as H.
  destruct (ticks clock60_started.1 clock60_started.2 _) as [[t' h'] evs] eqn:Ht.
  destruct H as (H1 & H2 & _).
  assert (Hn : length (List.filter is_callback evs) = 2).
  { vm_compute in Ht. by injection Ht as _ _ <-. }
  rewrite Hn in H1. split_and!; [exact H1 | exact Hn | exact H2].
Defined.

(** X15.  [reset] keeps the loop running, with its callback, pending
    frame and cap, and moves the time base: the first frame after a reset
    at time [now] has frame count 1 and an [elapsed] equal to its
    [delta], both counted from [now]. *)
Theorem reset_rebases t h now now' :
  Time._isRunning t = true →
  PrimFloat.ltb 0 (Time._targetFPS t)
  && PrimFloat.ltb (now' - now) (Time.minFrameTime t) = false →
  let t1 := Time.reset t now in
  Time._isRunning t1 = true
  ∧ Time.updateCallback t1 = Time.updateCallback t
  ∧ Time.rafId t1 = Time.rafId t
  ∧ Time._targetFPS t1 = Time._targetFPS t
  ∧ Time._frameCount t1 = 0%Z
  ∧ let '(t2, h2, evs) := Time.tick t1 h now' in
    Time._frameCount t2 = 1%Z
    ∧ Time._delta t2 = ((now' - now) / 1000)%float
    ∧ Time._elapsed t2 = Time._delta t2
    ∧ evs = match Time.updateCallback t with
            | Some cb => [Time.Callback cb (Time._delta t2) (Time._delta t2)]
            | None => []
            end ++ [Time.RequestAnimationFrame (Time.nextHandle h)].
Proof.
  intros Hrun Hcap t1. split_and!; try done.
  pose proof (tick_frame t1 h now' Hrun Hcap) as Hf.
  destruct (Time.tick t1 h now') as [[t2 h2] evs].
  destruct Hf as (_ & Hd & He & Hfc & _ & _ & _ & _ & Hevs).
  cbn [Time.reset Time.lastFrameTime Time.startTime Time._frameCount
       Time.updateCallback t1] in *.
  split_and!; [done | done | congruence |].
  rewrite Hevs. by rewrite He, Hd.
Qed.

Lemma reset_rebases_witness :
  Time._isRunning clock60_started.1 = true
  ∧ let '(t2, h2, evs) :=
      Time.tick (Time.reset clock60_started.1 9000) clock60_started.2 9020 in
    Time._frameCount t2 = 1%Z
    ∧ Time._elapsed t2 = Time._delta t2
    ∧ Time._delta t2 = (20 / 1000)%float.
Proof.
  split; [reflexivity|].
  pose proof (reset_rebases clock60_started.1 clock60_started.2 9000 9020
                eq_refl eq_refl) as H.
  cbv zeta in H. destruct H as (_ & _ & _ & _ & _ & H).
  destruct (Time.tick (Time.reset clock60_started.1 9000) clock60_started.2 9020)
    as [[t2 h2] evs].
  destruct H as (H1 & H2 & H3 & _). split_and!; [exact H1 | exact H3 |].
  rewrite H2. reflexivity.
Defined.

(** X16.  The [targetFPS] setter takes effect at once: it stores the
    target and [1000 / target] (as a binary64 number), and on the next
    tick of the running clock a frame is produced unless the new target
    is above 0 and the time passed since the last frame is below that
    stored quotient; a target of 0 or below, or one that is not a number,
    never holds a frame back. *)
Theorem set_targetFPS_immediate t h now f :
  Time._isRunning t = true →
  let t1 := Time.set_targetFPS t f in
  let held := PrimFloat.ltb 0 f
              && PrimFloat.ltb (now - Time.lastFrameTime t) (1000 / f) in
  Time.targetFPS t1 = f
  ∧ interval_consistent t1
  ∧ (PrimFloat.leb f 0 = true ∨ PrimFloat.eqb f f = false → held = false)
  ∧ if held then
      Time._frameCount (Time.tick t1 h now).1.1 = Time._frameCount t
      ∧ Time.lastFrameTime (Time.tick t1 h now).1.1 = Time.lastFrameTime t
      ∧ (Time.tick t1 h now).2 = [Time.RequestAnimationFrame (Time.nextHandle h)]
    else
      Time._frameCount (Time.tick t1 h now).1.1 = (Time._frameCount t + 1)%Z
      ∧ Time.lastFrameTime (Time.tick t1 h now).1.1 = now
      ∧ Time._delta (Time.tick t1 h now).1.1
        = ((now - Time.lastFrameTime t) / 1000)%float.
Proof.
  intros Hrun t1 held.
  assert (Hrun1 : Time._isRunning t1 = true) by done.
  assert (Hi : interval_consistent t1) by done.
  assert (Hheld : PrimFloat.ltb 0 (Time._targetFPS t1)
                  && PrimFloat.ltb (now - Time.lastFrameTime t1) (Time.minFrameTime t1)
                  = held).
  { unfold held. cbn [t1 Time.set_targetFPS Time._targetFPS Time.lastFrameTime
                      Time.minFrameTime].
    unfold Time.frameInterval. by destruct (PrimFloat.ltb 0 f). }
  split_and!; [done | done | |].
  - unfold held. intros [Hle|Hnan].
    + by rewrite (leb_0_not_pos f Hle).
    + assert (Hf : Prim2SF f = S754_nan).
      { rewrite FloatAxioms.eqb_spec in Hnan.
        destruct (Prim2SF f) as [s|[]| |s m e] eqn:Hp; try done.
        unfold SFeqb in Hnan. simpl in Hnan.
        destruct s; by rewrite Z.compare_refl, Pos.compare_cont_refl in Hnan. }
      rewrite ltb_spec, Hf. by change (Prim2SF 0) with (S754_zero false).
  - destruct held.
    + rewrite (tick_skip t1 h now Hrun1 Hheld). done.
    + pose proof (tick_frame t1 h now Hrun1 Hheld) as Hf.
      destruct (Time.tick t1 h now) as [[t2 h2] evs].
      by destruct Hf as (Hlast & Hd & _ & Hfc & _).
Qed.

Lemma set_targetFPS_immediate_witness :
  Time._isRunning clock60_started.1 = true
  ∧ Time._frameCount
      (Time.tick (Time.set_targetFPS clock60_started.1 0) clock60_started.2 5001).1.1
    = 1%Z
  ∧ Time._frameCount
      (Time.tick (Time.set_targetFPS clock60_started.1 30) clock60_started.2 5020).1.1
    = 0%Z
  ∧ Time._frameCount
      (Time.tick (Time.set_targetFPS clock3.1 24) clock3.2 (1000 / 24)).1.1
    = 1%Z.
Proof.
  split; [reflexivity|]. split_and!.
  - destruct (set_targetFPS_immediate clock60_started.1 clock60_started.2 5001 0 eq_refl)
      as (_ & _ & _ & H).
    by destruct H as [H _].
  - destruct (set_targetFPS_immediate clock60_started.1 clock60_started.2 5020 30 eq_refl)
      as (_ & _ & _ & H).
    by destruct H as [H _].
  - destruct (set_targetFPS_immediate clock3.1 clock3.2 (1000 / 24) 24 eq_refl)
      as (_ & _ & _ & H).
    by destruct H as [H _].
Defined.

(* ================================================================== *)
(** * Further facts: the stage machine *)
(* ================================================================== *)

(** X17.  After [registerStage(name, stage)] the name is known and stands
    for that stage, replacing any stage registered under it before; other
    names are untouched.  Registering does not change the current stage,
    not even under the current stage's own name, so [update] still goes
    to the stage that was current; a [switchTo(name)] then succeeds and
    makes the new stage current. *)
Theorem registerStage_spec sm name stage d e :
  let sm1 := SceneManager.registerStage sm name stage in
  SceneManager.hasStage sm1 name = true
  ∧ SceneManager.getStage sm1 name = Some stage
  ∧ (∀ n, n ≠ name →
       SceneManager.getStage sm1 n = SceneManager.getStage sm n
       ∧ SceneManager.hasStage sm1 n = SceneManager.hasStage sm n)
  ∧ SceneManager.getCurrentStage sm1 = SceneManager.getCurrentStage sm
  ∧ SceneManager.update sm1 d e = SceneManager.update sm d e
  ∧ let '(err, sm2, evs) := SceneManager.switchTo sm1 name in
    err = None ∧ SceneManager.getCurrentStage sm2 = Some stage.
Proof.
  intros sm1.
  assert (Hl : SceneManager.stages sm1 !! name = Some stage)
    by apply lookup_insert_eq.
  assert (Hn : ∀ n, n ≠ name →
            SceneManager.stages sm1 !! n = SceneManager.stages sm !! n)
    by (intros n Hne; by apply lookup_insert_ne).
  unfold SceneManager.hasStage, SceneManager.getStage, SceneManager.switchTo.
  rewrite Hl. split_and!; try done.
  - intros n Hne. by rewrite (Hn n Hne).
Qed.

Lemma scene_step_lifecycle sm op live evs0 :
  lifecycle (SceneManager.engine sm) live evs0 = Some (SceneManager.currentStage sm) →
  let '(sm', evs) := scene_step sm op in
  SceneManager.engine sm' = SceneManager.engine sm
  ∧ lifecycle (SceneManager.engine sm) live (evs0 ++ evs)
    = Some (SceneManager.currentStage sm').
Proof.
  revert live. induction evs0 as [|ev evs0 IH]; intros live.
  - simpl. intros [= ->]. destruct op as [n s|n|d e|]; simpl.
    + done.
    + unfold SceneManager.switchTo.
      destruct (SceneManager.stages sm !! n) as [next|]; [|done].
      destruct (SceneManager.currentStage sm) as [cur|];
        cbn [lifecycle app SceneManager.engine SceneManager.currentStage].
      * rewrite decide_True by done. by rewrite decide_True.
      * by rewrite decide_True.
    + unfold SceneManager.update.
      destruct (SceneManager.currentStage sm) as [cur|];
        cbn [lifecycle app]; [|done].
      by rewrite decide_True.
    + unfold SceneManager.dispose.
      destruct (SceneManager.currentStage sm) as [cur|];
        cbn [lifecycle app SceneManager.engine SceneManager.currentStage]; [|done].
      by rewrite decide_True.
  - intros Hl. revert IH. destruct (scene_step sm op) as [sm' evs]. intros IH.
    simpl in Hl |- *. destruct ev as [msg|s en|s d e en|s en].
    + by apply IH.
    + destruct live; [done|]. destruct (decide (en = _)); [|done].
      by apply IH.
    + destruct (decide _); [|done]. by apply IH.
    + destruct (decide _); [|done]. by apply IH.
Qed.

(** X18.  Whatever stages are registered, switched to, updated and
    disposed of, starting from a new scene manager, the calls made to the
    stages follow the life cycle: a stage's [onInit] is called only when
    no stage is live, [onUpdate] and [onDestroy] only on the live stage,
    always with the manager's engine; and the stage left live is the
    current stage. *)
Theorem scene_lifecycle engine ops :
  let '(sm, evs) := scene_run (SceneManager.new engine) ops in
  lifecycle engine None evs = Some (SceneManager.currentStage sm)
  ∧ SceneManager.engine sm = engine.
Proof.
  assert (Hgen : ∀ ops sm evs0 live,
    lifecycle (SceneManager.engine sm) live evs0
    = Some (SceneManager.currentStage sm) →
    let '(sm', evs) := scene_run sm ops in
    lifecycle (SceneManager.engine sm) live (evs0 ++ evs)
    = Some (SceneManager.currentStage sm')
    ∧ SceneManager.engine sm' = SceneManager.engine sm).
  { clear ops. induction ops as [|op ops IH]; intros sm evs0 live Hl.
    - simpl. by rewrite app_nil_r.
    - cbn [scene_run].
      pose proof (scene_step_lifecycle sm op live evs0 Hl) as Hs.
      destruct (scene_step sm op) as [sm1 evs1].
      destruct Hs as [He Hl1]. rewrite <- He in Hl1.
      specialize (IH sm1 (evs0 ++ evs1) live Hl1).
      destruct (scene_run sm1 ops) as [sm2 evs2].
      destruct IH as [Hl2 He2]. rewrite <- app_assoc in Hl2.
      rewrite He in Hl2. split; [done | congruence]. }
  specialize (Hgen ops (SceneManager.new engine) [] None eq_refl).
  by destruct (scene_run (SceneManager.new engine) ops).
Qed.

(** X19.  [dispose] calls the current stage's [onDestroy] if there is
    one, and leaves no current stage and no registered name: afterwards
    every [switchTo] throws, [update] calls nothing, and a second
    [dispose] does nothing. *)
Theorem dispose_spec sm :
  let '(sm', evs) := SceneManager.dispose sm in
  evs = match SceneManager.currentStage sm with
        | Some cur => [SceneManager.StageDestroy cur (SceneManager.engine sm)]
        | None => []
        end
  ∧ SceneManager.getCurrentStage sm' = None
  ∧ (∀ n, SceneManager.hasStage sm' n = false)
  ∧ (∀ n, SceneManager.switchTo sm' n = (Some (StageNotFound n), sm', []))
  ∧ (∀ d e, SceneManager.update sm' d e = [])
  ∧ SceneManager.dispose sm' = (sm', []).
Proof.
  assert (Hempty : ∀ eng n,
    SceneManager.stages (SceneManager.mk eng None ∅) !! n = None)
    by (intros; apply lookup_empty).
  unfold SceneManager.dispose.
  destruct (SceneManager.currentStage sm) as [cur|];
    (split_and!;
     first [ done
           | intros n; unfold SceneManager.hasStage; rewrite Hempty;
             rewrite bool_decide_false; [done | by intros [? ?]]
           | intros n; unfold SceneManager.switchTo; by rewrite Hempty ]).
Qed.

(* ================================================================== *)
(** * Further facts: the render system *)
(* ================================================================== *)

Lemma hasComponent_getComponent st i c :
  World.hasComponent st i c = true ↔ is_Some (World.getComponent st i c).
Proof.
  unfold World.hasComponent, World.getComponent, JsMap.has.
  destruct (JsMap.get (components st) i) as [m|];
    [|split; [done | by intros [? ?]]].
  destruct (JsMap.get m (ComponentClass.name c));
    split; first [done | by eexists | by intros [? ?]].
Qed.

(** X20.  [RenderSystem.update] changes nothing in the World but the
    query cache, and every position it copies goes from the position
    component to the mesh component that the same entity holds at that
    moment, even when the list of entities comes from a cached answer
    that is out of date. *)
Theorem RenderSystem_update_safe st :
  let '(st', evs) := RenderSystem.update st in
  entities st' = entities st
  ∧ components st' = components st
  ∧ systems st' = systems st
  ∧ ∀ m p, RenderSystem.CopyPosition m p ∈ evs →
      ∃ i, i ∈ (World.query st [RenderSystem.MeshComponent; PositionComponent]).1
           ∧ World.getComponent st i RenderSystem.MeshComponent = Some m
           ∧ World.getComponent st i PositionComponent = Some p.
Proof.
  unfold RenderSystem.update.
  destruct (query_stores st [RenderSystem.MeshComponent; PositionComponent])
    as (He & Hc & _ & _).
  assert (Hsys : systems (World.query st [RenderSystem.MeshComponent; PositionComponent]).2
                 = systems st).
  { unfold World.query. by destruct (queryCache st !! _). }
  destruct (World.query st [RenderSystem.MeshComponent; PositionComponent])
    as [ids st'] eqn:Hq. simpl in *.
  split_and!; [done..|].
  intros m p Hin. apply list_elem_of_In, in_flat_map in Hin as (i & Hi & Hin).
  exists i. split; [by apply list_elem_of_In|].
  unfold World.getComponent in *. rewrite Hc in Hin.
  destruct (JsMap.get (components st) i) as [cm|]; [|by destruct Hin].
  destruct (JsMap.get cm _) as [m'|]; [|by destruct Hin].
  destruct (JsMap.get cm _) as [p'|]; [|by destruct Hin].
  destruct Hin as [[= -> ->]|[]]. done.
Qed.

(** X21.  In a reachable state where the key of its query is not cached,
    [RenderSystem.update] copies the position of exactly the registered,
    active entities that have both a mesh and a position component, once
    each. *)
Theorem RenderSystem_update_complete st :
  reachable st →
  queryCache st !! World.cacheKey [RenderSystem.MeshComponent; PositionComponent] = None →
  let '(st', evs) := RenderSystem.update st in
  length evs = length (World.matching st [RenderSystem.MeshComponent; PositionComponent])
  ∧ ∀ i, satisfies st [RenderSystem.MeshComponent; PositionComponent] i →
      ∃ m p, World.getComponent st i RenderSystem.MeshComponent = Some m
             ∧ World.getComponent st i PositionComponent = Some p
             ∧ RenderSystem.CopyPosition m p ∈ evs.
Proof.
  intros Hreach Hc.
  destruct (query_uncached_members st _ Hreach Hc) as [_ Hiff].
  unfold RenderSystem.update.
  destruct (query_stores st [RenderSystem.MeshComponent; PositionComponent])
    as (_ & Hcomp & _ & _).
  assert (Hq1 : (World.query st [RenderSystem.MeshComponent; PositionComponent]).1
                = World.matching st [RenderSystem.MeshComponent; PositionComponent]).
  { unfold World.query. by rewrite Hc. }
  destruct (World.query st [RenderSystem.MeshComponent; PositionComponent])
    as [ids st'] eqn:Hq. simpl in *. subst ids.
  assert (Hget : ∀ i c, World.getComponent st' i c = World.getComponent st i c).
  { intros i c. unfold World.getComponent. by rewrite Hcomp. }
  assert (Hboth : ∀ i,
    i ∈ World.matching st [RenderSystem.MeshComponent; PositionComponent] →
    ∃ m p, World.getComponent st i RenderSystem.MeshComponent = Some m
           ∧ World.getComponent st i PositionComponent = Some p).
  { intros i Hi. apply Hiff in Hi as (_ & _ & Hall).
    destruct (proj1 (hasComponent_getComponent st i RenderSystem.MeshComponent))
      as [m Hm]; [apply Hall, list_elem_of_here|].
    destruct (proj1 (hasComponent_getComponent st i PositionComponent))
      as [p Hp]; [apply Hall, list_elem_of_further, list_elem_of_here|].
    by exists m, p. }
  split.
  - clear Hiff Hq. revert Hboth.
    generalize (World.matching st [RenderSystem.MeshComponent; PositionComponent]).
    intros l. induction l as [|i l IH]; intros Hboth; [done|].
    simpl. rewrite length_app, IH.
    + destruct (Hboth i) as (m & p & Hm & Hp); [apply list_elem_of_here|].
      by rewrite !Hget, Hm, Hp.
    + intros j Hj. apply Hboth. by apply list_elem_of_further.
  - intros i Hs. apply Hiff in Hs.
    destruct (Hboth i Hs) as (m & p & Hm & Hp). exists m, p.
    split_and!; [done | done |].
    apply list_elem_of_In, in_flat_map. exists i.
    split; [by apply list_elem_of_In|]. rewrite !Hget, Hm, Hp. by left.
Qed.

Lemma RenderSystem_update_complete_witness :
  reachable two_entities
  ∧ let '(st', evs) := RenderSystem.update two_entities in
    evs = [RenderSystem.CopyPosition
             (Component.mk 0 "MeshComponent" false true 1)
             (Component.mk 0 "PositionComponent" false false 2)].
Proof.
  split; [apply two_entities_reachable|].
  pose proof (RenderSystem_update_complete two_entities two_entities_reachable eq_refl) as H.
  destruct (RenderSystem.update two_entities) as [st' evs] eqn:Hu.
  destruct H as [Hlen _].
  vm_compute in Hu. by injection Hu as _ <-.
Defined.

(* ================================================================== *)
(** * Further facts: the observer *)
(* ================================================================== *)

Section JsMap_set_facts.
Context {K V : Type} `{EqDecision K}.
Implicit Types (m : list (K * V)) (k : K) (v : V).

Lemma JsMap_set_set m k v v' :
  JsMap.set (JsMap.set m k v) k v' = JsMap.set m k v'.
Proof.
  induction m as [|[k0 v0] m IH]; simpl.
  - by rewrite decide_True.
  - destruct (decide (k = k0)) as [->|Hne]; simpl.
    + by rewrite decide_True.
    + rewrite decide_False by done. by rewrite IH.
Qed.

Lemma JsMap_set_same m k v : JsMap.get m k = Some v → JsMap.set m k v = m.
Proof.
  induction m as [|[k0 v0] m IH]; simpl; [done|].
  destruct (decide (k = k0)) as [->|Hne]; [by intros [= ->]|].
  intros Hg. by rewrite IH.
Qed.

Lemma JsMap_delete_set_new m k v :
  JsMap.get m k = None → JsMap.delete (JsMap.set m k v) k = m.
Proof.
  induction m as [|[k0 v0] m IH]; simpl.
  - by rewrite decide_True.
  - destruct (decide (k = k0)) as [->|Hne]; [done|]. simpl.
    rewrite decide_False by done. intros Hg. by rewrite IH.
Qed.

Lemma JsMap_elem_delete_set m k v x :
  NoDup (JsMap.keys m) → x ∈ JsMap.delete (JsMap.set m k v) k → x ∈ m.
Proof.
  intros Hm Hx.
  assert (Hnd : NoDup (JsMap.keys (JsMap.set m k v))) by by apply JsMap_NoDup_set.
  pose proof (JsMap_keys_delete_notin _ k Hnd) as Hk.
  pose proof (JsMap_elem_delete _ _ _ Hx) as Hx'.
  apply JsMap_elem_set in Hx' as [->|Hx']; [|done].
  exfalso. apply Hk. unfold JsMap.keys. apply list_elem_of_fmap.
  by exists (k, v).
Qed.
End JsMap_set_facts.

Lemma off_ok o n cb : observer_ok o → observer_ok (Observer.off o n cb).
Proof.
  intros [Hnd Hne]. unfold Observer.off.
  destruct (JsMap.get (Observer.events o) n) as [l|] eqn:Hg; [|done].
  set (l' := match JsArray.indexOf l cb with
             | Some index => JsArray.splice1 l index
             | None => l
             end).
  destruct (decide (length l' = 0)) as [Hl|Hl]; split; simpl.
  - by apply JsMap_NoDup_delete, JsMap_NoDup_set.
  - rewrite Forall_forall in Hne. apply Forall_forall. intros x Hx.
    apply Hne. by apply (JsMap_elem_delete_set _ n l').
  - by apply JsMap_NoDup_set.
  - apply JsMap_Forall_set; [|done]. simpl. by intros ->.
Qed.

Lemma on_ok o n cb : observer_ok o → observer_ok (Observer.on o n cb).2.
Proof.
  intros [Hnd Hne]. unfold Observer.on. simpl.
  destruct (JsMap.has (Observer.events o) n); split; simpl.
  - by apply JsMap_NoDup_set.
  - apply JsMap_Forall_set; [|done]. simpl. by destruct (default _ _).
  - by apply JsMap_NoDup_set, JsMap_NoDup_set.
  - rewrite JsMap_set_set. apply JsMap_Forall_set; [|done]. simpl.
    by destruct (default _ _).
Qed.

Lemma invoke_ok throws cb o data :
  observer_ok o → observer_ok (Observer.invoke throws cb o data).1.2.
Proof.
  revert o. induction cb as [f|c n inner IH|c n inner IH]; intros o Hok; simpl.
  - done.
  - specialize (IH o Hok).
    destruct (Observer.invoke throws inner o data) as [[threw o1] evs].
    destruct threw; simpl in *; [done | by apply off_ok].
  - by apply off_ok.
Qed.

Lemma emit_from_ok throws k i o n data :
  observer_ok o → observer_ok (Observer.emit_from throws k i o n data).1.
Proof.
  revert i o. induction k as [|k IH]; intros i o Hok; [done|].
  cbn [Observer.emit_from].
  destruct (default [] (JsMap.get (Observer.events o) n) !! i) as [cb|]; [|by apply IH].
  pose proof (invoke_ok throws cb o data Hok) as H1.
  destruct (Observer.invoke throws cb o data) as [[threw o1] evs1].
  specialize (IH (S i) o1 H1).
  by destruct (Observer.emit_from throws k (S i) o1 n data).
Qed.

Lemma observer_step_ok throws o op :
  observer_ok o → observer_ok (observer_step throws o op).
Proof.
  intros Hok. destruct op as [n cb|n cb|n cb|n data|n]; simpl.
  - by apply on_ok.
  - unfold Observer.once. by apply on_ok.
  - by apply off_ok.
  - unfold Observer.emit.
    destruct (JsMap.get (Observer.events o) n); [by apply emit_from_ok | done].
  - destruct Hok as [Hnd Hne]. unfold Observer.clear.
    destruct n as [name|]; [destruct (decide (name = ""))|]; split; simpl;
      first [ apply NoDup_nil_2 | by constructor
            | by apply JsMap_NoDup_delete | by apply JsMap_Forall_delete ].
Qed.

(** X22.  Whatever listeners are added with [on] and [once], removed,
    called by [emit] or cleared, starting from a new observer, each event
    name is stored once and never with an empty listener array: the names
    that [eventNames] lists are exactly those with a listener count above
    0. *)
Theorem observer_names_have_listeners throws ops n :
  let o := foldl (observer_step throws) Observer.new ops in
  observer_ok o
  ∧ (n ∈ Observer.eventNames o ↔ 0 < Observer.listenerCount o n).
Proof.
  assert (Hok : observer_ok (foldl (observer_step throws) Observer.new ops)).
  { assert (Hgen : ∀ ops o, observer_ok o →
              observer_ok (foldl (observer_step throws) o ops)).
    { clear. induction ops as [|op ops IH]; intros o Hok; [done|].
      simpl. by apply IH, observer_step_ok. }
    apply Hgen. split; [apply NoDup_nil_2 | by constructor]. }
  simpl. split; [done|].
  destruct Hok as [Hnd Hne]. unfold Observer.eventNames, Observer.listenerCount.
  destruct (JsMap.get _ n) as [l|] eqn:Hg.
  - split.
    + intros _. apply JsMap_get_Some_elem in Hg.
      rewrite Forall_forall in Hne. specialize (Hne _ Hg). simpl in Hne.
      destruct l; [done | simpl; lia].
    + intros _. apply JsMap_get_Some_elem in Hg. unfold JsMap.keys.
      apply list_elem_of_fmap. by exists (n, l).
  - split; [|lia]. intros Hin. by apply JsMap_get_None in Hg.
Qed.

Lemma indexOf_app_notin {A} `{EqDecision A} (l1 l2 : list A) x :
  x ∉ l1 → JsArray.indexOf (l1 ++ l2) x = (λ i, length l1 + i) <$> JsArray.indexOf l2 x.
Proof.
  induction l1 as [|y l1 IH]; simpl.
  - intros _. by destruct (JsArray.indexOf l2 x).
  - rewrite not_elem_of_cons. intros [Hne Hx]. rewrite decide_False by done.
    rewrite IH by done. by destruct (JsArray.indexOf l2 x).
Qed.

(** X23.  [on] adds one listener at the end of the event's list, and
    [off] with the same callback takes it out again: for a callback that
    was not yet listening to the event, the observer's events are then
    what they were before, also when the event name was new.  Calling
    the function that [on] returned does the same as that [off]. *)
Theorem on_off_roundtrip throws o n cb data :
  observer_ok o →
  cb ∉ listeners o n →
  let '(unsubscribe, o1) := Observer.on o n cb in
  listeners o1 n = listeners o n ++ [cb]
  ∧ Observer.listenerCount o1 n = S (Observer.listenerCount o n)
  ∧ Observer.events (Observer.off o1 n cb) = Observer.events o
  ∧ Observer.invoke throws unsubscribe o1 data = (false, Observer.off o1 n cb, []).
Proof.
  intros [Hnd Hne] Hcb. unfold Observer.on, listeners, Observer.listenerCount in *.
  cbn [Observer.events]. unfold JsMap.has.
  destruct (JsMap.get (Observer.events o) n) as [l|] eqn:Hg; simpl in Hcb.
  - rewrite Hg. cbn [from_option id]. rewrite JsMap_get_set_eq. cbn [from_option id].
    split_and!; [done | by rewrite length_app, Nat.add_1_r | | done].
    unfold Observer.off. cbn [Observer.events]. rewrite JsMap_get_set_eq.
    rewrite indexOf_first by done. rewrite splice1_middle, app_nil_r.
    rewrite JsMap_set_set, (JsMap_set_same _ _ _ Hg).
    apply JsMap_get_Some_elem in Hg. rewrite Forall_forall in Hne.
    specialize (Hne _ Hg). simpl in Hne.
    destruct (decide (length l = 0)) as [Hl|Hl]; [|done].
    by destruct l.
  - rewrite JsMap_get_set_eq. cbn [from_option id]. rewrite !JsMap_set_set, JsMap_get_set_eq.
    cbn [from_option id]. split_and!; [reflexivity | reflexivity | | reflexivity].
    unfold Observer.off. cbn [Observer.events]. rewrite JsMap_get_set_eq.
    rewrite (indexOf_first [] [] cb) by apply not_elem_of_nil.
    rewrite (splice1_middle [] [] cb). cbn [app length].
    rewrite decide_True by done. cbn [Observer.events].
    by rewrite JsMap_set_set, JsMap_delete_set_new.
Qed.

Lemma tap_observer_ok : observer_ok tap_observer.
Proof.
  split; [apply (NoDup_singleton "tap")|].
  repeat constructor. discriminate.
Qed.

Lemma on_off_roundtrip_witness :
  observer_ok tap_observer
  ∧ (Observer.Fn 4 ∉ listeners tap_observer "tap")
  ∧ Observer.listenerCount (Observer.on tap_observer "tap" (Observer.Fn 4)).2 "tap" = 4
  ∧ Observer.events (Observer.off (Observer.on tap_observer "tap" (Observer.Fn 4)).2
                       "tap" (Observer.Fn 4))
    = Observer.events tap_observer.
Proof.
  assert (Hin : Observer.Fn 4 ∉ listeners tap_observer "tap").
  { intros Hin. repeat (apply elem_of_cons in Hin as [Hin|Hin]; [discriminate|]).
    by apply elem_of_nil in Hin. }
  split; [apply tap_observer_ok|]. split; [exact Hin|].
  pose proof (on_off_roundtrip throws2 tap_observer "tap" (Observer.Fn 4) 0
                tap_observer_ok Hin) as H.
  destruct (Observer.on tap_observer "tap" (Observer.Fn 4)) as [unsub o1].
  destruct H as (_ & H2 & H3 & _). split; [exact H2 | exact H3].
Defined.

Lemma emit_from_plain throws o n data fs :
  ∀ pre post k,
  listeners o n = pre ++ (Observer.Fn <$> fs) ++ post →
  Observer.emit_from throws (length fs + k) (length pre) o n data
  = ((Observer.emit_from throws k (length pre + length fs) o n data).1,
     plain_calls throws n data fs
     ++ (Observer.emit_from throws k (length pre + length fs) o n data).2).
Proof.
  unfold listeners. induction fs as [|f fs IH]; intros pre post k Hl.
  - simpl. rewrite Nat.add_0_r. by destruct (Observer.emit_from _ _ _ _ _ _).
  - cbn [length Nat.add Observer.emit_from]. rewrite Hl.
    rewrite fmap_cons. cbn [app].
    rewrite (list_lookup_middle pre _ (Observer.Fn f) (length pre) eq_refl).
    cbn [Observer.invoke].
    specialize (IH (pre ++ [Observer.Fn f]) post k).
    rewrite length_app in IH. cbn [length] in IH.
    replace (length pre + 1) with (S (length pre)) in IH by lia.
    rewrite IH; [|by rewrite Hl, <- app_assoc].
    replace (S (length pre) + length fs) with (length pre + S (length fs)) by lia.
    destruct (Observer.emit_from throws k _ o n data) as [o2 evs2].
    cbn [fst snd plain_calls flat_map]. f_equal.
    by rewrite <- !app_assoc.
Qed.

(** [emit] over listeners that are all functions of the program. *)
Lemma emit_plain_calls throws o n data fs :
  JsMap.get (Observer.events o) n = Some (Observer.Fn <$> fs) →
  Observer.emit throws o n data = (o, plain_calls throws n data fs).
Proof.
  intros Hg. unfold Observer.emit. rewrite Hg, length_fmap.
  pose proof (emit_from_plain throws o n data fs [] [] 0) as H.
  rewrite Nat.add_0_r in H. simpl in H. rewrite H.
  - by rewrite app_nil_r.
  - unfold listeners. rewrite Hg. simpl. by rewrite app_nil_r.
Qed.

(** X24.  When all listeners of an event are functions of the program,
    [emit] calls each of them once, in the order they were added, with
    the data given; an error is logged after each one that throws and the
    others are still called; the observer is left as it was.  For an
    event without listeners nothing is called. *)
Theorem emit_plain throws o n data fs :
  listeners o n = Observer.Fn <$> fs →
  Observer.emit throws o n data = (o, plain_calls throws n data fs).
Proof.
  unfold listeners. intros Hl.
  destruct (JsMap.get (Observer.events o) n) as [l|] eqn:Hg; simpl in Hl.
  - subst l. by apply emit_plain_calls.
  - unfold Observer.emit. rewrite Hg. by destruct fs.
Qed.

Lemma emit_plain_witness :
  listeners tap_observer "tap" = Observer.Fn <$> [1; 2; 3]
  ∧ Observer.emit throws2 tap_observer "tap" 7
    = (tap_observer,
       [Observer.Call 1 7; Observer.Call 2 7; Observer.ConsoleError "tap";
        Observer.Call 3 7]).
Proof.
  split; [reflexivity|].
  exact (emit_plain throws2 tap_observer "tap" 7 [1; 2; 3] eq_refl).
Defined.

Lemma Fn_notin_once c n inner (fs : list ref) :
  Observer.OnceCallback c n inner ∉ Observer.Fn <$> fs.
Proof.
  intros Hin. apply list_elem_of_fmap in Hin as (f & Hf & _). discriminate.
Qed.

Lemma off_listeners_removed o n w l1 l2 :
  NoDup (JsMap.keys (Observer.events o)) →
  JsMap.get (Observer.events o) n = Some (l1 ++ w :: l2) →
  w ∉ l1 →
  listeners (Observer.off o n w) n = l1 ++ l2.
Proof.
  intros Hnd Hg Hw. unfold Observer.off, listeners. rewrite Hg.
  rewrite indexOf_first by done. rewrite splice1_middle.
  destruct (decide (length (l1 ++ l2) = 0)) as [Hl|Hl]; cbn [Observer.events].
  - rewrite JsMap_get_delete_eq by by apply JsMap_NoDup_set.
    simpl. by destruct (l1 ++ l2).
  - by rewrite JsMap_get_set_eq.
Qed.

(** X25.  A listener added with [once] behind listeners that are
    functions of the program: [emit] calls those, then the function given
    to [once], and takes the once-listener out of the list, so the next
    [emit] does not reach it.  If that function throws, the once-listener
    stays in the list and is called again by the next [emit]. *)
Theorem emit_once_last throws o n data fs c f :
  NoDup (JsMap.keys (Observer.events o)) →
  JsMap.get (Observer.events o) n
  = Some ((Observer.Fn <$> fs) ++ [Observer.OnceCallback c n (Observer.Fn f)]) →
  let '(o', evs) := Observer.emit throws o n data in
  if throws f then
    o' = o
    ∧ evs = plain_calls throws n data fs
            ++ [Observer.Call f data; Observer.ConsoleError n]
  else
    listeners o' n = Observer.Fn <$> fs
    ∧ evs = plain_calls throws n data fs ++ [Observer.Call f data]
    ∧ (Observer.emit throws o' n data).2 = plain_calls throws n data fs.
Proof.
  intros Hnd Hg. unfold Observer.emit. rewrite Hg, length_app, length_fmap.
  cbn [length].
  pose proof (emit_from_plain throws o n data fs []
                [Observer.OnceCallback c n (Observer.Fn f)] 1) as Hp.
  cbn [length Nat.add app] in Hp. rewrite Hp; [|unfold listeners; by rewrite Hg].
  clear Hp. cbn [Observer.emit_from]. rewrite Hg. cbn [from_option id].
  rewrite (list_lookup_middle _ [] _ (length fs)) by by rewrite length_fmap.
  cbn [Observer.invoke]. destruct (throws f) eqn:Hf; cbn [fst snd].
  - split; [done|]. by rewrite app_nil_r.
  - pose proof (off_listeners_removed o n _ _ [] Hnd Hg (Fn_notin_once c n _ fs)) as Hl.
    rewrite app_nil_r in Hl. split_and!; [done | by rewrite app_nil_r |].
    set (o1 := Observer.off o n _) in *. unfold listeners in Hl.
    destruct (JsMap.get (Observer.events o1) n) as [l|] eqn:Hg1; simpl in Hl.
    + subst l. pose proof (emit_plain_calls throws o1 n data fs Hg1) as He.
      unfold Observer.emit in He. rewrite Hg1 in He. by rewrite He.
    + destruct fs; [done | discriminate].
Qed.

Lemma emit_once_last_witness :
  NoDup (JsMap.keys (Observer.events once_alone))
  ∧ JsMap.get (Observer.events once_alone) "load"
    = Some ((Observer.Fn <$> []) ++ [Observer.OnceCallback 0 "load" (Observer.Fn 5)])
  ∧ let '(o', evs) := Observer.emit throws2 once_alone "load" 7 in
    evs = [Observer.Call 5 7]
    ∧ Observer.listenerCount o' "load" = 0
    ∧ (Observer.emit throws2 o' "load" 7).2 = [].
Proof.
  assert (Hnd : NoDup (JsMap.keys (Observer.events once_alone)))
    by apply (NoDup_singleton "load").
  split; [exact Hnd|]. split; [reflexivity|].
  pose proof (emit_once_last throws2 once_alone "load" 7 [] 0 5 Hnd eq_refl) as H.
  destruct (Observer.emit throws2 once_alone "load" 7) as [o' evs].
  change (throws2 5) with false in H. cbv iota in H.
  destruct H as (H1 & H2 & H3). split_and!; [exact H2 | | exact H3].
  unfold listeners in H1. unfold Observer.listenerCount.
  destruct (JsMap.get (Observer.events o') "load"); [|done].
  simpl in H1. by subst.
Defined.

(** X26.  A listener added with [once] in front of listeners that are
    functions of the program: when [emit] has called it and taken it out,
    the others have moved one place forward, and the one that was right
    behind it is not called on that emission; it is called from the next
    emission on.  If the function given to [once] throws, the
    once-listener stays and all the others are called. *)
Theorem emit_once_first throws o n data c f gs :
  NoDup (JsMap.keys (Observer.events o)) →
  JsMap.get (Observer.events o) n
  = Some (Observer.OnceCallback c n (Observer.Fn f) :: (Observer.Fn <$> gs)) →
  let '(o', evs) := Observer.emit throws o n data in
  if throws f then
    o' = o
    ∧ evs = [Observer.Call f data; Observer.ConsoleError n]
            ++ plain_calls throws n data gs
  else
    listeners o' n = Observer.Fn <$> gs
    ∧ evs = Observer.Call f data :: plain_calls throws n data (drop 1 gs)
    ∧ (Observer.emit throws o' n data).2 = plain_calls throws n data gs.
Proof.
  intros Hnd Hg. unfold Observer.emit at 1. rewrite Hg.
  cbn [length Observer.emit_from]. rewrite Hg. cbn [from_option id lookup list_lookup].
  cbn [Observer.invoke]. rewrite length_fmap.
  destruct (throws f) eqn:Hf.
  - pose proof (emit_from_plain throws o n data gs
                  [Observer.OnceCallback c n (Observer.Fn f)] [] 0) as Hp.
    cbn [length Nat.add] in Hp. rewrite Nat.add_0_r in Hp.
    rewrite Hp; [|unfold listeners; by rewrite Hg, app_nil_r].
    cbn [Observer.emit_from fst snd]. by rewrite app_nil_r.
  - pose proof (off_listeners_removed o n (Observer.OnceCallback c n (Observer.Fn f))
                  [] (Observer.Fn <$> gs) Hnd Hg (not_elem_of_nil _)) as Hl.
    cbn [app] in Hl. set (o1 := Observer.off o n _) in *.
    assert (Hrest : Observer.emit_from throws (length gs) 1 o1 n data
                    = (o1, plain_calls throws n data (drop 1 gs))).
    { destruct gs as [|g gs]; [done|].
      pose proof (emit_from_plain throws o1 n data gs [Observer.Fn g] [] 1) as Hp.
      cbn [length Nat.add] in Hp. cbn [length].
      replace (S (length gs)) with (length gs + 1) by lia.
      rewrite Hp; [|by rewrite Hl, app_nil_r].
      cbn [Observer.emit_from]. fold (listeners o1 n). rewrite Hl.
      change (Observer.Fn g :: (Observer.Fn <$> gs)) with (Observer.Fn <$> (g :: gs)).
      rewrite (proj2 (lookup_ge_None _ _)) by (rewrite length_fmap; simpl; lia).
      cbn [fst snd drop]. by rewrite app_nil_r. }
    rewrite Hrest. split_and!; [done | done |].
    unfold listeners in Hl.
    destruct (JsMap.get (Observer.events o1) n) as [l|] eqn:Hg1; simpl in Hl.
    + subst l. by rewrite (emit_plain_calls throws o1 n data gs Hg1).
    + unfold Observer.emit. rewrite Hg1. by destruct gs.
Qed.

Lemma emit_once_first_witness :
  NoDup (JsMap.keys (Observer.events once_first))
  ∧ JsMap.get (Observer.events once_first) "load"
    = Some (Observer.OnceCallback 0 "load" (Observer.Fn 5) :: (Observer.Fn <$> [1; 3]))
  ∧ let '(o', evs) := Observer.emit throws2 once_first "load" 7 in
    evs = [Observer.Call 5 7; Observer.Call 3 7]
    ∧ (Observer.emit throws2 o' "load" 7).2 = [Observer.Call 1 7; Observer.Call 3 7].
Proof.
  assert (Hnd : NoDup (JsMap.keys (Observer.events once_first)))
    by apply (NoDup_singleton "load").
  split; [exact Hnd|]. split; [reflexivity|].
  pose proof (emit_once_first throws2 once_first "load" 7 0 5 [1; 3] Hnd eq_refl) as H.
  destruct (Observer.emit throws2 once_first "load" 7) as [o' evs].
  change (throws2 5) with false in H. cbv iota in H.
  destruct H as (_ & H2 & H3). split; [exact H2 | exact H3].
Defined.

Lemma once_wrapper_ne c n cb : Observer.OnceCallback c n cb ≠ cb.
Proof.
  induction cb as [f|c' n' inner IH|c' n' inner IH]; [done| |done].
  intros [= -> -> Hi]. by apply IH.
Qed.

(** X27.  [once] adds one listener to the event, but it is the closure
    made by [once] that is added, not the callback given: an [off] with
    that callback, when the callback itself is not listening to the
    event, changes nothing and the once-listener stays. *)
Theorem once_not_removed_by_off o n cb :
  cb ∉ listeners o n →
  let o1 := Observer.once o n cb in
  Observer.listenerCount o1 n = S (Observer.listenerCount o n)
  ∧ listeners o1 n
    = listeners o n ++ [Observer.OnceCallback (Observer.nextClosure o) n cb]
  ∧ Observer.off o1 n cb = o1.
Proof.
  intros Hcb o1.
  assert (Hl : JsMap.get (Observer.events o1) n
     = Some (listeners o n ++ [Observer.OnceCallback (Observer.nextClosure o) n cb])).
  { unfold o1, Observer.once, Observer.on, listeners, JsMap.has.
    cbn [Observer.events snd].
    destruct (JsMap.get (Observer.events o) n) as [l|] eqn:Hg.
    - by rewrite Hg, JsMap_get_set_eq.
    - by rewrite !JsMap_get_set_eq. }
  split_and!.
  - unfold Observer.listenerCount at 1. rewrite Hl, length_app. simpl.
    unfold Observer.listenerCount, listeners.
    destruct (JsMap.get (Observer.events o) n); simpl; lia.
  - unfold listeners at 1. by rewrite Hl.
  - unfold Observer.off. rewrite Hl.
    rewrite (proj2 (indexOf_None _ cb)); cycle 1.
    { rewrite elem_of_app, list_elem_of_singleton. intros [?|Heq]; [done|].
      by apply (once_wrapper_ne (Observer.nextClosure o) n cb). }
    rewrite (JsMap_set_same _ _ _ Hl).
    rewrite decide_False; [by destruct o1|].
    rewrite length_app. simpl. lia.
Qed.

Lemma once_not_removed_by_off_witness :
  (Observer.Fn 5 ∉ listeners tap_observer "tap")
  ∧ Observer.listenerCount (Observer.once tap_observer "tap" (Observer.Fn 5)) "tap" = 4
  ∧ Observer.off (Observer.once tap_observer "tap" (Observer.Fn 5)) "tap" (Observer.Fn 5)
    = Observer.once tap_observer "tap" (Observer.Fn 5).
Proof.
  assert (Hin : Observer.Fn 5 ∉ listeners tap_observer "tap").
  { intros Hin. repeat (apply elem_of_cons in Hin as [Hin|Hin]; [discriminate|]).
    by apply elem_of_nil in Hin. }
  split; [exact Hin|].
  destruct (once_not_removed_by_off tap_observer "tap" (Observer.Fn 5) Hin)
    as (H1 & _ & H3).
  split; [exact H1 | exact H3].
Defined.

(** X28.  [clear(name)] with a name that is not empty takes out all
    listeners of that event and leaves those of every other event;
    [clear("")] takes the empty name for a missing one and, like
    [clear()], takes out all listeners of all events. *)
Theorem clear_spec_observer o name n :
  observer_ok o →
  name ≠ "" →
  Observer.listenerCount (Observer.clear o (Some name)) n
  = (if decide (n = name) then 0 else Observer.listenerCount o n)
  ∧ Observer.listenerCount (Observer.clear o (Some "")) n = 0
  ∧ Observer.eventNames (Observer.clear o (Some "")) = []
  ∧ Observer.clear o (Some "") = Observer.clear o None.
Proof.
  intros [Hnd _] Hne. split_and!; [|done..].
  unfold Observer.clear, Observer.listenerCount. rewrite decide_False by done.
  cbn [Observer.events].
  destruct (decide (n = name)) as [->|Hn].
  - by rewrite JsMap_get_delete_eq.
  - by rewrite JsMap_get_delete_ne.
Qed.

Lemma clear_spec_observer_witness :
  observer_ok tap_observer
  ∧ Observer.listenerCount tap_observer "tap" = 3
  ∧ Observer.listenerCount (Observer.clear tap_observer (Some "swipe")) "tap" = 3
  ∧ Observer.listenerCount (Observer.clear tap_observer (Some "")) "tap" = 0.
Proof.
  split; [apply tap_observer_ok|]. split; [reflexivity|].
  assert (Hne : "swipe" ≠ "") by discriminate.
  destruct (clear_spec_observer tap_observer "swipe" "tap" tap_observer_ok Hne)
    as (H1 & H2 & _).
  split; [|exact H2].
  rewrite decide_False in H1 by discriminate. exact H1.
Defined.
